(** * Measurement record readers (src/io/measure_record_reader.{h,cc})

    A shallow embedding of the five stream decoders (01, B8, R8, HITS, DETS)
    and of the base class they share, and of the rare-event iterator of
    src/probability_util.cc, followed by the properties of the readers that
    the specification states and by further properties of the code.

    Conventions of the embedding.
    - The platform is LP64: [size_t] is 64 bits wide and wraps around,
      [long] is 64 bits wide and signed, [SSIZE_MAX = LONG_MAX = 2^63-1],
      plain [char] is signed.  Signed overflow of a [long] has no defined
      result in C++; a run that reaches it stops with [UndefinedBehaviour].
    - A [FILE*] is the list of bytes not yet consumed; [getc] returns the
      next byte as a value in 0..255, or [EOF] when none is left.
    - A method is a function from the object to an outcome and the object
      afterwards.  A C++ exception does not roll back the fields written
      before the [throw], so the object is returned on every path.
    - A derived reader holds the fields of its base class in a [base]
      component.
    - Every method of the .cc, those of the base class included, calls the
      cursor of the reader [position].  The header under src/ is of an
      earlier revision: its base class calls the cursor [bits_returned],
      and it declares a [position] in FormatHits and FormatDets only.  The
      embedding reads [position] as the one cursor of the reader, as the
      specification has it (section 3): for 01, B8 and R8 the cursor held
      in [base]; for Hits and DETS the field [position] of the class, a
      [long], which their [read_bit] advances and which the methods they
      inherit test.  The cursor component of [base] is not used by these
      two classes. *)

From Stdlib Require Import ZArith Lia Bool Strings.Byte Ascii String List.
Import ListNotations.
Local Open Scope Z_scope.

(** ** Platform *)

Definition SSIZE_MAX : Z := 2 ^ 63 - 1.
Definition LONG_MAX : Z := 2 ^ 63 - 1.
Definition SIZE_MODULUS : Z := 2 ^ 64.
Definition EOF : Z := -1.

(** Arithmetic of [size_t]: every result is reduced modulo 2^64. *)
Definition to_size_t (z : Z) : Z := z mod SIZE_MODULUS.
Definition size_add (a b : Z) : Z := to_size_t (a + b).
Definition size_sub (a b : Z) : Z := to_size_t (a - b).
Definition size_mul (a b : Z) : Z := to_size_t (a * b).

(** Conversion of an [int] in -1..255 to a (signed) [char]. *)
Definition to_char (z : Z) : Z := (z + 128) mod 256 - 128.

Definition chr (a : ascii) : Z := Z.of_N (N_of_ascii a).

Definition char_0 : Z := Eval cbv in chr "0".
Definition char_1 : Z := Eval cbv in chr "1".
Definition char_nl : Z := Eval cbv in chr "010".
Definition char_comma : Z := Eval cbv in chr ",".
Definition char_space : Z := Eval cbv in chr " ".
Definition char_M : Z := Eval cbv in chr "M".
Definition char_D : Z := Eval cbv in chr "D".
Definition char_L : Z := Eval cbv in chr "L".

Definition isdigit (c : Z) : bool := (48 <=? c) && (c <=? 57).

(** ** Input streams *)

Definition FILE : Type := list byte.

Definition byte_val (b : byte) : Z := Z.of_N (Byte.to_N b).

Definition getc (f : FILE) : Z * FILE :=
  match f with
  | [] => (EOF, [])
  | b :: f' => (byte_val b, f')
  end.

(** [fread(dst, 1, n, in)]: copies up to [n] bytes over the start of [dst];
    returns the number of bytes copied, the buffer and the stream. *)
Fixpoint fread (dst : list Z) (n : nat) (f : FILE) : Z * list Z * FILE :=
  match n, dst, f with
  | S n', _ :: dst', b :: f' =>
      let '(m, d, f'') := fread dst' n' f' in (m + 1, byte_val b :: d, f'')
  | _, _, _ => (0, dst, f)
  end.

Definition nl : string := String "010"%char EmptyString.
Definition stream_of (s : string) : FILE := list_byte_of_string s.

(** ** Outcomes *)

Inductive runtime_what : Type :=
  | KeywordNotFound        (* "Failed to find expected string ..." *)
  | Expected01             (* "Expected '0' or '1' because input format ..." *)
  | RecordTooLong          (* "Record too long" *)
  | UnexpectedCharacter    (* "Unexpected character ..." *)
  | InvalidSeparator       (* "Invalid separator character ..." *)
  | HitInPast              (* "New hit ... is in the past of ..." *)
  | HitOutsideRecord       (* "New hit ... is outside record size ..." *)
  | NeedShot               (* "Need a \"shot\" to begin record" *)
  | UnknownResultType      (* "Unknown result type ..., expected M, D or L" *)
  | FailedToParse          (* "Failed to parse input" *)
  | UnexpectedSeparator    (* "Unexpected separator: [...]" *)
  | ShotInPast             (* "New shot ... is in the past of its position" *)
  | ShotOutsideRecord.     (* "New shot ... is outside record size ..." *)

Inductive argument_what : Type :=
  | DetsOnlyDetectionEvents      (* "Only DETS format support detection event records" *)
  | DetsOnlyLogicalObservables   (* "Only DETS format support logical observable records" *)
  | Ptb64Incompatible            (* "SAMPLE_FORMAT_PTB64 incompatible with ..." *)
  | FormatNotRecognized          (* "Sample format not recognized by ..." *)
  | RecordTooBig.                (* "Record size ... bits is too big" *)

Inductive exn : Type :=
  | PastEndOfFile                          (* std::out_of_range, end-of-file *)
  | PastEndOfRecord                        (* std::out_of_range, end-of-record *)
  | runtime_error (what : runtime_what)    (* std::runtime_error *)
  | invalid_argument (what : argument_what). (* std::invalid_argument *)

(** The error kinds of the specification. *)
Inductive error_kind : Type :=
  EndOfStream | EndOfRecord | MalformedInput | ConfigurationError.

Definition kind_of (e : exn) : error_kind :=
  match e with
  | PastEndOfFile => EndOfStream
  | PastEndOfRecord => EndOfRecord
  | runtime_error _ => MalformedInput
  | invalid_argument _ => ConfigurationError
  end.

Inductive stop : Type :=
  | Exception (e : exn)
  | UndefinedBehaviour.

Inductive outcome (A : Type) : Type :=
  | Ret (a : A)
  | Stop (s : stop).
Arguments Ret {A} a.
Arguments Stop {A} s.

Abbreviation Throw e := (Stop (Exception e)).

(** Methods: the object is threaded through, also when the call stops. *)
Definition M (S A : Type) : Type := S -> outcome A * S.

Definition ret {S A} (a : A) : M S A := fun st => (Ret a, st).
Definition throw {S A} (e : exn) : M S A := fun st => (Throw e, st).
Definition bind {S A B} (m : M S A) (k : A -> M S B) : M S B :=
  fun st =>
    match m st with
    | (Ret a, st') => k a st'
    | (Stop s, st') => (Stop s, st')
    end.

Declare Scope method_scope.
Delimit Scope method_scope with method.
Notation "x <- m ;; k" := (bind m (fun x => k))
  (at level 100, m at next level, right associativity) : method_scope.
Notation "m ;;; k" := (bind m (fun _ => k))
  (at level 100, right associativity) : method_scope.

(** [n] calls of a [read_bit] method in sequence, collecting the bits. *)
Fixpoint read_bits {S} (read_bit : M S bool) (n : nat) : M S (list bool) :=
  match n with
  | O => ret []
  | S n' => (b <- read_bit ;; bs <- read_bits read_bit n' ;; ret (b :: bs))%method
  end.

(** ** Helpers of the anonymous namespace *)

(** The loop of [maybe_consume_keyword]; [rest] is [keyword] from index [i]
    on.  The index is incremented by the comparison whether or not it
    succeeds. *)
Fixpoint consume_keyword_loop (rest : list Z) (i next : Z) (f : FILE)
  : Z * Z * FILE :=
  match rest with
  | [] => (i, next, f)
  | c :: rest' =>
      if next =? c
      then let (next', f') := getc f in consume_keyword_loop rest' (i + 1) next' f'
      else (i + 1, next, f)
  end.

(** Result: the returned [bool], [next], and the stream. *)
Definition maybe_consume_keyword (f : FILE) (keyword : list Z)
  : outcome bool * Z * FILE :=
  let (next, f1) := getc f in
  if next =? EOF then (Ret false, next, f1)
  else
    let '(i, next', f2) := consume_keyword_loop keyword 0 next f1 in
    if negb (i =? Z.of_nat (List.length keyword))
    then (Throw (runtime_error KeywordNotFound), next', f2)
    else (Ret true, next', f2).

(** The digit loop of [read_unsigned_int].  Each turn that finds more input
    takes it with [getc]; on an exhausted stream [getc] yields [EOF], which
    is not a digit, and the loop ends.  [None]: the value left the range of
    [long]. *)
Fixpoint read_digits (value next : Z) (f : FILE) : option (Z * Z * FILE) :=
  if isdigit next then
    let value' := value * 10 + (next - char_0) in
    if value' >? LONG_MAX then None
    else match f with
         | [] => Some (value', EOF, [])
         | b :: f' => read_digits value' (byte_val b) f'
         end
  else Some (value, next, f).

(** Result: the returned [bool], [value], [next], and the stream. *)
Definition read_unsigned_int (f : FILE) (value : Z)
  : outcome bool * Z * Z * FILE :=
  let (next, f1) := getc f in
  if negb (isdigit next) then (Ret false, value, next, f1)
  else match read_digits 0 next f1 with
       | Some (v, next', f2) => (Ret true, v, next', f2)
       | None => (Stop UndefinedBehaviour, value, next, f1)
       end.

Definition keyword_shot : list Z :=
  Eval cbv in map chr ["s"; "h"; "o"; "t"]%char.

(** ** The base class *)

Module MeasureRecordReader.

(** The cursor ([position] in the methods of the base class) and the
    declared record length. *)
Record t : Type := mk { position : Z; bits_per_record : Z }.

(** [MeasureRecordReader::MeasureRecordReader(size_t)]. *)
Definition ctor (bits_per_record_ : Z) : outcome t :=
  if bits_per_record_ >? SSIZE_MAX
  then Throw (invalid_argument RecordTooBig)
  else Ret (mk 0 bits_per_record_).

Section Virtual.
(** The object of a derived class, its base-class part, and the two
    virtual methods the base class calls. *)
Context {S : Type}.
Variable base : S -> t.
Variable with_base : t -> S -> S.
Variable read_bit : M S bool.
Variable is_end_of_record : M S bool.

(** The loop over [k] of [read_bytes], with [todo] turns left.  The
    [bool] of the result tells whether the method returned from inside
    the loop. *)
Fixpoint read_bytes_bits (todo : nat) (k b n : Z) (st : S)
  : outcome (bool * Z) * Z * S :=
  match todo with
  | O => (Ret (false, n), b, st)
  | Datatypes.S todo' =>
      match read_bit st with
      | (Ret bit, st1) =>
          let b1 := Z.lor b (Z.shiftl (Z.b2z bit) k) in
          let n1 := size_add n 1 in
          match is_end_of_record st1 with
          | (Ret true, st2) => (Ret (true, n1), b1, st2)
          | (Ret false, st2) => read_bytes_bits todo' (k + 1) b1 n1 st2
          | (Stop s, st2) => (Stop s, b1, st2)
          end
      | (Stop s, st1) => (Stop s, b, st1)
      end
  end.

(** The loop over the bytes of [data]. *)
Fixpoint read_bytes_loop (data : list Z) (n : Z) (st : S)
  : outcome Z * list Z * S :=
  match data with
  | [] => (Ret n, [], st)
  | _ :: data' =>
      match read_bytes_bits 8 0 0 n st with
      | (Ret (true, n1), b, st1) => (Ret n1, b :: data', st1)
      | (Ret (false, n1), b, st1) =>
          let '(r, d, st2) := read_bytes_loop data' n1 st1 in
          (r, b :: d, st2)
      | (Stop s, b, st1) => (Stop s, b :: data', st1)
      end
  end.

(** [MeasureRecordReader::read_bytes]: the outcome, the buffer and the
    object afterwards. *)
Definition read_bytes (data : list Z) (st : S) : outcome Z * list Z * S :=
  if position (base st) >=? bits_per_record (base st)
  then (Ret 0, data, st)
  else read_bytes_loop data 0 st.

(** [MeasureRecordReader::next_record]. *)
Definition next_record : M S bool :=
  fun st => (Ret false, with_base (mk 0 (bits_per_record (base st))) st).

(** [MeasureRecordReader::is_end_of_record]. *)
Definition base_is_end_of_record : M S bool :=
  fun st => (Ret (position (base st) >=? bits_per_record (base st)), st).

(** [MeasureRecordReader::current_result_type]. *)
Definition current_result_type (st : S) : Z := char_M.
End Virtual.

End MeasureRecordReader.

(** ** 01 format *)

Module Format01.

Record t : Type :=
  mk { base : MeasureRecordReader.t; in_ : FILE; payload : Z }.

Definition with_base (b : MeasureRecordReader.t) (st : t) : t :=
  mk b (in_ st) (payload st).

Definition position (st : t) : Z := MeasureRecordReader.position (base st).
Definition bits_per_record (st : t) : Z :=
  MeasureRecordReader.bits_per_record (base st).

Definition ctor (f : FILE) (bits : Z) : outcome t :=
  match MeasureRecordReader.ctor bits with
  | Ret b => let (c, f1) := getc f in Ret (mk b f1 c)
  | Stop s => Stop s
  end.

Definition read_bit : M t bool := fun st =>
  if payload st =? EOF then (Throw PastEndOfFile, st)
  else if (payload st =? char_nl) || (position st >=? bits_per_record st)
  then (Throw PastEndOfRecord, st)
  else if negb (payload st =? char_0) && negb (payload st =? char_1)
  then (Throw (runtime_error Expected01), st)
  else
    let bit := payload st =? char_1 in
    let (c, f1) := getc (in_ st) in
    (Ret bit,
     mk (MeasureRecordReader.mk (size_add (position st) 1) (bits_per_record st))
        f1 c).

(** The [while] loop of [next_record]: cursor, payload and stream at its
    exit.  A turn on an exhausted stream stores [EOF], which ends the
    loop. *)
Fixpoint skip_loop (bits pos pay : Z) (f : FILE) : Z * Z * FILE :=
  if negb (pay =? EOF) && negb (pay =? char_nl) then
    let pos1 := size_add pos 1 in
    if pos1 <? bits then
      match f with
      | [] => (pos1, EOF, [])
      | b :: f' => skip_loop bits pos1 (byte_val b) f'
      end
    else (pos1, pay, f)
  else (pos, pay, f).

Definition next_record : M t bool := fun st =>
  let '(pos, pay, f) :=
    skip_loop (bits_per_record st) (position st) (payload st) (in_ st) in
  if pos >? bits_per_record st
  then (Throw (runtime_error RecordTooLong),
        mk (MeasureRecordReader.mk pos (bits_per_record st)) f pay)
  else
    let (c, f1) := getc f in
    (Ret (negb (c =? EOF)),
     mk (MeasureRecordReader.mk 0 (bits_per_record st)) f1 c).

Definition is_end_of_record : M t bool := fun st =>
  (Ret ((payload st =? EOF) || (payload st =? char_nl)
        || (position st >=? bits_per_record st)), st).

(** Inherited. *)
Definition read_bytes : list Z -> t -> outcome Z * list Z * t :=
  MeasureRecordReader.read_bytes base read_bit is_end_of_record.
Definition current_result_type : t -> Z :=
  MeasureRecordReader.current_result_type.

End Format01.

(** ** B8 format *)

Module FormatB8.

Record t : Type :=
  mk { base : MeasureRecordReader.t; in_ : FILE;
       payload : Z; bits_available : Z }.

Definition with_base (b : MeasureRecordReader.t) (st : t) : t :=
  mk b (in_ st) (payload st) (bits_available st).

Definition position (st : t) : Z := MeasureRecordReader.position (base st).
Definition bits_per_record (st : t) : Z :=
  MeasureRecordReader.bits_per_record (base st).

Definition ctor (f : FILE) (bits : Z) : outcome t :=
  match MeasureRecordReader.ctor bits with
  | Ret b => Ret (mk b f 0 0)
  | Stop s => Stop s
  end.

Definition maybe_update_payload (st : t) : t :=
  if bits_available st >? 0 then st
  else
    let (c, f1) := getc (in_ st) in
    mk (base st) f1 c (if negb (c =? EOF) then 8 else bits_available st).

Definition read_bit : M t bool := fun st =>
  if position st >=? bits_per_record st then (Throw PastEndOfRecord, st)
  else
    let st1 := maybe_update_payload st in
    if payload st1 =? EOF then (Throw PastEndOfFile, st1)
    else
      (Ret (Z.odd (payload st1)),
       mk (MeasureRecordReader.mk (size_add (position st1) 1)
                                  (bits_per_record st1))
          (in_ st1) (Z.shiftr (payload st1) 1)
          ((bits_available st1 - 1) mod 256)).

Definition is_end_of_record : M t bool := fun st =>
  let st1 := maybe_update_payload st in
  (Ret (((bits_available st1 =? 0) && (payload st1 =? EOF))
        || (position st1 >=? bits_per_record st1)), st1).

(** The generic path of the base class, run on this reader. *)
Definition generic_read_bytes : list Z -> t -> outcome Z * list Z * t :=
  MeasureRecordReader.read_bytes base read_bit is_end_of_record.

Definition read_bytes (data : list Z) (st : t) : outcome Z * list Z * t :=
  if position st >=? bits_per_record st then (Ret 0, data, st)
  else if bits_available st >? 0 then generic_read_bytes data st
  else
    let n_bits := Z.min (size_mul 8 (Z.of_nat (List.length data)))
                        (size_sub (bits_per_record st) (position st)) in
    let n_bytes := size_add n_bits 7 / 8 in
    let '(got, data1, f1) := fread data (Z.to_nat n_bytes) (in_ st) in
    let n_bits1 := Z.min (size_mul 8 got) n_bits in
    (Ret n_bits1, data1,
     mk (MeasureRecordReader.mk (size_add (position st) n_bits1)
                                (bits_per_record st))
        f1 (payload st) (bits_available st)).

Definition next_record : M t bool :=
  MeasureRecordReader.next_record base with_base.
Definition current_result_type : t -> Z :=
  MeasureRecordReader.current_result_type.

End FormatB8.

(** ** Hits format *)

Module FormatHits.

(** [position] is the cursor of the reader, a [long] as this class
    declares it; of [base] the class uses [bits_per_record]. *)
Record t : Type :=
  mk { base : MeasureRecordReader.t; in_ : FILE;
       separator : Z; next_hit : Z; position : Z }.

Definition with_base (b : MeasureRecordReader.t) (st : t) : t :=
  mk b (in_ st) (separator st) (next_hit st) (position st).

Definition bits_per_record (st : t) : Z :=
  MeasureRecordReader.bits_per_record (base st).

Definition update_next_hit : M t unit := fun st =>
  let '(r, v, sep, f) := read_unsigned_int (in_ st) (next_hit st) in
  let st1 := mk (base st) f sep v (position st) in
  match r with
  | Stop s => (Stop s, st1)
  | Ret false =>
      if negb (sep =? char_nl) && negb (sep =? EOF)
      then (Throw (runtime_error UnexpectedCharacter), st1)
      else (Ret tt, st1)
  | Ret true =>
      if negb (sep =? char_comma) && negb (sep =? char_nl)
      then (Throw (runtime_error InvalidSeparator), st1)
      else if v <? position st
      then (Throw (runtime_error HitInPast), st1)
      else if to_size_t v >=? bits_per_record st
      then (Throw (runtime_error HitOutsideRecord), st1)
      else (Ret tt, st1)
  end.

(** [separator] has no initialiser; the constructor's call of
    [update_next_hit] assigns it before it is read. *)
Definition ctor (f : FILE) (bits : Z) : outcome t :=
  match MeasureRecordReader.ctor bits with
  | Ret b =>
      match update_next_hit (mk b f 0 (-1) 0) with
      | (Ret _, st) => Ret st
      | (Stop s, _) => Stop s
      end
  | Stop s => Stop s
  end.

(** [return next_hit == position++;] *)
Definition compare_and_advance : M t bool := fun st =>
  if position st + 1 >? LONG_MAX then (Stop UndefinedBehaviour, st)
  else
    (Ret (next_hit st =? position st),
     mk (base st) (in_ st) (separator st) (next_hit st) (position st + 1)).

Definition read_bit : M t bool := fun st =>
  if to_size_t (position st) >=? bits_per_record st
  then (Throw PastEndOfRecord, st)
  else
    if (position st >? next_hit st) && (separator st =? char_comma)
    then (update_next_hit ;;; compare_and_advance)%method st
    else compare_and_advance st.

(** [while (separator == ',') update_next_hit();] with [fuel] turns left.
    Every turn takes at least one byte or meets the end of the stream, so
    [S (length in_)] turns are enough. *)
Fixpoint drain (fuel : nat) : M t unit := fun st =>
  match fuel with
  | O => (Ret tt, st)
  | S fuel' =>
      if separator st =? char_comma
      then (update_next_hit ;;; drain fuel')%method st
      else (Ret tt, st)
  end.

Definition next_record : M t bool := fun st =>
  match drain (S (List.length (in_ st))) st with
  | (Ret _, st1) =>
      match update_next_hit
              (mk (base st1) (in_ st1) (separator st1) (-1) 0) with
      | (Ret _, st2) => (Ret (negb (separator st2 =? EOF)), st2)
      | (Stop s, st2) => (Stop s, st2)
      end
  | (Stop s, st1) => (Stop s, st1)
  end.

(** Modelled from the spec: the declaration of the cursor [position] that
    the methods of the base class test is not under src/.  The
    specification gives a reader one cursor, the count of bits already
    yielded for the current record; for this class that is [position].
    [as_base] is the base-class part as the inherited methods see it. *)
Definition as_base (st : t) : MeasureRecordReader.t :=
  MeasureRecordReader.mk (to_size_t (position st)) (bits_per_record st).

(** Inherited. *)
Definition is_end_of_record : M t bool :=
  MeasureRecordReader.base_is_end_of_record as_base.
Definition read_bytes : list Z -> t -> outcome Z * list Z * t :=
  MeasureRecordReader.read_bytes as_base read_bit is_end_of_record.
Definition current_result_type : t -> Z :=
  MeasureRecordReader.current_result_type.

End FormatHits.

(** ** R8 format *)

Module FormatR8.

Record t : Type :=
  mk { base : MeasureRecordReader.t; in_ : FILE;
       run_length_0s : Z; run_length_1s : Z;
       generated_0s : Z; generated_1s : Z }.

Definition with_base (b : MeasureRecordReader.t) (st : t) : t :=
  mk b (in_ st) (run_length_0s st) (run_length_1s st)
     (generated_0s st) (generated_1s st).

Definition position (st : t) : Z := MeasureRecordReader.position (base st).
Definition bits_per_record (st : t) : Z :=
  MeasureRecordReader.bits_per_record (base st).

Definition advance (d0 d1 dpos : Z) (st : t) : t :=
  mk (MeasureRecordReader.mk (size_add (position st) dpos) (bits_per_record st))
     (in_ st) (run_length_0s st) (run_length_1s st)
     (size_add (generated_0s st) d0) (size_add (generated_1s st) d1).

(** [while (r == 0xFF) { run_length_0s += 0xFF; r = getc(in); }] *)
Fixpoint run_loop (run r : Z) (f : FILE) : Z * Z * FILE :=
  if r =? 255 then
    match f with
    | [] => (size_add run 255, EOF, [])
    | b :: f' => run_loop (size_add run 255) (byte_val b) f'
    end
  else (run, r, f).

Definition update_run_length : M t bool := fun st =>
  let (r, f1) := getc (in_ st) in
  if r =? EOF
  then (Ret false,
        mk (base st) f1 (run_length_0s st) (run_length_1s st)
           (generated_0s st) (generated_1s st))
  else
    let '(run, r', f2) := run_loop 0 r f1 in
    let run' := if r' >? 0 then size_add run r' else run in
    (Ret true, mk (base st) f2 run' 1 0 0).

Definition ctor (f : FILE) (bits : Z) : outcome t :=
  match MeasureRecordReader.ctor bits with
  | Ret b =>
      let (_, st) := update_run_length (mk b f 0 0 0 1) in
      Ret (mk (base st) (in_ st) (run_length_0s st) 0
              (generated_0s st) (generated_1s st))
  | Stop s => Stop s
  end.

Definition read_bit : M t bool := fun st =>
  if position st >=? bits_per_record st then (Throw PastEndOfRecord, st)
  else if generated_1s st <? run_length_1s st
  then (Ret true, advance 0 1 1 st)
  else if generated_0s st <? run_length_0s st
  then (Ret false, advance 1 0 1 st)
  else
    match update_run_length st with
    | (Ret false, st1) => (Throw PastEndOfFile, st1)
    | (Ret true, st1) => (Ret true, advance 0 1 1 st1)
    | (Stop s, st1) => (Stop s, st1)
    end.

Definition is_end_of_record : M t bool := fun st =>
  if position st >=? bits_per_record st then (Ret true, st)
  else if generated_0s st <? run_length_0s st then (Ret false, st)
  else if generated_1s st <? run_length_1s st then (Ret false, st)
  else
    match update_run_length st with
    | (Ret b, st1) => (Ret (negb b), st1)
    | (Stop s, st1) => (Stop s, st1)
    end.

(** The generic path of the base class, run on this reader. *)
Definition generic_read_bytes : list Z -> t -> outcome Z * list Z * t :=
  MeasureRecordReader.read_bytes base read_bit is_end_of_record.

(** The loop over [k] of the overriding [read_bytes]. *)
Fixpoint read_bytes_bits (todo : nat) (k b n : Z) (st : t)
  : outcome (bool * Z) * Z * t :=
  match todo with
  | O => (Ret (false, n), b, st)
  | S todo' =>
      match is_end_of_record st with
      | (Ret true, st1) => (Ret (true, n), b, st1)
      | (Ret false, st1) =>
          match read_bit st1 with
          | (Ret bit, st2) =>
              read_bytes_bits todo' (k + 1)
                (Z.lor b (Z.shiftl (Z.b2z bit) k)) (size_add n 1) st2
          | (Stop s, st2) => (Stop s, b, st2)
          end
      | (Stop s, st1) => (Stop s, b, st1)
      end
  end.

Fixpoint read_bytes_loop (data : list Z) (n : Z) (st : t)
  : outcome Z * list Z * t :=
  match data with
  | [] => (Ret n, [], st)
  | _ :: data' =>
      if (run_length_0s st >=? size_add (generated_0s st) 8)
         && (bits_per_record st >=? size_add (position st) 8)
      then
        let '(r, d, st1) :=
          read_bytes_loop data' (size_add n 8) (advance 8 0 8 st) in
        (r, 0 :: d, st1)
      else
        match read_bytes_bits 8 0 0 n st with
        | (Ret (true, n1), b, st1) => (Ret n1, b :: data', st1)
        | (Ret (false, n1), b, st1) =>
            let '(r, d, st2) := read_bytes_loop data' n1 st1 in
            (r, b :: d, st2)
        | (Stop s, b, st1) => (Stop s, b :: data', st1)
        end
  end.

Definition read_bytes (data : list Z) (st : t) : outcome Z * list Z * t :=
  if position st >=? bits_per_record st then (Ret 0, data, st)
  else read_bytes_loop data 0 st.

Definition next_record : M t bool :=
  MeasureRecordReader.next_record base with_base.
Definition current_result_type : t -> Z :=
  MeasureRecordReader.current_result_type.

End FormatR8.

(** ** DETS format *)

Module FormatDets.

(** [position] is the cursor of the reader, a [long] as this class
    declares it; of [base] the class uses [bits_per_record]. *)
Record t : Type :=
  mk { base : MeasureRecordReader.t; in_ : FILE;
       result_type : Z; separator : Z; next_shot : Z; position : Z }.

Definition with_base (b : MeasureRecordReader.t) (st : t) : t :=
  mk b (in_ st) (result_type st) (separator st) (next_shot st) (position st).

Definition bits_per_record (st : t) : Z :=
  MeasureRecordReader.bits_per_record (base st).

Definition update_next_shot : M t unit := fun st =>
  (* Read and validate result type. *)
  let (c, f1) := getc (in_ st) in
  let next_result_type := to_char c in
  if next_result_type =? EOF
  then (Ret tt,
        mk (base st) f1 (result_type st) EOF (next_shot st) (position st))
  else
    let st1 := mk (base st) f1 (result_type st) (separator st)
                  (next_shot st) (position st) in
    if negb (next_result_type =? char_M) && negb (next_result_type =? char_D)
       && negb (next_result_type =? char_L)
    then (Throw (runtime_error UnknownResultType), st1)
    else
      (* Read and validate shot number and separator. *)
      let '(r, v, sep, f2) := read_unsigned_int f1 (next_shot st) in
      let st2 := mk (base st) f2 (result_type st) sep v (position st) in
      match r with
      | Stop s => (Stop s, st2)
      | Ret false => (Throw (runtime_error FailedToParse), st2)
      | Ret true =>
          if negb (sep =? char_space) && negb (sep =? char_nl)
          then (Throw (runtime_error UnexpectedSeparator), st2)
          else
            let changed := negb (next_result_type =? result_type st) in
            let v1 := if changed then v + position st else v in
            let st3 := mk (base st) f2
                          (if changed then next_result_type else result_type st)
                          sep v1 (position st) in
            if changed && ((v1 >? LONG_MAX) || (v1 <? - LONG_MAX - 1))
            then (Stop UndefinedBehaviour, st2)
            else if v1 <? position st
            then (Throw (runtime_error ShotInPast), st3)
            else if to_size_t v1 >=? bits_per_record st
            then (Throw (runtime_error ShotOutsideRecord), st3)
            else (Ret tt, st3)
      end.

(** The counts of detection events and logical observables are accepted
    and not used. *)
Definition ctor (f : FILE) (n_measurements n_detection_events
                            n_logical_observables : Z) : outcome t :=
  match MeasureRecordReader.ctor n_measurements with
  | Ret b =>
      let '(r, sep, f1) := maybe_consume_keyword f keyword_shot in
      match r with
      | Ret true =>
          match update_next_shot (mk b f1 char_M sep (-1) 0) with
          | (Ret _, st) => Ret st
          | (Stop s, _) => Stop s
          end
      | Ret false => Throw (runtime_error NeedShot)
      | Stop s => Stop s
      end
  | Stop s => Stop s
  end.

(** [return next_shot == position++;] *)
Definition compare_and_advance : M t bool := fun st =>
  if position st + 1 >? LONG_MAX then (Stop UndefinedBehaviour, st)
  else
    (Ret (next_shot st =? position st),
     mk (base st) (in_ st) (result_type st) (separator st) (next_shot st)
        (position st + 1)).

Definition read_bit : M t bool := fun st =>
  if to_size_t (position st) >=? bits_per_record st
  then (Throw PastEndOfRecord, st)
  else
    if (position st >? next_shot st) && (separator st =? char_space)
    then (update_next_shot ;;; compare_and_advance)%method st
    else compare_and_advance st.

(** [while (separator == ' ') update_next_shot();] with [fuel] turns left;
    [S (length in_)] turns are enough. *)
Fixpoint drain (fuel : nat) : M t unit := fun st =>
  match fuel with
  | O => (Ret tt, st)
  | S fuel' =>
      if separator st =? char_space
      then (update_next_shot ;;; drain fuel')%method st
      else (Ret tt, st)
  end.

Definition next_record : M t bool := fun st =>
  match drain (S (List.length (in_ st))) st with
  | (Ret _, st1) =>
      let '(r, sep, f1) := maybe_consume_keyword (in_ st1) keyword_shot in
      let st2 := mk (base st1) f1 (result_type st1) sep
                    (next_shot st1) (position st1) in
      match r with
      | Ret true =>
          match update_next_shot
                  (mk (base st2) f1 (result_type st2) sep (-1) 0) with
          | (Ret _, st3) => (Ret true, st3)
          | (Stop s, st3) => (Stop s, st3)
          end
      | Ret false => (Ret false, st2)
      | Stop s => (Stop s, st2)
      end
  | (Stop s, st1) => (Stop s, st1)
  end.

Definition current_result_type (st : t) : Z := result_type st.

(** Modelled from the spec: the declaration of the cursor [position] that
    the methods of the base class test is not under src/.  The
    specification gives a reader one cursor, the count of bits already
    yielded for the current record; for this class that is [position].
    [as_base] is the base-class part as the inherited methods see it. *)
Definition as_base (st : t) : MeasureRecordReader.t :=
  MeasureRecordReader.mk (to_size_t (position st)) (bits_per_record st).

(** Inherited. *)
Definition is_end_of_record : M t bool :=
  MeasureRecordReader.base_is_end_of_record as_base.
Definition read_bytes : list Z -> t -> outcome Z * list Z * t :=
  MeasureRecordReader.read_bytes as_base read_bit is_end_of_record.

End FormatDets.

(** ** The factory *)

(** The values of [SampleFormat] that the [switch] of [make] names, and one
    more for any value it leaves to [default]. *)
Inductive SampleFormat : Type :=
  | SAMPLE_FORMAT_01
  | SAMPLE_FORMAT_B8
  | SAMPLE_FORMAT_DETS
  | SAMPLE_FORMAT_HITS
  | SAMPLE_FORMAT_PTB64
  | SAMPLE_FORMAT_R8
  | SAMPLE_FORMAT_unlisted.

Definition is_dets (f : SampleFormat) : bool :=
  match f with SAMPLE_FORMAT_DETS => true | _ => false end.

(** What the [unique_ptr<MeasureRecordReader>] points to. *)
Inductive reader : Type :=
  | Reader01 (r : Format01.t)
  | ReaderB8 (r : FormatB8.t)
  | ReaderDets (r : FormatDets.t)
  | ReaderHits (r : FormatHits.t)
  | ReaderR8 (r : FormatR8.t).

Definition new_ {S} (inj : S -> reader) (o : outcome S) : outcome reader :=
  match o with
  | Ret st => Ret (inj st)
  | Stop s => Stop s
  end.

Definition make (f : FILE) (input_format : SampleFormat)
    (n_measurements n_detection_events n_logical_observables : Z)
  : outcome reader :=
  if negb (is_dets input_format) && negb (n_detection_events =? 0)
  then Throw (invalid_argument DetsOnlyDetectionEvents)
  else if negb (is_dets input_format) && negb (n_logical_observables =? 0)
  then Throw (invalid_argument DetsOnlyLogicalObservables)
  else
    match input_format with
    | SAMPLE_FORMAT_01 => new_ Reader01 (Format01.ctor f n_measurements)
    | SAMPLE_FORMAT_B8 => new_ ReaderB8 (FormatB8.ctor f n_measurements)
    | SAMPLE_FORMAT_DETS =>
        new_ ReaderDets (FormatDets.ctor f n_measurements n_detection_events
                                         n_logical_observables)
    | SAMPLE_FORMAT_HITS => new_ ReaderHits (FormatHits.ctor f n_measurements)
    | SAMPLE_FORMAT_PTB64 => Throw (invalid_argument Ptb64Incompatible)
    | SAMPLE_FORMAT_R8 => new_ ReaderR8 (FormatR8.ctor f n_measurements)
    | SAMPLE_FORMAT_unlisted => Throw (invalid_argument FormatNotRecognized)
    end.

(** Virtual dispatch on the reader behind the pointer. *)
Definition dispatch {S A} (inj : S -> reader) (m : M S A) (st : S)
  : outcome A * reader :=
  let (r, st') := m st in (r, inj st').

Definition read_bit : M reader bool := fun r =>
  match r with
  | Reader01 st => dispatch Reader01 Format01.read_bit st
  | ReaderB8 st => dispatch ReaderB8 FormatB8.read_bit st
  | ReaderDets st => dispatch ReaderDets FormatDets.read_bit st
  | ReaderHits st => dispatch ReaderHits FormatHits.read_bit st
  | ReaderR8 st => dispatch ReaderR8 FormatR8.read_bit st
  end.

Definition is_end_of_record : M reader bool := fun r =>
  match r with
  | Reader01 st => dispatch Reader01 Format01.is_end_of_record st
  | ReaderB8 st => dispatch ReaderB8 FormatB8.is_end_of_record st
  | ReaderDets st => dispatch ReaderDets FormatDets.is_end_of_record st
  | ReaderHits st => dispatch ReaderHits FormatHits.is_end_of_record st
  | ReaderR8 st => dispatch ReaderR8 FormatR8.is_end_of_record st
  end.

Definition next_record : M reader bool := fun r =>
  match r with
  | Reader01 st => dispatch Reader01 Format01.next_record st
  | ReaderB8 st => dispatch ReaderB8 FormatB8.next_record st
  | ReaderDets st => dispatch ReaderDets FormatDets.next_record st
  | ReaderHits st => dispatch ReaderHits FormatHits.next_record st
  | ReaderR8 st => dispatch ReaderR8 FormatR8.next_record st
  end.

Definition dispatch_bytes {S} (inj : S -> reader)
    (m : list Z -> S -> outcome Z * list Z * S) (data : list Z) (st : S)
  : outcome Z * list Z * reader :=
  let '(r, d, st') := m data st in (r, d, inj st').

Definition read_bytes (data : list Z) (r : reader)
  : outcome Z * list Z * reader :=
  match r with
  | Reader01 st => dispatch_bytes Reader01 Format01.read_bytes data st
  | ReaderB8 st => dispatch_bytes ReaderB8 FormatB8.read_bytes data st
  | ReaderDets st => dispatch_bytes ReaderDets FormatDets.read_bytes data st
  | ReaderHits st => dispatch_bytes ReaderHits FormatHits.read_bytes data st
  | ReaderR8 st => dispatch_bytes ReaderR8 FormatR8.read_bytes data st
  end.

(** [MeasureRecordReader::read_bytes], the bit-by-bit path, called on the
    reader whatever its variant overrides. *)
Definition generic_read_bytes (data : list Z) (r : reader)
  : outcome Z * list Z * reader :=
  match r with
  | ReaderB8 st => dispatch_bytes ReaderB8 FormatB8.generic_read_bytes data st
  | ReaderR8 st => dispatch_bytes ReaderR8 FormatR8.generic_read_bytes data st
  | _ => read_bytes data r
  end.

Definition bits_per_record (r : reader) : Z :=
  match r with
  | Reader01 st => Format01.bits_per_record st
  | ReaderB8 st => FormatB8.bits_per_record st
  | ReaderDets st => FormatDets.bits_per_record st
  | ReaderHits st => FormatHits.bits_per_record st
  | ReaderR8 st => FormatR8.bits_per_record st
  end.

(** * Rare-event iterator (src/probability_util.cc) *)

Module RareErrorIterator.

(** The fields [next_candidate] and [is_one].  The third field, the
    geometric distribution [dist], is the function [dist] below. *)
Record t : Type := mk { next_candidate : Z; is_one : bool }.

Section Rng.
(** The generator, and a draw [dist(rng)]: the value drawn, a [size_t],
    and the generator afterwards. *)
Context {rng : Type}.
Variable dist : rng -> Z * rng.

(** [RareErrorIterator::next]. *)
Definition next (it : t) (g : rng) : Z * t * rng :=
  let (gap, g') := if is_one it then (0, g) else dist g in
  let result := size_add (next_candidate it) gap in
  (result, mk (size_add result 1) (is_one it), g').

End Rng.

End RareErrorIterator.

(** * Vocabulary of the properties *)


(** The format a reader decodes. *)
Definition format_of (r : reader) : SampleFormat :=
  match r with
  | Reader01 _ => SAMPLE_FORMAT_01
  | ReaderB8 _ => SAMPLE_FORMAT_B8
  | ReaderDets _ => SAMPLE_FORMAT_DETS
  | ReaderHits _ => SAMPLE_FORMAT_HITS
  | ReaderR8 _ => SAMPLE_FORMAT_R8
  end.

Definition is_digit_byte (b : byte) : bool := isdigit (byte_val b).

(** The value of a run of decimal digits read after [acc]. *)
Fixpoint decimal (acc : Z) (ds : list byte) : Z :=
  match ds with
  | [] => acc
  | d :: ds' => decimal (acc * 10 + (byte_val d - char_0)) ds'
  end.

Definition byte_comma : byte := Eval cbv in byte_of_ascii ",".

Definition byte_nl : byte := Eval cbv in byte_of_ascii "010".

Definition byte_space : byte := Eval cbv in byte_of_ascii " ".

Definition byte_M : byte := Eval cbv in byte_of_ascii "M".

Definition byte_D : byte := Eval cbv in byte_of_ascii "D".

Definition byte_L : byte := Eval cbv in byte_of_ascii "L".

(** A numeral: digits, at least one, whose value fits a [long]. *)
Definition numeral (ds : list byte) : Prop :=
  ds <> [] /\ forallb is_digit_byte ds = true /\ decimal 0 ds <= LONG_MAX.

(** The bytes of the keyword that opens a DETS record. *)
Definition shot_bytes : list byte := Eval cbv in stream_of "shot".



Definition record_char (c : Z) : Prop := c <> EOF /\ c <> char_nl.

(** The bytes of a stream before its first newline. *)
Fixpoint upto_newline (f : FILE) : list byte :=
  match f with
  | [] => []
  | b :: f' => if byte_val b =? char_nl then [] else b :: upto_newline f'
  end.

(** The number of bytes that the loop of [next_record] of the 01 format
    takes off the stream [f] when it is entered on a character of the
    record with [room] positions of the record left: it takes the bytes up
    to the first newline and the newline, one more than the stream holds if
    there is no newline, and never more than [room - 1]. *)
Definition skipped (room : Z) (f : FILE) : nat :=
  Nat.min (Z.to_nat (room - 1)) (S (length (upto_newline f))).

(** The cursor of a reader. *)
Definition cursor (r : reader) : Z :=
  match r with
  | Reader01 st => Format01.position st
  | ReaderB8 st => FormatB8.position st
  | ReaderDets st => FormatDets.position st
  | ReaderHits st => FormatHits.position st
  | ReaderR8 st => FormatR8.position st
  end.

(** A reader at the start of a record. *)
Definition fresh_record (r : reader) : Prop :=
  cursor r = 0 /\ 0 <= bits_per_record r <= SSIZE_MAX.

(** The bits [bits] laid out from bit [k] upwards, least significant first. *)
Fixpoint pack (k : Z) (bits : list bool) : Z :=
  match bits with
  | [] => 0
  | x :: xs => Z.lor (Z.shiftl (Z.b2z x) k) (pack (k + 1) xs)
  end.

(** Bit [i] of a buffer filled least significant bit first. *)
Definition bit_at (data : list Z) (i : nat) : bool :=
  Z.testbit (nth (i / 8) data 0) (Z.of_nat (i mod 8)).

(** The lowest [n] bits of [v], least significant first. *)
Fixpoint bits_of (n : nat) (v : Z) : list bool :=
  match n with
  | O => []
  | S n' => Z.odd v :: bits_of n' (Z.shiftr v 1)
  end.

Definition is_nil {A} (l : list A) : bool :=
  match l with [] => true | _ :: _ => false end.

Definition stream_bits (f : FILE) : list bool :=
  flat_map (fun b => bits_of 8 (byte_val b)) f.

(** The unread bits of the payload, then the bits of the bytes to come. *)
Definition B8_pending (st : FormatB8.t) : list bool :=
  bits_of (Z.to_nat (FormatB8.bits_available st)) (FormatB8.payload st)
  ++ stream_bits (FormatB8.in_ st).

Definition B8_inv (st : FormatB8.t) : Prop :=
  0 <= FormatB8.position st <= FormatB8.bits_per_record st /\
  FormatB8.bits_per_record st <= SSIZE_MAX /\
  0 <= FormatB8.bits_available st <= 8 /\
  (0 < FormatB8.bits_available st -> 0 <= FormatB8.payload st).

(** The run lengths a stream of R8 bytes describes.  A byte 0xFF adds 255
    to the run under construction and keeps it open ([acc] is its length so
    far); any other byte adds its value and closes the run.  A run left
    open by the end of the stream counts as it stands. *)
Fixpoint runs (open : bool) (acc : Z) (f : FILE) : list Z :=
  match f with
  | [] => if open then [acc] else []
  | b :: f' =>
      if byte_val b =? 255 then runs true (acc + 255) f'
      else (acc + byte_val b) :: runs false 0 f'
  end.

Definition descriptors (f : FILE) : list Z := runs false 0 f.

Definition zeros (n : Z) : list bool := repeat false (Z.to_nat n).

Definition ones (n : Z) : list bool := repeat true (Z.to_nat n).

(** A 1 in front of the zeros of every run. *)
Definition one_then_zeros (rs : list Z) : list bool :=
  flat_map (fun r => true :: zeros r) rs.

(** The zeros of the first run, then a 1 and the zeros of each later run. *)
Definition decoded (rs : list Z) : list bool :=
  match rs with
  | [] => []
  | r0 :: rs' => zeros r0 ++ one_then_zeros rs'
  end.

(** The 1s and 0s left of the current run, then a 1 and the zeros of every
    descriptor still in the stream. *)
Definition R8_pending (st : FormatR8.t) : list bool :=
  ones (FormatR8.run_length_1s st - FormatR8.generated_1s st)
  ++ zeros (FormatR8.run_length_0s st - FormatR8.generated_0s st)
  ++ one_then_zeros (descriptors (FormatR8.in_ st)).

Definition R8_inv (st : FormatR8.t) : Prop :=
  0 <= FormatR8.position st <= FormatR8.bits_per_record st /\
  FormatR8.bits_per_record st <= SSIZE_MAX /\
  0 <= FormatR8.generated_0s st <= SSIZE_MAX /\
  0 <= FormatR8.generated_1s st <= SSIZE_MAX /\
  FormatR8.run_length_0s st <= SSIZE_MAX /\
  FormatR8.run_length_1s st <= 1 /\
  255 * Z.of_nat (length (FormatR8.in_ st)) <= SSIZE_MAX.

(** No 1 of the current run is waiting to be handed out. *)
Definition R8_quiet (st : FormatR8.t) : Prop :=
  FormatR8.run_length_1s st <= FormatR8.generated_1s st.

(** ** Vocabulary of the further properties *)

(** The digits a stream opens with, and the stream after them. *)
Fixpoint digits_prefix (f : FILE) : list byte :=
  match f with
  | b :: f' => if is_digit_byte b then b :: digits_prefix f' else []
  | [] => []
  end.

Fixpoint after_digits (f : FILE) : FILE :=
  match f with
  | b :: f' => if is_digit_byte b then after_digits f' else f
  | [] => []
  end.

(** The type tags of the DETS format. *)
Definition is_tag (c : Z) : bool :=
  (c =? char_M) || (c =? char_D) || (c =? char_L).

(** [n] calls of [read_bit] and one of [next_record] for each record
    length in [lens]: the bits of each record, and what [next_record]
    returned after it. *)
Fixpoint read_records {S} (read_bit next_record : M S bool) (lens : list nat)
  : M S (list (list bool * bool)) :=
  match lens with
  | [] => ret []
  | n :: lens' =>
      (bits <- read_bits read_bit n ;;
       more <- next_record ;;
       rest <- read_records read_bit next_record lens' ;;
       ret ((bits, more) :: rest))%method
  end.

(** Each record with [true], the last one with [false]. *)
Fixpoint with_more (records : list (list bool)) : list (list bool * bool) :=
  match records with
  | [] => []
  | r :: rs =>
      (r, negb (is_nil rs)) :: with_more rs
  end.

(** The bits of the current record that are still to come: what
    [read_bit] returns from the cursor to the record size. *)
Definition upcoming {S} (base : S -> MeasureRecordReader.t)
    (read_bit : M S bool) (st : S) : list bool :=
  match read_bits read_bit
          (Z.to_nat (MeasureRecordReader.bits_per_record (base st)
                     - MeasureRecordReader.position (base st))) st with
  | (Ret bits, _) => bits
  | (Stop _, _) => []
  end.

(** The text of a Hits record: its numerals separated by commas, then a
    newline. *)
Fixpoint hits_line (toks : list (list byte)) : FILE :=
  match toks with
  | [] => [byte_nl]
  | t :: ts =>
      t ++ match ts with
           | [] => [byte_nl]
           | _ :: _ => byte_comma :: hits_line ts
           end
  end.

(** Strictly ascending indices, none below [lo]. *)
Fixpoint ascending (lo : Z) (hs : list Z) : Prop :=
  match hs with
  | [] => True
  | h :: hs' => lo <= h /\ ascending (h + 1) hs'
  end.

(** [n] bits from position [p] on: a 1 exactly at the indices in [hs]. *)
Fixpoint hit_bits (n : nat) (p : Z) (hs : list Z) : list bool :=
  match n with
  | O => []
  | S n' => existsb (Z.eqb p) hs :: hit_bits n' (p + 1) hs
  end.

(** A Hits reader at position [p] that has parsed the index [cur] and has
    the numerals [later] of its line, and then [rest], still in the stream. *)
Definition hits_state (bits p cur : Z) (later : list (list byte)) (rest : FILE)
    (b : Z) : FormatHits.t :=
  FormatHits.mk (MeasureRecordReader.mk b bits)
    (match later with [] => rest | _ :: _ => hits_line later ++ rest end)
    (match later with [] => char_nl | _ :: _ => char_comma end) cur p.

(** The tokens of a record that are valid for a record of [bits] bits. *)
Definition hits_record (bits : Z) (toks : list (list byte)) : Prop :=
  Forall numeral toks /\
  ascending 0 (map (decimal 0) toks) /\
  Forall (fun h => h < bits) (map (decimal 0) toks).

(** What holds of the index parsed last and of the numerals still in the
    line, with the reader at position [p]. *)
Definition hits_ok (bits p cur : Z) (later : list (list byte)) : Prop :=
  Forall numeral later /\
  ascending (cur + 1) (map (decimal 0) later) /\
  Forall (fun h => h < bits) (map (decimal 0) later) /\
  (later <> [] -> p <= cur + 1).

(** The start of a line, as the constructor and [next_record] make it. *)
Definition hits_start (bits : Z) (toks : list (list byte)) (rest : FILE)
    (b : Z) : FormatHits.t :=
  match toks with
  | [] => hits_state bits 0 (-1) [] rest b
  | t :: ts => hits_state bits 0 (decimal 0 t) ts rest b
  end.

(** The states of a Hits reader inside a well-formed line. *)
Definition hits_good (st : FormatHits.t) : Prop :=
  exists bits p cur later rest b,
    st = hits_state bits p cur later rest b /\
    0 <= p <= bits /\ bits <= SSIZE_MAX /\ -1 <= cur < bits /\
    hits_ok bits p cur later.

(** The tokens of a DETS record, each a type tag and a numeral, separated
    by spaces and closed by a newline. *)
Fixpoint dets_tokens (toks : list (byte * list byte)) : FILE :=
  match toks with
  | [] => []
  | (tag, ds) :: ts =>
      tag :: ds ++ match ts with
                   | [] => [byte_nl]
                   | _ :: _ => byte_space :: dets_tokens ts
                   end
  end.

(** The text of a DETS record. *)
Definition dets_line (toks : list (byte * list byte)) : FILE :=
  shot_bytes ++ byte_space :: dets_tokens toks.

(** The indices the reader takes from the tokens that follow a token of
    type [ty] with index [prev]: the numeral itself when the type tag is
    the same, and the numeral counted from [prev + 1] when it changes. *)
Fixpoint resolve (ty prev : Z) (toks : list (byte * list byte)) : list Z :=
  match toks with
  | [] => []
  | (tag, ds) :: ts =>
      let a := if byte_val tag =? ty then decimal 0 ds
               else decimal 0 ds + (prev + 1) in
      a :: resolve (byte_val tag) a ts
  end.

(** The indices of a record, resolved from its start. *)
Definition dets_indices (toks : list (byte * list byte)) : list Z :=
  resolve char_M (-1) toks.

(** A DETS reader at position [p] whose last token had type [ty] and index
    [cur], with the tokens [later] of its line, and then [rest], still in
    the stream. *)
Definition dets_state (bits p ty cur : Z) (later : list (byte * list byte))
    (rest : FILE) (b : Z) : FormatDets.t :=
  FormatDets.mk (MeasureRecordReader.mk b bits)
    (match later with [] => rest | _ :: _ => dets_tokens later ++ rest end)
    ty (match later with [] => char_nl | _ :: _ => char_space end) cur p.

Definition dets_token (t : byte * list byte) : Prop :=
  is_tag (byte_val (fst t)) = true /\ numeral (snd t).

(** The tokens of a record that are valid for a record of [bits] bits: at
    least one, and with resolved indices that ascend and stay below
    [bits]. *)
Definition dets_record (bits : Z) (toks : list (byte * list byte)) : Prop :=
  toks <> [] /\ Forall dets_token toks /\
  ascending 0 (dets_indices toks) /\
  Forall (fun h => h < bits) (dets_indices toks).

(** What holds of the index parsed last and of the tokens still in the
    line, with the reader at position [p]. *)
Definition dets_ok (bits p ty cur : Z) (later : list (byte * list byte)) : Prop :=
  Forall dets_token later /\
  ascending (cur + 1) (resolve ty cur later) /\
  Forall (fun h => h < bits) (resolve ty cur later) /\
  (later <> [] -> p <= cur + 1).

(** The resolved indices with the type of their tokens. *)
Fixpoint tagged (ty prev : Z) (toks : list (byte * list byte)) : list (Z * Z) :=
  match toks with
  | [] => []
  | (tag, ds) :: ts =>
      let a := if byte_val tag =? ty then decimal 0 ds
               else decimal 0 ds + (prev + 1) in
      (a, byte_val tag) :: tagged (byte_val tag) a ts
  end.

(** The index and type parsed last, and the tokens still to parse, are a
    part of the resolved record [all]. *)
Definition dets_trace (all : list (Z * Z)) (ty cur : Z)
    (later : list (byte * list byte)) : Prop :=
  exists pre, all = pre ++ (cur, ty) :: tagged ty cur later.

(** The start of a record, as the constructor and [next_record] make it. *)
Definition dets_start (bits : Z) (toks : list (byte * list byte)) (rest : FILE)
    (b : Z) : FormatDets.t :=
  match toks with
  | [] => dets_state bits 0 char_M (-1) [] rest b
  | (tag, ds) :: ts =>
      dets_state bits 0 (byte_val tag) (decimal 0 ds) ts rest b
  end.

(** The states of a DETS reader inside a well-formed record. *)
Definition dets_good (st : FormatDets.t) : Prop :=
  exists bits p ty cur later rest b,
    st = dets_state bits p ty cur later rest b /\
    0 <= p <= bits /\ bits <= SSIZE_MAX /\ -1 <= cur < bits /\
    dets_ok bits p ty cur later.

(** The character of a bit in the 01 format, and the text of a record: its
    bits, then a newline. *)
Definition bit_byte (x : bool) : byte := if x then x31 else x30.

Definition text01 (bits : list bool) : FILE := map bit_byte bits ++ [byte_nl].

(** A 01 reader at position [p] that has [s] before it: the first byte of
    [s] in [payload], the others in the stream. *)
Definition state01 (bits p : Z) (s : FILE) : Format01.t :=
  Format01.mk (MeasureRecordReader.mk p bits) (snd (getc s)) (fst (getc s)).

(** The bits a stream opens with, up to the first byte that is neither '0'
    nor '1'. *)
Fixpoint line_bits (f : FILE) : list bool :=
  match f with
  | [] => []
  | b :: f' =>
      if byte_val b =? char_0 then false :: line_bits f'
      else if byte_val b =? char_1 then true :: line_bits f'
      else []
  end.

(** The bits of the current line that a 01 reader has not yet returned. *)
Definition pending01 (st : Format01.t) : list bool :=
  if Format01.payload st =? char_0 then false :: line_bits (Format01.in_ st)
  else if Format01.payload st =? char_1 then true :: line_bits (Format01.in_ st)
  else [].

(** A 01 reader inside a line of '0' and '1' that a newline or the end of
    the stream closes. *)
Definition inv01 (st : Format01.t) : Prop :=
  exists (xs : list bool) (tail : FILE),
    st = state01 (Format01.bits_per_record st) (Format01.position st)
                 (map bit_byte xs ++ tail) /\
    0 <= Format01.position st <= Format01.bits_per_record st /\
    Format01.bits_per_record st <= SSIZE_MAX /\
    (tail = [] \/ exists s, tail = byte_nl :: s).

(** * Properties *)

(** ** Arithmetic of the platform types *)

Lemma to_size_t_small (z : Z) : 0 <= z < SIZE_MODULUS -> to_size_t z = z.
Proof. intros H. unfold to_size_t. now apply Z.mod_small. Qed.

Lemma size_add_small (a b : Z) : 0 <= a + b < SIZE_MODULUS -> size_add a b = a + b.
Proof. apply to_size_t_small. Qed.

Lemma SIZE_MODULUS_eq : SIZE_MODULUS = 18446744073709551616.
Proof. reflexivity. Qed.

Lemma SSIZE_MAX_eq : SSIZE_MAX = 9223372036854775807.
Proof. reflexivity. Qed.

Lemma LONG_MAX_eq : LONG_MAX = 9223372036854775807.
Proof. reflexivity. Qed.

Lemma byte_val_range (b : byte) : 0 <= byte_val b < 256.
Proof.
  unfold byte_val. pose proof (Byte.to_N_bounded b) as H.
  split; [apply N2Z.is_nonneg | lia].
Qed.

Lemma byte_val_not_EOF (b : byte) : (byte_val b =? EOF) = false.
Proof. apply Z.eqb_neq. pose proof (byte_val_range b). unfold EOF. lia. Qed.

(** ** Fields the helpers leave alone *)

Lemma update_next_hit_frame (st : FormatHits.t) :
  FormatHits.base (snd (FormatHits.update_next_hit st)) = FormatHits.base st /\
  FormatHits.position (snd (FormatHits.update_next_hit st)) = FormatHits.position st.
Proof.
  unfold FormatHits.update_next_hit.
  destruct (read_unsigned_int _ _) as [[[r v] sep] f].
  destruct r as [[|]|s]; cbn;
    repeat match goal with |- context [if ?c then _ else _] => destruct c end;
    cbn; auto.
Qed.

Lemma update_next_shot_frame (st : FormatDets.t) :
  FormatDets.base (snd (FormatDets.update_next_shot st)) = FormatDets.base st /\
  FormatDets.position (snd (FormatDets.update_next_shot st)) = FormatDets.position st.
Proof.
  unfold FormatDets.update_next_shot.
  destruct (getc (FormatDets.in_ st)) as [c f1].
  destruct (to_char c =? EOF); [cbn; auto|].
  destruct (_ && _); [cbn; auto|].
  destruct (read_unsigned_int _ _) as [[[r v] sep] f].
  destruct r as [[|]|s]; cbn;
    repeat match goal with |- context [if ?c then _ else _] => destruct c end;
    cbn; auto.
Qed.

Lemma maybe_update_payload_base (st : FormatB8.t) :
  FormatB8.base (FormatB8.maybe_update_payload st) = FormatB8.base st.
Proof.
  unfold FormatB8.maybe_update_payload.
  destruct (FormatB8.bits_available st >? 0); [reflexivity|].
  destruct (getc (FormatB8.in_ st)). reflexivity.
Qed.

Lemma update_run_length_base (st : FormatR8.t) :
  FormatR8.base (snd (FormatR8.update_run_length st)) = FormatR8.base st.
Proof.
  unfold FormatR8.update_run_length.
  destruct (getc (FormatR8.in_ st)) as [r f1].
  destruct (r =? EOF); [reflexivity|].
  destruct (FormatR8.run_loop 0 r f1) as [[run r'] f2]. reflexivity.
Qed.

(** ** The draining loops end by their own test *)

Lemma read_digits_suffix (f : FILE) :
  forall value next v c f',
    read_digits value next f = Some (v, c, f') -> (length f' <= length f)%nat.
Proof.
  induction f as [|b f IH]; intros value next v c f' H; cbn [read_digits] in H;
    destruct (isdigit next);
    try (destruct (_ >? LONG_MAX); [discriminate H|]).
  - inversion H; subst. cbn. lia.
  - inversion H; subst. cbn. lia.
  - apply IH in H. cbn [length]. lia.
  - inversion H; subst. lia.
Qed.

(** A call of [read_unsigned_int] takes at least one byte, unless the
    stream is exhausted, where it reports [EOF] in [next]. *)
Lemma read_unsigned_int_consumes (f : FILE) (old : Z) :
  match read_unsigned_int f old with
  | (_, _, c, f') => (length f' < length f)%nat \/ (f' = [] /\ c = EOF)
  end.
Proof.
  unfold read_unsigned_int. destruct f as [|b f]; cbn [getc].
  - change (negb (isdigit EOF)) with true. cbv iota. right. auto.
  - destruct (negb (isdigit (byte_val b))); [left; cbn [length]; lia|].
    destruct (read_digits 0 (byte_val b) f) as [[[v c] f2]|] eqn:Hd.
    + apply read_digits_suffix in Hd. left. cbn [length]. lia.
    + left. cbn [length]. lia.
Qed.

Lemma update_next_hit_consumes (st : FormatHits.t) :
  let st' := snd (FormatHits.update_next_hit st) in
  (length (FormatHits.in_ st') < length (FormatHits.in_ st))%nat \/
  FormatHits.separator st' = EOF.
Proof.
  unfold FormatHits.update_next_hit.
  pose proof (read_unsigned_int_consumes (FormatHits.in_ st) (FormatHits.next_hit st))
    as H.
  destruct (read_unsigned_int _ _) as [[[r v] sep] f].
  assert (Hst : (length f < length (FormatHits.in_ st))%nat \/ sep = EOF)
    by (destruct H as [H | [_ H]]; auto).
  destruct r as [[|]|s]; cbn;
    repeat match goal with |- context [if ?c then _ else _] => destruct c end;
    cbn; exact Hst.
Qed.

(** With more turns than bytes in the stream, the loop of Hits
    [next_record] is left because [separator] is no longer a comma (or
    because [update_next_hit] stopped), never for lack of turns. *)
Lemma drain_hits_exits (fuel : nat) :
  forall st,
    (length (FormatHits.in_ st) < fuel)%nat ->
    match FormatHits.drain fuel st with
    | (Ret _, st') => FormatHits.separator st' <> char_comma
    | (Stop _, _) => True
    end.
Proof.
  induction fuel as [|fuel IH]; intros st Hlen; [lia|].
  cbn [FormatHits.drain].
  destruct (FormatHits.separator st =? char_comma) eqn:Hsep;
    [|apply Z.eqb_neq in Hsep; exact Hsep].
  unfold bind. pose proof (update_next_hit_consumes st) as Hc. cbv zeta in Hc.
  destruct (FormatHits.update_next_hit st) as [[u|s] st1]; [|exact I].
  cbn [snd] in Hc. destruct Hc as [Hc | Hc].
  - apply IH. lia.
  - destruct fuel as [|fuel'].
    + cbn [FormatHits.drain]. rewrite Hc. discriminate.
    + cbn [FormatHits.drain]. rewrite Hc. change (EOF =? char_comma) with false.
      cbv iota. rewrite Hc. discriminate.
Qed.

Lemma update_next_shot_consumes (st : FormatDets.t) :
  let st' := snd (FormatDets.update_next_shot st) in
  (length (FormatDets.in_ st') < length (FormatDets.in_ st))%nat \/
  FormatDets.separator st' = EOF.
Proof.
  unfold FormatDets.update_next_shot.
  destruct (FormatDets.in_ st) as [|b f] eqn:Hin; cbn [getc].
  - change (to_char EOF =? EOF) with true. cbv iota. right. reflexivity.
  - destruct (to_char (byte_val b) =? EOF); [right; reflexivity|].
    destruct (_ && _); [left; cbn [snd FormatDets.in_ length]; lia|].
    pose proof (read_unsigned_int_consumes f (FormatDets.next_shot st)) as H.
    destruct (read_unsigned_int _ _) as [[[r v] sep] f2].
    assert (Hst : (length f2 < length (b :: f))%nat)
      by (cbn [length]; destruct H as [H | [-> _]]; cbn [length]; lia).
    destruct r as [[|]|s]; cbn;
      repeat match goal with |- context [if ?c then _ else _] => destruct c end;
      cbn; left; exact Hst.
Qed.

(** The same for the loop of DETS [next_record]. *)
Lemma drain_dets_exits (fuel : nat) :
  forall st,
    (length (FormatDets.in_ st) < fuel)%nat ->
    match FormatDets.drain fuel st with
    | (Ret _, st') => FormatDets.separator st' <> char_space
    | (Stop _, _) => True
    end.
Proof.
  induction fuel as [|fuel IH]; intros st Hlen; [lia|].
  cbn [FormatDets.drain].
  destruct (FormatDets.separator st =? char_space) eqn:Hsep;
    [|apply Z.eqb_neq in Hsep; exact Hsep].
  unfold bind. pose proof (update_next_shot_consumes st) as Hc. cbv zeta in Hc.
  destruct (FormatDets.update_next_shot st) as [[u|s] st1]; [|exact I].
  cbn [snd] in Hc. destruct Hc as [Hc | Hc].
  - apply IH. lia.
  - destruct fuel as [|fuel'].
    + cbn [FormatDets.drain]. rewrite Hc. discriminate.
    + cbn [FormatDets.drain]. rewrite Hc. change (EOF =? char_space) with false.
      cbv iota. rewrite Hc. discriminate.
Qed.

(** ** 01 format: a failing [read_bit] changes nothing *)

(** C10.  Whenever [read_bit] of the 01 format stops, it stops with an
    exception, the reader (cursor, payload and stream) is exactly as before
    the call, and the same call on it stops in the same way.  The exception
    is end-of-file when the payload is [EOF]; otherwise end-of-record when
    the payload is a newline or the cursor has reached the record length;
    otherwise the complaint about a character other than '0' and '1'. *)
Theorem read_bit_01_failure_is_atomic (st st' : Format01.t) (s : stop) :
  Format01.read_bit st = (Stop s, st') ->
  st' = st /\
  Format01.read_bit st' = (Stop s, st') /\
  ((Format01.payload st = EOF /\ s = Exception PastEndOfFile) \/
   (Format01.payload st <> EOF /\
    (Format01.payload st = char_nl \/
     Format01.bits_per_record st <= Format01.position st) /\
    s = Exception PastEndOfRecord) \/
   (Format01.payload st <> EOF /\ Format01.payload st <> char_nl /\
    Format01.position st < Format01.bits_per_record st /\
    Format01.payload st <> char_0 /\ Format01.payload st <> char_1 /\
    s = Exception (runtime_error Expected01))).
Proof.
  intros H.
  assert (Hst : st' = st /\ Format01.read_bit st = (Stop s, st)).
  { unfold Format01.read_bit in H |- *.
    destruct (Format01.payload st =? EOF);
      [inversion H; subst; auto|].
    destruct ((Format01.payload st =? char_nl)
              || (Format01.position st >=? Format01.bits_per_record st));
      [inversion H; subst; auto|].
    destruct (negb (Format01.payload st =? char_0)
              && negb (Format01.payload st =? char_1));
      [inversion H; subst; auto|].
    destruct (getc (Format01.in_ st)); discriminate. }
  destruct Hst as [-> Hsame]. split; [reflexivity|]. split; [exact Hsame|].
  clear H. unfold Format01.read_bit in Hsame.
  destruct (Format01.payload st =? EOF) eqn:Heof.
  - left. apply Z.eqb_eq in Heof. inversion Hsame. auto.
  - apply Z.eqb_neq in Heof.
    destruct ((Format01.payload st =? char_nl)
              || (Format01.position st >=? Format01.bits_per_record st)) eqn:Hend.
    + right; left. inversion Hsame. repeat split; auto.
      apply orb_true_iff in Hend. destruct Hend as [Hn | Hp].
      * left. now apply Z.eqb_eq.
      * right. apply Z.geb_le in Hp. lia.
    + apply orb_false_iff in Hend. destruct Hend as [Hn Hp].
      apply Z.eqb_neq in Hn.
      destruct (negb (Format01.payload st =? char_0)
                && negb (Format01.payload st =? char_1)) eqn:Hbad.
      * right; right. inversion Hsame.
        apply andb_true_iff in Hbad. destruct Hbad as [Hc0 Hc1].
        apply negb_true_iff in Hc0, Hc1. apply Z.eqb_neq in Hc0, Hc1.
        repeat split; auto.
        rewrite Z.geb_leb in Hp. apply Z.leb_gt in Hp. exact Hp.
      * destruct (getc (Format01.in_ st)); discriminate.
Qed.

Lemma read_bit_01_failure_is_atomic_witness :
  let st := Format01.mk (MeasureRecordReader.mk 0 2) (stream_of "0") 120 in
  Format01.read_bit st = (Throw (runtime_error Expected01), st) /\
  Format01.read_bit st = (Throw (runtime_error Expected01), st).
Proof.
  intros st. split; [reflexivity|].
  exact (proj1 (proj2 (read_bit_01_failure_is_atomic st st
                         (Exception (runtime_error Expected01)) eq_refl))).
Defined.

(** ** Running the model on a given input *)

(** Supplies the reader that a closed call leaves as the witness. *)
Ltac exists_result t :=
  let v := eval vm_compute in t in
  lazymatch v with
  | Ret ?r => exists r
  | (_, ?r) => exists r
  end.

Ltac run_step :=
  lazymatch goal with
  | |- ex (fun r => ?lhs = Ret r /\ _) => exists_result lhs
  | |- ex (fun r => ?lhs = Ret r) => exists_result lhs
  | |- ex (fun r => ?lhs = (_, r) /\ _) => exists_result lhs
  | |- ex (fun r => ?lhs = (_, r)) => exists_result lhs
  | |- _ /\ _ => split
  | |- _ = _ => vm_compute; reflexivity
  end.

(** ** Hits format: a worked record *)

(** C8.  A Hits reader made for 8 bits per record on the input "1,3,7\n"
    yields the bits 0,1,0,1,0,0,0,1 on eight calls of [read_bit]; the
    [next_record] that follows finds the stream exhausted and returns
    [false], without an error. *)
Theorem hits_1_3_7_decodes :
  exists r0,
    make (stream_of ("1,3,7" ++ nl)) SAMPLE_FORMAT_HITS 8 0 0 = Ret r0 /\
  exists r1,
    read_bits read_bit 8 r0
      = (Ret [false; true; false; true; false; false; false; true], r1) /\
  exists r2,
    next_record r1 = (Ret false, r2).
Proof. repeat run_step. Qed.

(** ** [read_bytes] at an early end of record *)

(** C5 (what the code does at the failing input).  A 01 reader for 2 bits
    per record on "0\n11\n", after one [read_bit], stands before the newline:
    [is_end_of_record] is true.  [read_bytes] on a one-byte buffer holding
    0xAA then clears the byte and throws the end-of-record exception; it
    does not return 0.  (An R8 reader whose stream is exhausted inside the
    record does return 0 there, after it has cleared the first byte of the
    buffer.) *)
Theorem read_bytes_01_throws_at_early_newline :
  (exists r0,
     make (stream_of ("0" ++ nl ++ "11" ++ nl)) SAMPLE_FORMAT_01 2 0 0 = Ret r0 /\
   exists r1,
     read_bits read_bit 1 r0 = (Ret [false], r1) /\
     is_end_of_record r1 = (Ret true, r1) /\
     read_bytes [170] r1 = (Throw PastEndOfRecord, [0], r1)) /\
  (exists r0,
     make [x02] SAMPLE_FORMAT_R8 8 0 0 = Ret r0 /\
   exists r1,
     read_bits read_bit 2 r0 = (Ret [false; false], r1) /\
     is_end_of_record r1 = (Ret true, r1) /\
     read_bytes [170] r1 = (Ret 0, [0], r1)).
Proof. repeat run_step. Qed.

(** ** Construction *)









Lemma size_check_passes (n : Z) : n <= SSIZE_MAX -> (n >? SSIZE_MAX) = false.
Proof. intros H. rewrite Z.gtb_ltb. now apply Z.ltb_ge. Qed.

Lemma size_check_fails (n : Z) : SSIZE_MAX < n -> (n >? SSIZE_MAX) = true.
Proof. intros H. rewrite Z.gtb_ltb. now apply Z.ltb_lt. Qed.


Lemma ctor_B8_ok (f : FILE) (n : Z) :
  n <= SSIZE_MAX ->
  FormatB8.ctor f n = Ret (FormatB8.mk (MeasureRecordReader.mk 0 n) f 0 0).
Proof.
  intros Hn. unfold FormatB8.ctor, MeasureRecordReader.ctor.
  now rewrite (size_check_passes n Hn).
Qed.



Lemma ctor_B8_too_big (f : FILE) (n : Z) :
  SSIZE_MAX < n -> FormatB8.ctor f n = Throw (invalid_argument RecordTooBig).
Proof.
  intros Hn. unfold FormatB8.ctor, MeasureRecordReader.ctor.
  now rewrite (size_check_fails n Hn).
Qed.

Lemma ctor_R8_too_big (f : FILE) (n : Z) :
  SSIZE_MAX < n -> FormatR8.ctor f n = Throw (invalid_argument RecordTooBig).
Proof.
  intros Hn. unfold FormatR8.ctor, MeasureRecordReader.ctor.
  now rewrite (size_check_fails n Hn).
Qed.





(** ** Decimal tokens *)

Lemma isdigit_range (c : Z) : isdigit c = true -> 48 <= c <= 57.
Proof.
  unfold isdigit. intros H. apply andb_true_iff in H. destruct H as [H1 H2].
  apply Z.leb_le in H1, H2. lia.
Qed.

Lemma decimal_grows (ds : list byte) (acc : Z) :
  forallb is_digit_byte ds = true -> 0 <= acc -> acc <= decimal acc ds.
Proof.
  revert acc. induction ds as [|d ds IH]; intros acc Hds Hacc; cbn [decimal].
  - lia.
  - cbn [forallb] in Hds. apply andb_true_iff in Hds. destruct Hds as [Hd Hds].
    apply isdigit_range in Hd. unfold char_0.
    specialize (IH (acc * 10 + (byte_val d - 48)) Hds). lia.
Qed.

(** The digit loop on a numeral followed by a byte that is no digit. *)
Lemma read_digits_token (ds : list byte) :
  forall (acc c : Z) (sep : byte) (rest : FILE),
    forallb is_digit_byte ds = true ->
    isdigit c = true -> 0 <= acc ->
    is_digit_byte sep = false ->
    decimal (acc * 10 + (c - char_0)) ds <= LONG_MAX ->
    read_digits acc c (ds ++ sep :: rest)
    = Some (decimal (acc * 10 + (c - char_0)) ds, byte_val sep, rest).
Proof.
  induction ds as [|d ds IH]; intros acc c sep rest Hds Hc Hacc Hsep Hmax;
    cbn [app read_digits decimal] in *; rewrite Hc.
  - assert (Hle : (acc * 10 + (c - char_0) >? LONG_MAX) = false)
      by (rewrite Z.gtb_ltb; apply Z.ltb_ge; exact Hmax).
    rewrite Hle. unfold is_digit_byte in Hsep.
    destruct rest; cbn [read_digits]; rewrite Hsep; reflexivity.
  - cbn [forallb] in Hds. apply andb_true_iff in Hds. destruct Hds as [Hd Hds].
    apply isdigit_range in Hc as Hc'. unfold char_0 in *.
    assert (Hpos : 0 <= acc * 10 + (c - 48)) by lia.
    pose proof (decimal_grows (d :: ds) (acc * 10 + (c - 48))) as Hg.
    cbn [forallb decimal] in Hg. unfold is_digit_byte at 1 in Hg.
    unfold is_digit_byte in Hd. rewrite Hd, Hds in Hg. unfold char_0 in Hg.
    specialize (Hg eq_refl Hpos).
    assert (Hle : (acc * 10 + (c - 48) >? LONG_MAX) = false)
      by (rewrite Z.gtb_ltb; apply Z.ltb_ge; lia).
    rewrite Hle. apply IH; auto.
Qed.

(** [read_unsigned_int] on a numeral that fits a [long], followed by a
    byte that is no digit. *)
Lemma read_unsigned_int_token (ds : list byte) (sep : byte) (rest : FILE) (old : Z) :
  ds <> [] ->
  forallb is_digit_byte ds = true ->
  is_digit_byte sep = false ->
  decimal 0 ds <= LONG_MAX ->
  read_unsigned_int (ds ++ sep :: rest) old
  = (Ret true, decimal 0 ds, byte_val sep, rest) /\ 0 <= decimal 0 ds.
Proof.
  intros Hne Hds Hsep Hmax. destruct ds as [|d ds]; [congruence|].
  cbn [forallb] in Hds. apply andb_true_iff in Hds. destruct Hds as [Hd Hds].
  unfold read_unsigned_int. cbn [app getc decimal] in *.
  unfold is_digit_byte in Hd. rewrite Hd. cbn [negb].
  rewrite (read_digits_token ds 0 (byte_val d) sep rest); auto; try lia.
  split; [reflexivity|].
  apply isdigit_range in Hd. unfold char_0.
  pose proof (decimal_grows ds (0 * 10 + (byte_val d - 48)) Hds). lia.
Qed.

(** ** Sparse formats: the checks on a parsed index *)

(** [update_next_hit] on a numeral followed by ',' or a newline. *)
Lemma update_next_hit_token (st : FormatHits.t) (ds : list byte) (sep : byte)
    (rest : FILE) :
  FormatHits.in_ st = ds ++ sep :: rest ->
  numeral ds -> sep = byte_comma \/ sep = byte_nl ->
  let v := decimal 0 ds in
  let st' := FormatHits.mk (FormatHits.base st) rest (byte_val sep) v
                           (FormatHits.position st) in
  0 <= v /\
  FormatHits.update_next_hit st
  = if v <? FormatHits.position st
    then (Throw (runtime_error HitInPast), st')
    else if v >=? FormatHits.bits_per_record st
    then (Throw (runtime_error HitOutsideRecord), st')
    else (Ret tt, st').
Proof.
  intros Hin (Hne & Hds & Hmax) Hsep v st'.
  assert (Hnd : is_digit_byte sep = false) by (destruct Hsep; subst; reflexivity).
  destruct (read_unsigned_int_token ds sep rest (FormatHits.next_hit st)
              Hne Hds Hnd Hmax) as [Hr Hv].
  split; [exact Hv|].
  unfold FormatHits.update_next_hit. rewrite Hin, Hr. fold v.
  assert (Hs : negb (byte_val sep =? char_comma) && negb (byte_val sep =? char_nl)
               = false) by (destruct Hsep; subst; reflexivity).
  rewrite Hs. fold st'.
  rewrite (to_size_t_small v)
    by (rewrite SIZE_MODULUS_eq; rewrite LONG_MAX_eq in Hmax; fold v in Hmax; lia).
  reflexivity.
Qed.

(** [update_next_shot] on a type tag, a numeral, and a space or a newline.
    [idx] is the index the reader takes: the numeral, plus the cursor when
    the tag differs from [result_type]. *)
Lemma update_next_shot_token (st : FormatDets.t) (tag : byte) (ds : list byte)
    (sep : byte) (rest : FILE) :
  FormatDets.in_ st = tag :: ds ++ sep :: rest ->
  tag = byte_M \/ tag = byte_D \/ tag = byte_L ->
  numeral ds -> sep = byte_space \/ sep = byte_nl ->
  0 <= FormatDets.position st ->
  decimal 0 ds + FormatDets.position st <= LONG_MAX ->
  let idx := if byte_val tag =? FormatDets.result_type st
             then decimal 0 ds
             else decimal 0 ds + FormatDets.position st in
  let st' := FormatDets.mk (FormatDets.base st) rest (byte_val tag)
                           (byte_val sep) idx (FormatDets.position st) in
  FormatDets.update_next_shot st
  = if idx <? FormatDets.position st
    then (Throw (runtime_error ShotInPast), st')
    else if idx >=? FormatDets.bits_per_record st
    then (Throw (runtime_error ShotOutsideRecord), st')
    else (Ret tt, st').
Proof.
  intros Hin Htag (Hne & Hds & Hmax) Hsep Hpos Hsum idx st'.
  assert (Hnd : is_digit_byte sep = false) by (destruct Hsep; subst; reflexivity).
  destruct (read_unsigned_int_token ds sep rest (FormatDets.next_shot st)
              Hne Hds Hnd Hmax) as [Hr Hv].
  unfold FormatDets.update_next_shot. rewrite Hin. cbn [getc].
  assert (Hc : to_char (byte_val tag) = byte_val tag)
    by (destruct Htag as [-> | [-> | ->]]; reflexivity).
  rewrite Hc.
  assert (He : (byte_val tag =? EOF) = false) by apply byte_val_not_EOF.
  rewrite He.
  assert (Ht : negb (byte_val tag =? char_M) && negb (byte_val tag =? char_D)
               && negb (byte_val tag =? char_L) = false)
    by (destruct Htag as [-> | [-> | ->]]; reflexivity).
  rewrite Ht, Hr.
  assert (Hs : negb (byte_val sep =? char_space) && negb (byte_val sep =? char_nl)
               = false) by (destruct Hsep; subst; reflexivity).
  rewrite Hs.
  pose proof LONG_MAX_eq as HL. pose proof SIZE_MODULUS_eq as HS.
  destruct (byte_val tag =? FormatDets.result_type st) eqn:Hsame;
    cbn [negb andb] in *; subst idx.
  - apply Z.eqb_eq in Hsame. subst st'. rewrite <- Hsame.
    rewrite (to_size_t_small (decimal 0 ds)) by lia.
    reflexivity.
  - assert (Hr1 : (decimal 0 ds + FormatDets.position st >? LONG_MAX) = false)
      by (rewrite Z.gtb_ltb; apply Z.ltb_ge; lia).
    assert (Hr2 : (decimal 0 ds + FormatDets.position st <? - LONG_MAX - 1)
                  = false) by (apply Z.ltb_ge; lia).
    rewrite Hr1, Hr2. cbn [orb].
    rewrite (to_size_t_small (decimal 0 ds + FormatDets.position st)) by lia.
    reflexivity.
Qed.

(** C4.  In the DETS format, [update_next_shot] on a token (type tag M, D
    or L, numeral, space or newline) takes as index the numeral itself when
    the tag equals the current [result_type], and the numeral plus the
    current cursor when the tag differs; the tag becomes the [result_type].
    The ascending check and the range check are made on that index: below
    the cursor it is rejected as in the past, at or above the record size as
    outside the record, and otherwise it is stored in [next_shot]. *)
Theorem dets_index_is_rebased_on_type_change
    (st : FormatDets.t) (tag : byte) (ds : list byte) (sep : byte) (rest : FILE) :
  FormatDets.in_ st = tag :: ds ++ sep :: rest ->
  tag = byte_M \/ tag = byte_D \/ tag = byte_L ->
  numeral ds -> sep = byte_space \/ sep = byte_nl ->
  0 <= FormatDets.position st ->
  decimal 0 ds + FormatDets.position st <= LONG_MAX ->
  exists idx,
    (byte_val tag <> FormatDets.result_type st ->
     idx = decimal 0 ds + FormatDets.position st) /\
    (byte_val tag = FormatDets.result_type st -> idx = decimal 0 ds) /\
    let st' := FormatDets.mk (FormatDets.base st) rest (byte_val tag)
                             (byte_val sep) idx (FormatDets.position st) in
    FormatDets.update_next_shot st
    = if idx <? FormatDets.position st
      then (Throw (runtime_error ShotInPast), st')
      else if idx >=? FormatDets.bits_per_record st
      then (Throw (runtime_error ShotOutsideRecord), st')
      else (Ret tt, st').
Proof.
  intros Hin Htag Hnum Hsep Hpos Hsum.
  exists (if byte_val tag =? FormatDets.result_type st
          then decimal 0 ds else decimal 0 ds + FormatDets.position st).
  split; [|split].
  - intros Hd. apply Z.eqb_neq in Hd. now rewrite Hd.
  - intros He. apply Z.eqb_eq in He. now rewrite He.
  - now apply update_next_shot_token.
Qed.

Lemma dets_index_is_rebased_on_type_change_witness :
  let st := FormatDets.mk (MeasureRecordReader.mk 0 8)
              (stream_of ("D0" ++ nl)) char_M char_space 2 3 in
  exists idx,
    idx = 3 /\
    FormatDets.update_next_shot st
    = (Ret tt, FormatDets.mk (MeasureRecordReader.mk 0 8) [] char_D char_nl idx 3).
Proof.
  intros st.
  destruct (dets_index_is_rebased_on_type_change st byte_D [x30] byte_nl [])
    as (idx & Hdiff & _ & Hrun).
  - reflexivity.
  - right; left; reflexivity.
  - repeat split; [discriminate | rewrite LONG_MAX_eq; cbn; lia].
  - right; reflexivity.
  - cbn; lia.
  - rewrite LONG_MAX_eq; cbn; lia.
  - exists idx.
    assert (Hidx : idx = 3) by (apply Hdiff; cbn; discriminate).
    split; [exact Hidx|]. rewrite Hrun. subst idx. reflexivity.
Defined.

(** C7 (amended).  In the Hits format an index parsed from the stream (a
    numeral that fits a [long], followed by ',' or a newline) is accepted
    exactly when it is at least the cursor and below [bits_per_record]; any
    other index makes [update_next_hit] throw a [runtime_error], the
    malformed-input error.  In the DETS format the same holds of the index
    the reader takes from the token: the parsed numeral when the type tag is
    unchanged, the numeral plus the cursor when the tag changes.  The Hits
    input "3,1\n" is rejected in this way, on the read that fetches the 1. *)
Theorem sparse_index_is_checked :
  (forall (st : FormatHits.t) ds sep rest,
      FormatHits.in_ st = ds ++ sep :: rest ->
      numeral ds -> sep = byte_comma \/ sep = byte_nl ->
      let v := decimal 0 ds in
      (FormatHits.position st <= v < FormatHits.bits_per_record st ->
       exists st', FormatHits.update_next_hit st = (Ret tt, st') /\
                   FormatHits.next_hit st' = v) /\
      (v < FormatHits.position st \/ FormatHits.bits_per_record st <= v ->
       exists e st', FormatHits.update_next_hit st = (Throw e, st') /\
                     kind_of e = MalformedInput)) /\
  (forall (st : FormatDets.t) tag ds sep rest,
      FormatDets.in_ st = tag :: ds ++ sep :: rest ->
      tag = byte_M \/ tag = byte_D \/ tag = byte_L ->
      numeral ds -> sep = byte_space \/ sep = byte_nl ->
      0 <= FormatDets.position st ->
      decimal 0 ds + FormatDets.position st <= LONG_MAX ->
      let idx := if byte_val tag =? FormatDets.result_type st
                 then decimal 0 ds
                 else decimal 0 ds + FormatDets.position st in
      (FormatDets.position st <= idx < FormatDets.bits_per_record st ->
       exists st', FormatDets.update_next_shot st = (Ret tt, st') /\
                   FormatDets.next_shot st' = idx) /\
      (idx < FormatDets.position st \/ FormatDets.bits_per_record st <= idx ->
       exists e st', FormatDets.update_next_shot st = (Throw e, st') /\
                     kind_of e = MalformedInput)) /\
  (exists r0,
      make (stream_of ("3,1" ++ nl)) SAMPLE_FORMAT_HITS 8 0 0 = Ret r0 /\
   exists r1,
      read_bits read_bit 4 r0 = (Ret [false; false; false; true], r1) /\
   exists r2,
      read_bit r1 = (Throw (runtime_error HitInPast), r2)).
Proof.
  split; [|split].
  - intros st ds sep rest Hin Hnum Hsep v.
    destruct (update_next_hit_token st ds sep rest Hin Hnum Hsep) as [_ Hrun].
    fold v in Hrun. split.
    + intros [Hlo Hhi]. eexists. rewrite Hrun.
      assert (H1 : (v <? FormatHits.position st) = false) by (apply Z.ltb_ge; lia).
      assert (H2 : (v >=? FormatHits.bits_per_record st) = false)
        by (rewrite Z.geb_leb; apply Z.leb_gt; lia).
      rewrite H1, H2. split; reflexivity.
    + intros Hbad. rewrite Hrun.
      destruct (v <? FormatHits.position st) eqn:H1.
      * do 2 eexists. split; reflexivity.
      * apply Z.ltb_ge in H1.
        assert (H2 : (v >=? FormatHits.bits_per_record st) = true)
          by (rewrite Z.geb_leb; apply Z.leb_le; lia).
        rewrite H2. do 2 eexists. split; reflexivity.
  - intros st tag ds sep rest Hin Htag Hnum Hsep Hpos Hsum idx.
    pose proof (update_next_shot_token st tag ds sep rest Hin Htag Hnum Hsep
                  Hpos Hsum) as Hrun.
    cbv zeta in Hrun. fold idx in Hrun. split.
    + intros [Hlo Hhi]. eexists. rewrite Hrun.
      assert (H1 : (idx <? FormatDets.position st) = false) by (apply Z.ltb_ge; lia).
      assert (H2 : (idx >=? FormatDets.bits_per_record st) = false)
        by (rewrite Z.geb_leb; apply Z.leb_gt; lia).
      rewrite H1, H2. split; reflexivity.
    + intros Hbad. rewrite Hrun.
      destruct (idx <? FormatDets.position st) eqn:H1.
      * do 2 eexists. split; reflexivity.
      * apply Z.ltb_ge in H1.
        assert (H2 : (idx >=? FormatDets.bits_per_record st) = true)
          by (rewrite Z.geb_leb; apply Z.leb_le; lia).
        rewrite H2. do 2 eexists. split; reflexivity.
  - repeat run_step.
Qed.

Lemma sparse_index_is_checked_witness :
  let st := FormatHits.mk (MeasureRecordReader.mk 0 8)
              (stream_of ("1" ++ nl)) char_comma 3 4 in
  exists e st', FormatHits.update_next_hit st = (Throw e, st') /\
                kind_of e = MalformedInput.
Proof.
  intros st.
  refine (proj2 (proj1 sparse_index_is_checked st [x31] byte_nl [] eq_refl _ _) _).
  - repeat split; [discriminate | rewrite LONG_MAX_eq; cbn; lia].
  - right; reflexivity.
  - left. cbn. lia.
Defined.

(** C7 as stated fails for a DETS token whose type tag changes: on
    "shot M2 D0\n", after three bits the cursor is 3 and the pending token
    is D0; its parsed index 0 is below the cursor, and it is accepted (the
    reader takes it as index 3 and the fourth bit is set). *)
Lemma dets_accepts_parsed_index_below_cursor :
  exists st0,
    FormatDets.ctor (stream_of ("shot M2 D0" ++ nl)) 8 0 0 = Ret st0 /\
  exists st1,
    read_bits FormatDets.read_bit 3 st0 = (Ret [false; false; true], st1) /\
    FormatDets.position st1 = 3 /\
    FormatDets.in_ st1 = stream_of ("D0" ++ nl) /\
  exists st2,
    FormatDets.update_next_shot st1 = (Ret tt, st2) /\
    FormatDets.next_shot st2 = 3 /\
    fst (FormatDets.read_bit st1) = Ret true.
Proof. repeat run_step. Qed.

(** ** The factory *)


Lemma maybe_consume_keyword_shot (c : byte) (g : FILE) :
  maybe_consume_keyword (shot_bytes ++ c :: g) keyword_shot
  = (Ret true, byte_val c, g).
Proof. reflexivity. Qed.





(** ** 01 format: [next_record] *)

Lemma record_char_test (c : Z) :
  negb (c =? EOF) && negb (c =? char_nl) = true <-> record_char c.
Proof.
  unfold record_char. rewrite andb_true_iff, !negb_true_iff, !Z.eqb_neq. tauto.
Qed.

Lemma record_char_byte (b : byte) :
  record_char (byte_val b) <-> byte_val b <> char_nl.
Proof.
  unfold record_char. pose proof (byte_val_range b). unfold EOF. intuition lia.
Qed.

Lemma skip_loop_at_end (bits pos pay : Z) (f : FILE) :
  negb (pay =? EOF) && negb (pay =? char_nl) = false ->
  Format01.skip_loop bits pos pay f = (pos, pay, f).
Proof. intros H. destruct f; cbn [Format01.skip_loop]; rewrite H; reflexivity. Qed.

(** The loop of [next_record], entered on a character of the record with
    the cursor inside the record: it takes [skipped] bytes off the stream,
    or all of the stream if that is shorter, and leaves the cursor within
    the record. *)
Lemma skip_loop_skips (bits : Z) (f : FILE) :
  forall pos pay,
    0 <= pos < bits -> bits <= SSIZE_MAX -> record_char pay ->
    exists pos' pay',
      Format01.skip_loop bits pos pay f
      = (pos', pay', skipn (skipped (bits - pos) f) f) /\
      pos' <= bits.
Proof.
  rewrite SSIZE_MAX_eq.
  induction f as [|b f IH]; intros pos pay Hpos Hbits Hrc;
    cbn [Format01.skip_loop];
    rewrite (proj2 (record_char_test pay) Hrc);
    rewrite size_add_small by (rewrite SIZE_MODULUS_eq; lia);
    destruct (pos + 1 <? bits) eqn:Hlt;
    [apply Z.ltb_lt in Hlt | apply Z.ltb_ge in Hlt
    |apply Z.ltb_lt in Hlt | apply Z.ltb_ge in Hlt].
  - exists (pos + 1), EOF. rewrite skipn_nil. split; [reflexivity | lia].
  - exists (pos + 1), pay. rewrite skipn_nil. split; [reflexivity | lia].
  - destruct (Z.eq_dec (byte_val b) char_nl) as [Hnl | Hnl].
    + exists (pos + 1), (byte_val b).
      assert (Hk : skipped (bits - pos) (b :: f) = 1%nat).
      { unfold skipped. cbn [upto_newline]. rewrite Hnl, Z.eqb_refl.
        cbn [length]. lia. }
      rewrite Hk. cbn [skipn]. rewrite skip_loop_at_end by (rewrite Hnl; reflexivity).
      split; [reflexivity | lia].
    + destruct (IH (pos + 1) (byte_val b)) as (pos' & pay' & Hrun & Hle);
        [lia | lia | apply record_char_byte; exact Hnl |].
      exists pos', pay'.
      assert (Hk : skipped (bits - pos) (b :: f)
                   = S (skipped (bits - (pos + 1)) f)).
      { unfold skipped. cbn [upto_newline].
        apply Z.eqb_neq in Hnl. rewrite Hnl. cbn [length]. lia. }
      rewrite Hk. cbn [skipn]. split; [exact Hrun | exact Hle].
  - exists (pos + 1), pay.
    assert (Hk : skipped (bits - pos) (b :: f) = 0%nat)
      by (unfold skipped; lia).
    rewrite Hk. split; [reflexivity | lia].
Qed.

Lemma getc_closed (g : FILE) :
  getc g = (fst (getc g), tl g) /\
  negb (fst (getc g) =? EOF) = negb (is_nil g).
Proof.
  destruct g as [|b g]; cbn [getc fst tl is_nil]; [split; reflexivity|].
  rewrite byte_val_not_EOF. split; reflexivity.
Qed.

Lemma byte_val_nl (b : byte) : byte_val b = char_nl -> b = byte_nl.
Proof.
  intros H. unfold byte_val in H. apply (f_equal Z.to_N) in H.
  rewrite N2Z.id in H. apply (f_equal Byte.of_N) in H.
  rewrite Byte.of_to_N in H.
  change (Byte.of_N (Z.to_N char_nl)) with (Some byte_nl) in H. congruence.
Qed.

Lemma Forall_removelast {A} (P : A -> Prop) (l : list A) :
  Forall P l -> Forall P (removelast l).
Proof.
  induction 1 as [|x l Hx Hl IH]; [constructor|].
  cbn [removelast]. destruct l; [constructor|]. constructor; assumption.
Qed.

Lemma Forall_prefix {A} (P : A -> Prop) (k : nat) (l : list A) :
  Forall P l -> Forall P (firstn k l).
Proof.
  intros H. rewrite <- (firstn_skipn k l) in H.
  apply Forall_app in H. apply H.
Qed.

Lemma upto_newline_prefix (f : FILE) :
  Forall (fun b => byte_val b <> char_nl) (upto_newline f) /\
  (f = upto_newline f \/
   exists g, f = upto_newline f ++ byte_nl :: g).
Proof.
  induction f as [|b f [IH1 IH2]]; cbn [upto_newline].
  - split; [constructor | left; reflexivity].
  - destruct (Z.eqb_spec (byte_val b) char_nl) as [Hnl | Hnl].
    + split; [constructor|]. right. exists f. cbn [app]. f_equal.
      apply byte_val_nl. exact Hnl.
    + split; [constructor; assumption|].
      destruct IH2 as [IH2 | [g IH2]].
      * left. f_equal. exact IH2.
      * right. exists g. cbn [app]. f_equal. exact IH2.
Qed.

(** C6.  [next_record] of a 01 reader whose cursor is within the record.
    - With the payload at a newline or at [EOF] the loop takes nothing.
    - With the payload at a character of the record and the cursor at the
      record size, the loop moves the cursor past the record size without
      taking anything, and the call throws "Record too long".
    - With the payload at a character of the record and the cursor [p]
      below the record size, the loop takes bytes off the stream until it
      has taken a newline, or the stream is exhausted, or the cursor,
      which it moves on by one for every character of the record it
      passes, has reached the record size: [skipped] bytes in all, none
      but the last of them a newline.
    Unless it throws, the call then sets the cursor to 0, takes one more
    byte as the payload, and returns [true] exactly when there was such a
    byte, that is, when the stream was not exhausted. *)
Theorem next_record_01_spec (st : Format01.t) :
  0 <= Format01.position st <= Format01.bits_per_record st ->
  Format01.bits_per_record st <= SSIZE_MAX ->
  let bits := Format01.bits_per_record st in
  let p := Format01.position st in
  let f := Format01.in_ st in
  let after g :=
    (Ret (negb (is_nil g)),
     Format01.mk (MeasureRecordReader.mk 0 bits) (tl g) (fst (getc g))) in
  (~ record_char (Format01.payload st) -> Format01.next_record st = after f) /\
  (record_char (Format01.payload st) -> p = bits ->
   Format01.next_record st
   = (Throw (runtime_error RecordTooLong),
      Format01.mk (MeasureRecordReader.mk (bits + 1) bits) f
                  (Format01.payload st))) /\
  (record_char (Format01.payload st) -> p < bits ->
   let k := skipped (bits - p) f in
   Format01.next_record st = after (skipn k f) /\
   Forall (fun b => byte_val b <> char_nl) (removelast (firstn k f)) /\
   ((exists pre, firstn k f = pre ++ [byte_nl]) \/
    (length f < k)%nat \/
    p + 1 + Z.of_nat k = bits)).
Proof.
  intros Hpos Hbits bits p f after. pose proof SSIZE_MAX_eq as HS.
  assert (Hafter : forall g pos pay,
             Format01.skip_loop bits p (Format01.payload st) f = (pos, pay, g) ->
             pos <= bits -> Format01.next_record st = after g).
  { intros g pos pay Hrun Hle. unfold Format01.next_record.
    fold bits p f. rewrite Hrun.
    assert (Hgt : (pos >? bits) = false)
      by (rewrite Z.gtb_ltb; apply Z.ltb_ge; exact Hle).
    rewrite Hgt. destruct (getc_closed g) as [Hg Hb].
    rewrite Hg, Hb. reflexivity. }
  split; [|split].
  - intros Hrc.
    assert (Htest : negb (Format01.payload st =? EOF)
                    && negb (Format01.payload st =? char_nl) = false).
    { destruct (negb (Format01.payload st =? EOF)
                && negb (Format01.payload st =? char_nl)) eqn:E;
        [|reflexivity].
      apply record_char_test in E. contradiction. }
    apply (Hafter f p (Format01.payload st)); [|subst p bits; lia].
    apply skip_loop_at_end. exact Htest.
  - intros Hrc Hp. unfold Format01.next_record. fold bits p f.
    assert (Hrun : Format01.skip_loop bits p (Format01.payload st) f
                   = (bits + 1, Format01.payload st, f)).
    { assert (Hlt : (bits + 1 <? bits) = false) by (apply Z.ltb_ge; lia).
      destruct f; cbn [Format01.skip_loop];
        rewrite (proj2 (record_char_test _) Hrc), Hp;
        rewrite size_add_small by (rewrite SIZE_MODULUS_eq; subst bits; lia);
        rewrite Hlt; reflexivity. }
    rewrite Hrun.
    assert (Hgt : (bits + 1 >? bits) = true) by (apply Z.gtb_lt; lia).
    rewrite Hgt. reflexivity.
  - intros Hrc Hp k.
    destruct (skip_loop_skips bits f p (Format01.payload st))
      as (pos & pay & Hrun & Hle); [subst p; lia | exact Hbits | exact Hrc |].
    fold k in Hrun.
    split; [apply (Hafter _ pos pay Hrun Hle)|].
    destruct (upto_newline_prefix f) as [Hline Hshape].
    set (ln := upto_newline f) in *.
    assert (Hk : (k <= S (length ln))%nat /\ Z.of_nat k <= bits - p - 1 /\
                 (k = S (length ln) \/ Z.of_nat k = bits - p - 1))
      by (subst k; unfold skipped; fold ln; lia).
    destruct Hk as (Hk1 & Hk2 & Hk3).
    destruct (Nat.le_gt_cases k (length ln)) as [Hin | Hall].
    + assert (Hfirst : firstn k f = firstn k ln).
      { destruct Hshape as [Hf | [g Hf]]; [rewrite Hf at 1; reflexivity|].
        rewrite Hf at 1. rewrite firstn_app.
        replace (k - length ln)%nat with 0%nat by lia.
        cbn [firstn]. apply app_nil_r. }
      rewrite Hfirst.
      split; [apply Forall_removelast, Forall_prefix; exact Hline|].
      right. right. lia.
    + assert (Hkeq : k = S (length ln)) by lia.
      destruct Hshape as [Hf | [g Hf]].
      * assert (Hlen : length f = length ln) by (rewrite Hf at 1; reflexivity).
        split; [|right; left; lia].
        rewrite firstn_all2 by lia. rewrite Hf.
        apply Forall_removelast. exact Hline.
      * assert (Hfirst : firstn k f = ln ++ [byte_nl]).
        { rewrite Hf at 1. rewrite firstn_app, Hkeq.
          rewrite firstn_all2 by lia.
          replace (S (length ln) - length ln)%nat with 1%nat by lia.
          reflexivity. }
        rewrite Hfirst. split; [|left; exists ln; reflexivity].
        rewrite removelast_last. exact Hline.
Qed.

Lemma next_record_01_spec_witness :
  let st := Format01.mk (MeasureRecordReader.mk 1 3)
              (stream_of ("10" ++ nl ++ "111" ++ nl)) char_0 in
  Format01.next_record st
  = (Ret true,
     Format01.mk (MeasureRecordReader.mk 0 3)
                 (stream_of (nl ++ "111" ++ nl)) char_0).
Proof.
  intros st.
  refine (proj1 (proj2 (proj2 (next_record_01_spec st _ _)) _ _)).
  - vm_compute. split; discriminate.
  - vm_compute. discriminate.
  - split; discriminate.
  - reflexivity.
Defined.

(** ** Reading a whole record bit by bit *)

(** A successful [read_bit] finds the cursor below the record size and
    moves it on by one; the record size and the variant stay as they
    are. *)
Lemma read_bit_advances (r r' : reader) (b : bool) :
  0 <= cursor r <= bits_per_record r -> bits_per_record r <= SSIZE_MAX ->
  read_bit r = (Ret b, r') ->
  cursor r < bits_per_record r /\
  cursor r' = cursor r + 1 /\
  bits_per_record r' = bits_per_record r /\
  format_of r' = format_of r.
Proof.
  rewrite SSIZE_MAX_eq. intros Hc Hb H.
  destruct r as [st | st | st | st | st];
    cbn [read_bit cursor bits_per_record format_of] in *;
    unfold dispatch in H.
  - (* 01 *)
    unfold Format01.read_bit in H.
    destruct (Format01.payload st =? EOF); [discriminate|].
    destruct (_ || _) eqn:E; [discriminate|].
    destruct (_ && _); [discriminate|].
    destruct (getc (Format01.in_ st)) as [c f1]. inversion H; subst; clear H.
    apply orb_false_iff in E. destruct E as [_ E].
    rewrite Z.geb_leb in E. apply Z.leb_gt in E.
    cbn. unfold Format01.position, Format01.bits_per_record in *. cbn.
    rewrite size_add_small by (rewrite SIZE_MODULUS_eq; lia).
    repeat split; auto.
  - (* B8 *)
    unfold FormatB8.read_bit in H.
    destruct (FormatB8.position st >=? FormatB8.bits_per_record st) eqn:E;
      [discriminate|].
    destruct (FormatB8.payload _ =? EOF); [discriminate|].
    inversion H; subst; clear H.
    rewrite Z.geb_leb in E. apply Z.leb_gt in E.
    cbn. unfold FormatB8.position, FormatB8.bits_per_record in *. cbn.
    rewrite maybe_update_payload_base.
    rewrite size_add_small by (rewrite SIZE_MODULUS_eq; lia).
    repeat split; auto.
  - (* DETS *)
    unfold FormatDets.read_bit in H.
    destruct (to_size_t (FormatDets.position st) >=? FormatDets.bits_per_record st)
      eqn:E; [discriminate|].
    rewrite Z.geb_leb in E. apply Z.leb_gt in E.
    assert (Hlt : FormatDets.position st < FormatDets.bits_per_record st)
      by (rewrite to_size_t_small in E by (rewrite SIZE_MODULUS_eq; lia);
          exact E).
    pose proof (update_next_shot_frame st) as [Hf1 Hf2].
    unfold bind, FormatDets.compare_and_advance in H.
    destruct (_ && _) in H.
    + destruct (FormatDets.update_next_shot st) as [[u|s] st1];
        [|discriminate]. cbn [snd] in *.
      destruct (FormatDets.position st1 + 1 >? LONG_MAX); [discriminate|].
      inversion H; subst; clear H. cbn.
      unfold FormatDets.bits_per_record in *. cbn. rewrite Hf1, Hf2. auto.
    + destruct (FormatDets.position st + 1 >? LONG_MAX); [discriminate|].
      inversion H; subst; clear H. cbn. auto.
  - (* Hits *)
    unfold FormatHits.read_bit in H.
    destruct (to_size_t (FormatHits.position st) >=? FormatHits.bits_per_record st)
      eqn:E; [discriminate|].
    rewrite Z.geb_leb in E. apply Z.leb_gt in E.
    assert (Hlt : FormatHits.position st < FormatHits.bits_per_record st)
      by (rewrite to_size_t_small in E by (rewrite SIZE_MODULUS_eq; lia);
          exact E).
    pose proof (update_next_hit_frame st) as [Hf1 Hf2].
    unfold bind, FormatHits.compare_and_advance in H.
    destruct (_ && _) in H.
    + destruct (FormatHits.update_next_hit st) as [[u|s] st1];
        [|discriminate]. cbn [snd] in *.
      destruct (FormatHits.position st1 + 1 >? LONG_MAX); [discriminate|].
      inversion H; subst; clear H. cbn.
      unfold FormatHits.bits_per_record in *. cbn. rewrite Hf1, Hf2. auto.
    + destruct (FormatHits.position st + 1 >? LONG_MAX); [discriminate|].
      inversion H; subst; clear H. cbn. auto.
  - (* R8 *)
    unfold FormatR8.read_bit in H.
    destruct (FormatR8.position st >=? FormatR8.bits_per_record st) eqn:E;
      [discriminate|].
    rewrite Z.geb_leb in E. apply Z.leb_gt in E.
    pose proof (update_run_length_base st) as Hbase.
    destruct (FormatR8.generated_1s st <? FormatR8.run_length_1s st);
      [|destruct (FormatR8.generated_0s st <? FormatR8.run_length_0s st);
        [|destruct (FormatR8.update_run_length st) as [[[|]|s] st1];
          try discriminate]];
      inversion H; subst; clear H; cbn [snd] in *;
      unfold FormatR8.advance, FormatR8.position, FormatR8.bits_per_record in *;
      cbn; rewrite ?Hbase;
      rewrite size_add_small by (rewrite SIZE_MODULUS_eq; lia);
      repeat split; auto.
Qed.

Lemma read_bits_advance (n : nat) :
  forall (r r' : reader) (bits : list bool),
    0 <= cursor r <= bits_per_record r -> bits_per_record r <= SSIZE_MAX ->
    read_bits read_bit n r = (Ret bits, r') ->
    cursor r' = cursor r + Z.of_nat n /\
    bits_per_record r' = bits_per_record r /\
    format_of r' = format_of r.
Proof.
  induction n as [|n IH]; intros r r' bits Hc Hb H.
  - cbn in H. inversion H; subst. repeat split; auto. lia.
  - cbn [read_bits] in H. unfold bind in H.
    destruct (read_bit r) as [[b|s] r1] eqn:E1; [|discriminate].
    destruct (read_bits read_bit n r1) as [[bs|s] r2] eqn:E2; [|discriminate].
    unfold ret in H. inversion H; subst; clear H.
    destruct (read_bit_advances r r1 b Hc Hb E1) as (Hlt & Hc1 & Hb1 & Hf1).
    destruct (IH r1 r' bs) as (Hc2 & Hb2 & Hf2); [lia | lia | exact E2 |].
    repeat split; try lia; congruence.
Qed.

(** C1 (amended).  Take a reader of any of the five formats at the start of
    a record and let [bits_per_record] calls of [read_bit] in a row succeed.
    Then [is_end_of_record] returns [true], and a further [read_bit] throws
    the end-of-record exception; only the 01 reader, which tests for the
    end of the file first, throws the end-of-file exception instead when
    the stream is exhausted as well.  (For B8 and R8, whose
    [is_end_of_record] may fetch from the stream, the further [read_bit]
    throws the same before and after that call.) *)
Theorem end_of_record_after_full_read (r r1 : reader) (bits : list bool) :
  fresh_record r ->
  read_bits read_bit (Z.to_nat (bits_per_record r)) r = (Ret bits, r1) ->
  match r1 with
  | Reader01 st =>
      is_end_of_record r1 = (Ret true, r1) /\
      read_bit r1 = (Throw (if Format01.payload st =? EOF
                            then PastEndOfFile else PastEndOfRecord), r1)
  | ReaderB8 _ | ReaderR8 _ =>
      read_bit r1 = (Throw PastEndOfRecord, r1) /\
      exists r2, is_end_of_record r1 = (Ret true, r2) /\
                 read_bit r2 = (Throw PastEndOfRecord, r2)
  | ReaderDets _ | ReaderHits _ =>
      is_end_of_record r1 = (Ret true, r1) /\
      read_bit r1 = (Throw PastEndOfRecord, r1)
  end.
Proof.
  intros (Hc & Hb) Hrun.
  destruct (read_bits_advance (Z.to_nat (bits_per_record r)) r r1 bits)
    as (Hc1 & Hb1 & Hf1); [lia | lia | exact Hrun |].
  rewrite Z2Nat.id in Hc1 by lia. rewrite Hc, Z.add_0_l in Hc1.
  rewrite <- Hb1 in Hc1, Hb. clear Hrun Hb1.
  assert (Hge : forall p q, p = q -> (p >=? q) = true)
    by (intros p q ->; rewrite Z.geb_leb; apply Z.leb_refl).
  pose proof SSIZE_MAX_eq as HS. pose proof SIZE_MODULUS_eq as HM.
  destruct r1 as [st | st | st | st | st];
    cbn [cursor bits_per_record is_end_of_record read_bit] in *;
    unfold dispatch.
  - (* 01 *)
    unfold Format01.is_end_of_record, Format01.read_bit.
    rewrite (Hge _ _ Hc1), !orb_true_r.
    split; [reflexivity|]. destruct (Format01.payload st =? EOF); reflexivity.
  - (* B8 *)
    unfold FormatB8.is_end_of_record, FormatB8.read_bit.
    rewrite (Hge _ _ Hc1). split; [reflexivity|].
    exists (ReaderB8 (FormatB8.maybe_update_payload st)).
    cbn [read_bit]. unfold dispatch, FormatB8.read_bit.
    unfold FormatB8.position, FormatB8.bits_per_record in *.
    rewrite maybe_update_payload_base, (Hge _ _ Hc1), orb_true_r.
    split; reflexivity.
  - (* DETS *)
    unfold FormatDets.is_end_of_record, MeasureRecordReader.base_is_end_of_record,
      FormatDets.as_base, FormatDets.read_bit.
    cbn [MeasureRecordReader.position MeasureRecordReader.bits_per_record].
    rewrite to_size_t_small by lia. rewrite (Hge _ _ Hc1).
    split; reflexivity.
  - (* Hits *)
    unfold FormatHits.is_end_of_record, MeasureRecordReader.base_is_end_of_record,
      FormatHits.as_base, FormatHits.read_bit.
    cbn [MeasureRecordReader.position MeasureRecordReader.bits_per_record].
    rewrite to_size_t_small by lia. rewrite (Hge _ _ Hc1).
    split; reflexivity.
  - (* R8 *)
    unfold FormatR8.is_end_of_record, FormatR8.read_bit.
    rewrite (Hge _ _ Hc1). split; [reflexivity|].
    exists (ReaderR8 st). cbn [read_bit]. unfold dispatch, FormatR8.read_bit.
    rewrite (Hge _ _ Hc1). split; reflexivity.
Qed.

Lemma end_of_record_after_full_read_witness :
  let r := ReaderHits (FormatHits.mk (MeasureRecordReader.mk 0 8)
                         (stream_of ("3,7" ++ nl)) char_comma 1 0) in
  let r1 := ReaderHits (FormatHits.mk (MeasureRecordReader.mk 0 8)
                          [] char_nl 7 8) in
  is_end_of_record r1 = (Ret true, r1) /\
  read_bit r1 = (Throw PastEndOfRecord, r1).
Proof.
  intros r r1.
  apply (end_of_record_after_full_read r r1
           [false; true; false; true; false; false; false; true]).
  - vm_compute. repeat split; discriminate.
  - vm_compute. reflexivity.
Defined.

(** C1 as stated fails for the 01 format.  A 01 reader for 2 bits per
    record on "01" with no newline returns two bits; [is_end_of_record]
    then answers [true], and the next [read_bit] throws the end-of-file
    exception, not the end-of-record one. *)
Lemma full_read_01_throws_end_of_file :
  exists r0,
    make (stream_of "01") SAMPLE_FORMAT_01 2 0 0 = Ret r0 /\
    exists r1,
      read_bits read_bit 2 r0 = (Ret [false; true], r1) /\
      is_end_of_record r1 = (Ret true, r1) /\
      read_bit r1 = (Throw PastEndOfFile, r1).
Proof. repeat run_step. Qed.

(** ** Bits in a byte buffer *)

Lemma bit_at_head (b : Z) (d : list Z) (i : nat) :
  (i < 8)%nat -> bit_at (b :: d) i = Z.testbit b (Z.of_nat i).
Proof.
  intros Hi. unfold bit_at.
  rewrite Nat.div_small, Nat.mod_small by exact Hi. reflexivity.
Qed.

Lemma bit_at_tail (b : Z) (d : list Z) (i : nat) :
  bit_at (b :: d) (8 + i) = bit_at d i.
Proof.
  unfold bit_at.
  replace (8 + i)%nat with (i + 1 * 8)%nat by lia.
  rewrite Nat.div_add, Nat.Div0.mod_add by discriminate.
  replace (i / 8 + 1)%nat with (S (i / 8)) by lia. reflexivity.
Qed.

Lemma pack_low (bits : list bool) :
  forall k j, 0 <= j < k -> Z.testbit (pack k bits) j = false.
Proof.
  induction bits as [|x xs IH]; intros k j Hj; cbn [pack].
  - apply Z.testbit_0_l.
  - rewrite Z.lor_spec, Z.shiftl_spec_low by lia.
    rewrite IH by lia. reflexivity.
Qed.

Lemma pack_spec (bits : list bool) :
  forall k (i : nat), 0 <= k ->
    Z.testbit (pack k bits) (k + Z.of_nat i) = nth i bits false.
Proof.
  induction bits as [|x xs IH]; intros k i Hk; cbn [pack].
  - rewrite Z.testbit_0_l. destruct i; reflexivity.
  - rewrite Z.lor_spec, Z.shiftl_spec by lia.
    replace (k + Z.of_nat i - k) with (Z.of_nat i) by lia.
    destruct i as [|i]; cbn [nth].
    + rewrite Z.add_0_r, pack_low by lia.
      rewrite orb_false_r. destruct x; reflexivity.
    + replace (k + Z.of_nat (S i)) with (k + 1 + Z.of_nat i) by lia.
      rewrite IH by lia.
      assert (Hx : Z.testbit (Z.b2z x) (Z.of_nat (S i)) = false).
      { destruct x; cbn [Z.b2z]; [|apply Z.testbit_0_l].
        rewrite Z.bits_above_log2; [reflexivity | lia | cbn; lia]. }
      rewrite Hx. reflexivity.
Qed.

Lemma nth_firstn_lt {A} (l : list A) (d : A) :
  forall n i, (i < n)%nat -> nth i (firstn n l) d = nth i l d.
Proof.
  induction l as [|x l IH]; intros n i Hi.
  - rewrite firstn_nil. reflexivity.
  - destruct n as [|n]; [lia|]. destruct i as [|i]; cbn; [reflexivity|].
    apply IH. lia.
Qed.

Lemma nth_skipn {A} (l : list A) (d : A) :
  forall n i, nth i (skipn n l) d = nth (n + i) l d.
Proof.
  induction l as [|x l IH]; intros n i.
  - rewrite skipn_nil. destruct i, n; reflexivity.
  - destruct n as [|n]; cbn; [reflexivity | apply IH].
Qed.

(** ** Readers as sources of bits *)

(** A reader of a single-record format seen as a source of bits: [pending]
    lists the bits the stream still holds for it, whatever the record size;
    [read_bit] hands out the first of them while the cursor is inside the
    record, and [is_end_of_record] tells whether the cursor has reached the
    record size or no bit is pending, without changing what is pending. *)
Section BitSource.

Context {S : Type}.
Variable base : S -> MeasureRecordReader.t.
Variable read_bit : M S bool.
Variable is_end_of_record : M S bool.
Variable pending : S -> list bool.
Variable inv : S -> Prop.

Let pos (st : S) : Z := MeasureRecordReader.position (base st).
Let bpr (st : S) : Z := MeasureRecordReader.bits_per_record (base st).

Hypothesis inv_range :
  forall st, inv st -> 0 <= pos st <= bpr st /\ bpr st <= SSIZE_MAX.

Hypothesis read_bit_next :
  forall st b rest,
    inv st -> pos st < bpr st -> pending st = b :: rest ->
    exists st', read_bit st = (Ret b, st') /\ inv st' /\ pending st' = rest /\
                base st' = MeasureRecordReader.mk (pos st + 1) (bpr st).

Hypothesis read_bit_dry :
  forall st,
    inv st -> pos st < bpr st -> pending st = [] ->
    exists st', read_bit st = (Throw PastEndOfFile, st').

Hypothesis is_end_of_record_spec :
  forall st,
    inv st ->
    exists st', is_end_of_record st
                = (Ret ((pos st >=? bpr st) || is_nil (pending st)), st') /\
                inv st' /\ pending st' = pending st /\ base st' = base st.

(** The number of bits a read of at most [room] bits delivers. *)
Definition deliverable (room : nat) (st : S) : nat :=
  Nat.min room (Nat.min (Z.to_nat (bpr st - pos st)) (length (pending st))).

(** Whether the record has ended once [m] more bits are read. *)
Definition ended_after (m : nat) (st : S) : bool :=
  (pos st + Z.of_nat m >=? bpr st) || is_nil (skipn m (pending st)).

Lemma ended_after_false (m : nat) (st : S) :
  ended_after m st = false ->
  pos st + Z.of_nat m < bpr st /\ (m < length (pending st))%nat.
Proof.
  unfold ended_after. intros H. apply orb_false_iff in H. destruct H as [H1 H2].
  rewrite Z.geb_leb in H1. apply Z.leb_gt in H1. split; [exact H1|].
  destruct (Nat.lt_ge_cases m (length (pending st))) as [Hlt | Hge]; [exact Hlt|].
  rewrite skipn_all2 in H2 by exact Hge. discriminate H2.
Qed.

Lemma ended_after_true (m : nat) (st : S) :
  inv st -> (m <= length (pending st))%nat -> pos st + Z.of_nat m <= bpr st ->
  ended_after m st = true ->
  m = Nat.min (Z.to_nat (bpr st - pos st)) (length (pending st)).
Proof.
  unfold ended_after. intros Hinv Hm Hp H.
  destruct (inv_range st Hinv) as [Hr _].
  apply orb_true_iff in H. destruct H as [H | H].
  - rewrite Z.geb_leb in H. apply Z.leb_le in H. lia.
  - assert (Hlen : length (skipn m (pending st)) = 0%nat)
      by (destruct (skipn m (pending st)); [reflexivity | discriminate H]).
    rewrite length_skipn in Hlen. lia.
Qed.

(** [read_bits] hands out the pending bits in order. *)
Lemma read_bits_pending (n : nat) :
  forall st,
    inv st -> (n <= Nat.min (Z.to_nat (bpr st - pos st)) (length (pending st)))%nat ->
    exists st', read_bits read_bit n st = (Ret (firstn n (pending st)), st') /\
                inv st' /\ pending st' = skipn n (pending st) /\
                base st' = MeasureRecordReader.mk (pos st + Z.of_nat n) (bpr st).
Proof.
  induction n as [|n IH]; intros st Hinv Hn.
  - exists st. cbn. unfold ret. repeat split; auto.
    rewrite Z.add_0_r. unfold pos, bpr. destruct (base st); reflexivity.
  - destruct (inv_range st Hinv) as [Hr Hs].
    destruct (pending st) as [|b rest] eqn:Hp; [cbn in Hn; lia|].
    destruct (read_bit_next st b rest Hinv) as (st1 & Hrd & Hinv1 & Hp1 & Hb1);
      [lia | exact Hp |].
    assert (Hpos1 : pos st1 = pos st + 1) by (unfold pos; rewrite Hb1; reflexivity).
    assert (Hbpr1 : bpr st1 = bpr st) by (unfold bpr; rewrite Hb1; reflexivity).
    destruct (IH st1 Hinv1) as (st2 & Hrun & Hinv2 & Hp2 & Hb2).
    { rewrite Hp1, Hpos1, Hbpr1. cbn [length] in Hn. lia. }
    exists st2. cbn [read_bits]. unfold bind. rewrite Hrd, Hrun. unfold ret.
    rewrite Hp1 in *. cbn [firstn skipn].
    repeat split; auto. rewrite Hb2, Hpos1, Hbpr1. f_equal. lia.
Qed.

(** The inner loop of the generic [read_bytes], entered with a bit
    available. *)
Lemma generic_bits_spec (todo : nat) :
  forall k b n st,
    inv st -> pos st < bpr st -> pending st <> [] -> 0 <= n <= pos st ->
    let m := deliverable todo st in
    exists st',
      MeasureRecordReader.read_bytes_bits read_bit is_end_of_record todo k b n st
      = (Ret (ended_after m st, n + Z.of_nat m),
         Z.lor b (pack k (firstn m (pending st))), st') /\
      inv st' /\ pending st' = skipn m (pending st) /\
      base st' = MeasureRecordReader.mk (pos st + Z.of_nat m) (bpr st) /\
      (ended_after m st = false -> m = todo).
Proof.
  induction todo as [|todo IH]; intros k b n st Hinv Hlt Hne Hn m.
  - exists st. subst m. unfold deliverable. cbn [Nat.min firstn pack].
    cbn [MeasureRecordReader.read_bytes_bits].
    unfold ended_after. cbn [skipn Z.of_nat]. rewrite !Z.add_0_r, Z.lor_0_r.
    assert (H1 : (pos st >=? bpr st) = false)
      by (rewrite Z.geb_leb; apply Z.leb_gt; exact Hlt).
    rewrite H1. destruct (pending st) as [|x P]; [congruence|]. cbn [is_nil orb].
    repeat split; auto. unfold pos, bpr. destruct (base st); reflexivity.
  - destruct (inv_range st Hinv) as [Hr Hs]. rewrite SSIZE_MAX_eq in Hs.
    destruct (pending st) as [|x P] eqn:Hp; [congruence|].
    destruct (read_bit_next st x P Hinv Hlt Hp) as (st1 & Hrd & Hinv1 & Hp1 & Hb1).
    assert (Hpos1 : pos st1 = pos st + 1) by (unfold pos; rewrite Hb1; reflexivity).
    assert (Hbpr1 : bpr st1 = bpr st) by (unfold bpr; rewrite Hb1; reflexivity).
    destruct (is_end_of_record_spec st1 Hinv1) as (st2 & Hend & Hinv2 & Hp2 & Hb2).
    assert (Hpos2 : pos st2 = pos st + 1) by (unfold pos; rewrite Hb2; exact Hpos1).
    assert (Hbpr2 : bpr st2 = bpr st) by (unfold bpr; rewrite Hb2; exact Hbpr1).
    cbn [MeasureRecordReader.read_bytes_bits]. rewrite Hrd, Hend.
    rewrite size_add_small by (rewrite SIZE_MODULUS_eq; lia).
    rewrite Hp1, Hpos1, Hbpr1.
    destruct ((pos st + 1 >=? bpr st) || is_nil P) eqn:He.
    + (* the record ends with this bit *)
      assert (Hm : m = 1%nat).
      { subst m. unfold deliverable. rewrite Hp. cbn [length].
        apply orb_true_iff in He. destruct He as [He | He].
        - rewrite Z.geb_leb in He. apply Z.leb_le in He. lia.
        - destruct P; [cbn [length]; lia | discriminate He]. }
      exists st2. rewrite Hm. cbn [firstn pack skipn].
      unfold ended_after. rewrite Hp. cbn [skipn Z.of_nat Pos.of_succ_nat].
      rewrite He, Z.lor_0_r.
      repeat split; auto; try congruence; try discriminate.
      all: try (rewrite Hb2, Hb1; reflexivity).
    + (* more bits of this byte follow *)
      apply orb_false_iff in He. destruct He as [He1 He2].
      rewrite Z.geb_leb in He1. apply Z.leb_gt in He1.
      assert (HP : P <> []) by (destruct P; [discriminate He2 | discriminate]).
      destruct (IH (k + 1) (Z.lor b (Z.shiftl (Z.b2z x) k)) (n + 1) st2 Hinv2)
        as (st3 & Hrun & Hinv3 & Hp3 & Hb3 & Hfull);
        [lia | congruence | lia |].
      assert (Hm : m = Datatypes.S (deliverable todo st2)).
      { subst m. unfold deliverable. rewrite Hp, Hp2, Hp1, Hpos2, Hbpr2.
        cbn [length]. lia. }
      assert (Hended : ended_after m st = ended_after (deliverable todo st2) st2).
      { rewrite Hm. unfold ended_after. rewrite Hp, Hp2, Hp1, Hpos2, Hbpr2.
        cbn [skipn]. f_equal. f_equal. lia. }
      exists st3. rewrite Hrun, Hended, Hm, Hp2, Hp1. cbn [firstn pack skipn].
      rewrite Z.lor_assoc.
      split; [|split; [exact Hinv3|split; [|split]]].
      * replace (n + Z.of_nat (Datatypes.S (deliverable todo st2)))
          with (n + 1 + Z.of_nat (deliverable todo st2)) by lia.
        reflexivity.
      * rewrite Hp3, Hp2, Hp1. reflexivity.
      * rewrite Hb3, Hpos2, Hbpr2. f_equal. lia.
      * intros Hf. f_equal. exact (Hfull Hf).
Qed.

(** The first [m] bits of a buffer are the first [m] of [bits]. *)
Definition agrees (data : list Z) (bits : list bool) (m : nat) : Prop :=
  forall i, (i < m)%nat -> bit_at data i = nth i bits false.

(** The loop over the buffer of the generic [read_bytes], entered with a
    bit available. *)
Lemma generic_loop_spec (data : list Z) :
  forall n st,
    inv st -> pos st < bpr st -> pending st <> [] -> 0 <= n <= pos st ->
    let m := deliverable (8 * length data) st in
    exists data' st',
      MeasureRecordReader.read_bytes_loop read_bit is_end_of_record data n st
      = (Ret (n + Z.of_nat m), data', st') /\
      length data' = length data /\
      agrees data' (pending st) m /\
      inv st' /\ pending st' = skipn m (pending st) /\
      base st' = MeasureRecordReader.mk (pos st + Z.of_nat m) (bpr st).
Proof.
  induction data as [|b0 data IH]; intros n st Hinv Hlt Hne Hn m.
  - exists [], st. subst m. unfold deliverable. cbn [length Nat.mul Nat.min].
    cbn [MeasureRecordReader.read_bytes_loop skipn Z.of_nat].
    rewrite !Z.add_0_r.
    split; [reflexivity|]. split; [reflexivity|].
    split; [intros i Hi; lia|]. split; [exact Hinv|]. split; [reflexivity|].
    unfold pos, bpr. destruct (base st); reflexivity.
  - destruct (inv_range st Hinv) as [Hr Hs].
    destruct (generic_bits_spec 8 0 0 n st Hinv Hlt Hne Hn)
      as (st1 & Hrun & Hinv1 & Hp1 & Hb1 & Hfull).
    set (m1 := deliverable 8 st) in *.
    assert (Hm1 : (m1 <= 8 /\ m1 <= length (pending st))%nat /\
                  pos st + Z.of_nat m1 <= bpr st)
      by (subst m1; unfold deliverable; lia).
    assert (Hhead : forall d i, (i < m1)%nat ->
              bit_at (Z.lor 0 (pack 0 (firstn m1 (pending st))) :: d) i
              = nth i (pending st) false).
    { intros d i Hi. rewrite bit_at_head by lia.
      rewrite Z.lor_0_l.
      rewrite <- (nth_firstn_lt (pending st) false m1 i Hi).
      apply (pack_spec (firstn m1 (pending st)) 0 i). lia. }
    cbn [MeasureRecordReader.read_bytes_loop]. rewrite Hrun.
    destruct (ended_after m1 st) eqn:He.
    + assert (Hm : m = m1).
      { pose proof (ended_after_true m1 st Hinv (proj2 (proj1 Hm1)) (proj2 Hm1) He)
          as Heq.
        subst m. unfold deliverable. cbn [length]. lia. }
      exists (Z.lor 0 (pack 0 (firstn m1 (pending st))) :: data), st1.
      rewrite Hm.
      split; [reflexivity|]. split; [reflexivity|].
      split; [intros i Hi; apply Hhead; exact Hi|].
      split; [exact Hinv1|]. split; [exact Hp1 | exact Hb1].
    + pose proof (Hfull eq_refl) as Hm8.
      destruct (ended_after_false m1 st He) as [Hpos8 Hlen8].
      assert (Hpos1 : pos st1 = pos st + Z.of_nat m1)
        by (unfold pos; rewrite Hb1; reflexivity).
      assert (Hbpr1 : bpr st1 = bpr st) by (unfold bpr; rewrite Hb1; reflexivity).
      assert (Hlen1 : length (pending st1) = (length (pending st) - m1)%nat)
        by (rewrite Hp1; apply length_skipn).
      destruct (IH (n + Z.of_nat m1) st1 Hinv1)
        as (d' & st2 & Hloop & Hlen & Hag & Hinv2 & Hp2 & Hb2).
      { lia. }
      { intros Hnil. rewrite Hnil in Hlen1. cbn [length] in Hlen1. lia. }
      { lia. }
      set (m2 := deliverable (8 * length data) st1) in *.
      assert (Hm : m = (m1 + m2)%nat).
      { subst m m2. unfold deliverable. rewrite Hlen1, Hpos1, Hbpr1.
        cbn [length]. lia. }
      exists (Z.lor 0 (pack 0 (firstn m1 (pending st))) :: d'), st2.
      rewrite Hloop, Hm.
      split; [f_equal; f_equal; f_equal; lia|].
      split; [cbn [length]; f_equal; exact Hlen|].
      split; [|split; [exact Hinv2|split]].
      * intros i Hi. destruct (Nat.lt_ge_cases i m1) as [Hi1 | Hi1].
        { apply Hhead. exact Hi1. }
        replace i with (8 + (i - 8))%nat by lia.
        rewrite bit_at_tail, Hag by lia.
        rewrite Hp1, nth_skipn. f_equal. lia.
      * rewrite Hp2, Hp1, skipn_skipn. f_equal. lia.
      * rewrite Hb2, Hpos1, Hbpr1. f_equal. lia.
Qed.

(** The generic [read_bytes] on a source with a bit available delivers as
    many pending bits as fit the buffer and the rest of the record. *)
Lemma generic_read_bytes_delivers (data : list Z) (st : S) :
  inv st -> pos st < bpr st -> pending st <> [] ->
  let m := deliverable (8 * length data) st in
  exists data' st',
    MeasureRecordReader.read_bytes base read_bit is_end_of_record data st
    = (Ret (Z.of_nat m), data', st') /\
    length data' = length data /\
    agrees data' (pending st) m.
Proof.
  intros Hinv Hlt Hne m. destruct (inv_range st Hinv) as [Hr Hs].
  destruct (generic_loop_spec data 0 st Hinv Hlt Hne)
    as (d' & st' & Hloop & Hlen & Hag & _); [fold (pos st); lia|].
  exists d', st'. unfold MeasureRecordReader.read_bytes.
  fold (pos st) (bpr st).
  assert (H1 : (pos st >=? bpr st) = false)
    by (rewrite Z.geb_leb; apply Z.leb_gt; exact Hlt).
  rewrite H1, Hloop. auto.
Qed.

(** With no bit pending inside the record, the generic [read_bytes] on a
    buffer that is not empty clears its first byte and throws. *)
Lemma generic_read_bytes_dry (b0 : Z) (data : list Z) (st : S) :
  inv st -> pos st < bpr st -> pending st = [] ->
  exists st',
    MeasureRecordReader.read_bytes base read_bit is_end_of_record (b0 :: data) st
    = (Throw PastEndOfFile, 0 :: data, st').
Proof.
  intros Hinv Hlt Hnil.
  destruct (read_bit_dry st Hinv Hlt Hnil) as (st' & Hrd).
  exists st'. unfold MeasureRecordReader.read_bytes. fold (pos st) (bpr st).
  assert (H1 : (pos st >=? bpr st) = false)
    by (rewrite Z.geb_leb; apply Z.leb_gt; exact Hlt).
  rewrite H1. cbn [MeasureRecordReader.read_bytes_loop
                     MeasureRecordReader.read_bytes_bits].
  rewrite Hrd. reflexivity.
Qed.

(** The generic [read_bytes] in every state: it delivers the deliverable
    bits, unless no bit is pending inside the record and the buffer is not
    empty, where it throws. *)
Lemma generic_read_bytes_cases (data : list Z) (st : S) :
  inv st ->
  let m := deliverable (8 * length data) st in
  (exists data' st',
     MeasureRecordReader.read_bytes base read_bit is_end_of_record data st
     = (Ret (Z.of_nat m), data', st') /\
     length data' = length data /\ agrees data' (pending st) m) \/
  (m = 0%nat /\
   exists b0 d0 st',
     data = b0 :: d0 /\
     MeasureRecordReader.read_bytes base read_bit is_end_of_record data st
     = (Throw PastEndOfFile, 0 :: d0, st')).
Proof.
  intros Hinv m. destruct (inv_range st Hinv) as [Hr Hs].
  destruct (Z_lt_ge_dec (pos st) (bpr st)) as [Hlt | Hge].
  - assert (Hcase : pending st = [] \/ pending st <> [])
      by (destruct (pending st); [left; reflexivity | right; discriminate]).
    destruct Hcase as [Hp | Hp].
    + destruct data as [|b0 d0].
      * left. exists [], st. unfold MeasureRecordReader.read_bytes.
        fold (pos st) (bpr st).
        assert (H1 : (pos st >=? bpr st) = false)
          by (rewrite Z.geb_leb; apply Z.leb_gt; exact Hlt).
        rewrite H1. subst m. unfold deliverable. cbn [length Nat.mul Nat.min].
        split; [reflexivity|]. split; [reflexivity|]. intros i Hi. lia.
      * right. split.
        { subst m. unfold deliverable. rewrite Hp. cbn [length]. lia. }
        destruct (generic_read_bytes_dry b0 d0 st Hinv Hlt Hp) as (st' & Hrun).
        exists b0, d0, st'. auto.
    + left. apply generic_read_bytes_delivers; assumption.
  - left. exists data, st. unfold MeasureRecordReader.read_bytes.
    fold (pos st) (bpr st).
    assert (H1 : (pos st >=? bpr st) = true)
      by (rewrite Z.geb_leb; apply Z.leb_le; lia).
    rewrite H1.
    assert (Hm : m = 0%nat) by (subst m; unfold deliverable; lia).
    rewrite Hm. split; [reflexivity|]. split; [reflexivity|]. intros i Hi. lia.
Qed.

End BitSource.


(** ** B8 as a source of bits *)

Lemma B8_inv_range (st : FormatB8.t) :
  B8_inv st ->
  0 <= MeasureRecordReader.position (FormatB8.base st)
    <= MeasureRecordReader.bits_per_record (FormatB8.base st) /\
  MeasureRecordReader.bits_per_record (FormatB8.base st) <= SSIZE_MAX.
Proof. intros (H1 & H2 & _). split; assumption. Qed.

Lemma stream_bits_cons (b : byte) (f : FILE) :
  stream_bits (b :: f) = bits_of 8 (byte_val b) ++ stream_bits f.
Proof. reflexivity. Qed.

Lemma length_bits_of (n : nat) : forall v, length (bits_of n v) = n.
Proof. induction n as [|n IH]; intros v; cbn; [reflexivity | now rewrite IH]. Qed.

Lemma length_stream_bits (f : FILE) : length (stream_bits f) = (8 * length f)%nat.
Proof.
  induction f as [|b f IH]; [reflexivity|].
  rewrite stream_bits_cons, length_app, length_bits_of, IH. cbn [length]. lia.
Qed.

(** [maybe_update_payload] keeps what is pending, and leaves the reader
    with unread payload bits exactly when a bit is pending. *)
Lemma maybe_update_payload_spec (st : FormatB8.t) :
  B8_inv st ->
  let st1 := FormatB8.maybe_update_payload st in
  B8_inv st1 /\ B8_pending st1 = B8_pending st /\
  FormatB8.base st1 = FormatB8.base st /\
  (B8_pending st = [] ->
   FormatB8.bits_available st1 = 0 /\ FormatB8.payload st1 = EOF) /\
  (B8_pending st <> [] ->
   0 < FormatB8.bits_available st1 /\ 0 <= FormatB8.payload st1).
Proof.
  intros (Hpos & Hbits & Hba & Hpay) st1. subst st1.
  unfold FormatB8.maybe_update_payload.
  destruct (FormatB8.bits_available st >? 0) eqn:Hgt.
  - apply Z.gtb_lt in Hgt.
    split; [repeat split; auto; lia|]. split; [reflexivity|].
    split; [reflexivity|]. split; [|auto].
    unfold B8_pending.
    destruct (Z.to_nat (FormatB8.bits_available st)) eqn:Hn; [lia|].
    discriminate.
  - rewrite Z.gtb_ltb in Hgt. apply Z.ltb_ge in Hgt.
    assert (Hz : FormatB8.bits_available st = 0) by lia.
    unfold B8_pending. rewrite Hz. cbn [Z.to_nat bits_of app].
    destruct (FormatB8.in_ st) as [|c f] eqn:Hin; cbn [getc].
    + change (negb (EOF =? EOF)) with false. cbn iota.
      unfold B8_inv, FormatB8.position, FormatB8.bits_per_record in *.
      cbn [FormatB8.base FormatB8.bits_available FormatB8.payload FormatB8.in_
           Z.to_nat bits_of app stream_bits flat_map].
      split; [repeat split; auto; lia|]. split; [reflexivity|].
      split; [reflexivity|]. split; [auto | congruence].
    + rewrite byte_val_not_EOF. cbn [negb].
      pose proof (byte_val_range c) as Hc.
      unfold B8_inv, FormatB8.position, FormatB8.bits_per_record in *.
      cbn [FormatB8.base FormatB8.bits_available FormatB8.payload FormatB8.in_].
      change (Z.to_nat 8) with 8%nat.
      split; [repeat split; auto; lia|]. split; [reflexivity|].
      split; [reflexivity|]. split; [discriminate | intros _; lia].
Qed.

Lemma B8_read_bit_next (st : FormatB8.t) (b : bool) (rest : list bool) :
  B8_inv st -> FormatB8.position st < FormatB8.bits_per_record st ->
  B8_pending st = b :: rest ->
  exists st', FormatB8.read_bit st = (Ret b, st') /\ B8_inv st' /\
              B8_pending st' = rest /\
              FormatB8.base st'
              = MeasureRecordReader.mk (FormatB8.position st + 1)
                                       (FormatB8.bits_per_record st).
Proof.
  intros Hinv Hlt Hp.
  destruct (maybe_update_payload_spec st Hinv)
    as ((Hpos1 & Hbits1 & Hba1 & _) & Hp1 & Hb1 & _ & Hsome).
  destruct Hsome as [Hba Hpay]; [congruence|].
  set (st1 := FormatB8.maybe_update_payload st) in *.
  unfold FormatB8.read_bit. fold st1.
  assert (H1 : (FormatB8.position st >=? FormatB8.bits_per_record st) = false)
    by (rewrite Z.geb_leb; apply Z.leb_gt; exact Hlt).
  assert (H2 : (FormatB8.payload st1 =? EOF) = false)
    by (apply Z.eqb_neq; unfold EOF; lia).
  rewrite H1, H2.
  assert (Hsame : FormatB8.position st1 = FormatB8.position st /\
                  FormatB8.bits_per_record st1 = FormatB8.bits_per_record st)
    by (unfold FormatB8.position, FormatB8.bits_per_record; rewrite Hb1; auto).
  destruct Hsame as [Hs1 Hs2]. rewrite Hs1, Hs2.
  rewrite SSIZE_MAX_eq in *.
  rewrite size_add_small by (rewrite SIZE_MODULUS_eq; lia).
  rewrite Z.mod_small by lia.
  rewrite <- Hp1 in Hp. unfold B8_pending in Hp.
  replace (Z.to_nat (FormatB8.bits_available st1))
    with (S (Z.to_nat (FormatB8.bits_available st1 - 1))) in Hp by lia.
  cbn [bits_of app] in Hp. inversion Hp; subst b rest.
  eexists. split; [reflexivity|].
  unfold B8_pending.
  cbn [FormatB8.bits_available FormatB8.payload FormatB8.in_ FormatB8.base].
  split; [|split; reflexivity].
  unfold B8_inv, FormatB8.position, FormatB8.bits_per_record.
  cbn [FormatB8.bits_available FormatB8.payload FormatB8.in_ FormatB8.base
       MeasureRecordReader.position MeasureRecordReader.bits_per_record].
  unfold FormatB8.position, FormatB8.bits_per_record in *.
  repeat split; rewrite ?SSIZE_MAX_eq; try lia.
  intros _. rewrite Z.shiftr_nonneg. exact Hpay.
Qed.

Lemma B8_read_bit_dry (st : FormatB8.t) :
  B8_inv st -> FormatB8.position st < FormatB8.bits_per_record st ->
  B8_pending st = [] ->
  exists st', FormatB8.read_bit st = (Throw PastEndOfFile, st').
Proof.
  intros Hinv Hlt Hp.
  destruct (maybe_update_payload_spec st Hinv) as (_ & _ & _ & Hnone & _).
  destruct (Hnone Hp) as [_ Hpay].
  unfold FormatB8.read_bit.
  assert (H1 : (FormatB8.position st >=? FormatB8.bits_per_record st) = false)
    by (rewrite Z.geb_leb; apply Z.leb_gt; exact Hlt).
  rewrite H1, Hpay. eexists. reflexivity.
Qed.

Lemma B8_is_end_of_record_spec (st : FormatB8.t) :
  B8_inv st ->
  exists st',
    FormatB8.is_end_of_record st
    = (Ret ((FormatB8.position st >=? FormatB8.bits_per_record st)
            || is_nil (B8_pending st)), st') /\
    B8_inv st' /\ B8_pending st' = B8_pending st /\
    FormatB8.base st' = FormatB8.base st.
Proof.
  intros Hinv.
  destruct (maybe_update_payload_spec st Hinv)
    as (Hinv1 & Hp1 & Hb1 & Hnone & Hsome).
  set (st1 := FormatB8.maybe_update_payload st) in *.
  exists st1. unfold FormatB8.is_end_of_record. fold st1.
  split; [|auto].
  unfold FormatB8.position, FormatB8.bits_per_record. rewrite Hb1.
  rewrite orb_comm. f_equal. f_equal. f_equal.
  destruct (B8_pending st) as [|x P] eqn:Hp.
  - destruct (Hnone eq_refl) as [-> ->]. reflexivity.
  - destruct Hsome as [Hba _]; [discriminate|].
    assert (Hz : (FormatB8.bits_available st1 =? 0) = false)
      by (apply Z.eqb_neq; lia).
    rewrite Hz. reflexivity.
Qed.

Lemma nth_bits_of (n : nat) :
  forall v i, (i < n)%nat -> nth i (bits_of n v) false = Z.testbit v (Z.of_nat i).
Proof.
  induction n as [|n IH]; intros v i Hi; [lia|].
  cbn [bits_of]. destruct i as [|i]; cbn [nth].
  - symmetry. apply Z.bit0_odd.
  - rewrite IH by lia. rewrite Z.shiftr_spec by lia. f_equal. lia.
Qed.

(** A buffer that starts with the bytes of a stream holds its bits. *)
Lemma bit_at_stream (f : FILE) :
  forall (rest : list Z) (i : nat),
    (i < 8 * length f)%nat ->
    bit_at (map byte_val f ++ rest) i = nth i (stream_bits f) false.
Proof.
  induction f as [|b f IH]; intros rest i Hi; [cbn in Hi; lia|].
  rewrite stream_bits_cons. cbn [map app].
  destruct (Nat.lt_ge_cases i 8) as [Hlt | Hge].
  - rewrite bit_at_head by exact Hlt.
    rewrite app_nth1 by (rewrite length_bits_of; exact Hlt).
    symmetry. apply nth_bits_of. exact Hlt.
  - replace i with (8 + (i - 8))%nat at 1 by lia.
    rewrite bit_at_tail.
    rewrite app_nth2 by (rewrite length_bits_of; exact Hge).
    rewrite length_bits_of. apply IH. cbn [length] in Hi. lia.
Qed.

Lemma stream_bits_firstn (f : FILE) (k i : nat) :
  (i < 8 * k)%nat -> (k <= length f)%nat ->
  nth i (stream_bits (firstn k f)) false = nth i (stream_bits f) false.
Proof.
  intros Hi Hk.
  rewrite <- (firstn_skipn k f) at 2.
  unfold stream_bits at 2. rewrite flat_map_app. fold (stream_bits (firstn k f)).
  rewrite app_nth1; [reflexivity|].
  rewrite length_stream_bits, length_firstn. lia.
Qed.

Lemma fread_spec (n : nat) :
  forall (dst : list Z) (f : FILE),
    (n <= length dst)%nat ->
    let k := Nat.min n (length f) in
    fread dst n f
    = (Z.of_nat k, map byte_val (firstn k f) ++ skipn k dst, skipn k f).
Proof.
  induction n as [|n IH]; intros dst f Hn k; subst k.
  - destruct dst, f; reflexivity.
  - destruct dst as [|d dst]; [cbn in Hn; lia|].
    destruct f as [|b f]; [reflexivity|].
    cbn [fread length Nat.min]. rewrite IH by (cbn [length] in Hn; lia).
    cbn [firstn skipn map app]. f_equal. f_equal. lia.
Qed.

(** The bulk path of B8 [read_bytes], taken when no payload bit is left
    over, delivers the same count as a bit-by-bit read would, and the bits
    of the stream bytes it copies. *)
Lemma B8_bulk_delivers (data : list Z) (st : FormatB8.t) :
  B8_inv st -> FormatB8.bits_available st = 0 ->
  FormatB8.position st < FormatB8.bits_per_record st ->
  8 * Z.of_nat (length data) < SIZE_MODULUS ->
  let m := deliverable FormatB8.base B8_pending (8 * length data) st in
  exists data' st',
    FormatB8.read_bytes data st = (Ret (Z.of_nat m), data', st') /\
    length data' = length data /\
    agrees data' (B8_pending st) m.
Proof.
  intros (Hpos & Hbits & Hba & _) Hz Hlt Hlen m.
  pose proof SIZE_MODULUS_eq as HM. pose proof SSIZE_MAX_eq as HS.
  assert (Hpend : B8_pending st = stream_bits (FormatB8.in_ st))
    by (unfold B8_pending; rewrite Hz; reflexivity).
  unfold FormatB8.read_bytes.
  assert (H1 : (FormatB8.position st >=? FormatB8.bits_per_record st) = false)
    by (rewrite Z.geb_leb; apply Z.leb_gt; exact Hlt).
  rewrite H1, Hz. change (0 >? 0) with false. cbv iota.
  unfold size_mul, size_sub, size_add.
  rewrite (to_size_t_small (8 * Z.of_nat (length data))) by lia.
  rewrite (to_size_t_small (FormatB8.bits_per_record st - FormatB8.position st))
    by lia.
  set (n_bits := Z.min (8 * Z.of_nat (length data))
                       (FormatB8.bits_per_record st - FormatB8.position st)).
  assert (Hnb : 0 <= n_bits <= 8 * Z.of_nat (length data)) by (subst n_bits; lia).
  rewrite (to_size_t_small (n_bits + 7)) by lia.
  assert (Hceil : 0 <= (n_bits + 7) / 8 <= Z.of_nat (length data) /\
                  n_bits <= 8 * ((n_bits + 7) / 8) <= n_bits + 7).
  { pose proof (Z.div_mod (n_bits + 7) 8) as Hd.
    pose proof (Z.mod_pos_bound (n_bits + 7) 8) as Hb. lia. }
  rewrite fread_spec by lia.
  set (k := Nat.min (Z.to_nat ((n_bits + 7) / 8)) (length (FormatB8.in_ st))).
  rewrite (to_size_t_small (8 * Z.of_nat k)) by (subst k; lia).
  assert (Hm : Z.min (8 * Z.of_nat k) n_bits = Z.of_nat m).
  { subst m k. unfold deliverable. rewrite Hpend, length_stream_bits.
    fold (FormatB8.position st) (FormatB8.bits_per_record st).
    subst n_bits. lia. }
  rewrite Hm. do 2 eexists. split; [reflexivity|].
  split.
  - rewrite length_app, length_map, length_firstn, length_skipn. subst k. lia.
  - intros i Hi. rewrite Hpend.
    assert (Hik : (i < 8 * k)%nat) by lia.
    rewrite <- (stream_bits_firstn (FormatB8.in_ st) k i Hik) by (subst k; lia).
    rewrite <- (bit_at_stream (firstn k (FormatB8.in_ st))
                  (skipn k data) i); [reflexivity|].
    rewrite length_firstn. subst k. lia.
Qed.

(** ** R8: run descriptors *)

Lemma run_loop_runs (f : FILE) :
  forall (acc : Z) (b : byte) (open : bool),
    0 <= acc ->
    acc + 255 * Z.of_nat (S (length f)) < SIZE_MODULUS ->
    exists run r' f2,
      FormatR8.run_loop acc (byte_val b) f = (run, r', f2) /\
      let R := if r' >? 0 then size_add run r' else run in
      runs open acc (b :: f) = R :: runs false 0 f2 /\
      acc <= R <= acc + 255 * (Z.of_nat (S (length f)) - Z.of_nat (length f2)) /\
      (length f2 <= length f)%nat.
Proof.
  pose proof SIZE_MODULUS_eq as HM.
  induction f as [|b' f IH]; intros acc b open Hacc Hbound;
    pose proof (byte_val_range b) as Hb;
    cbn [FormatR8.run_loop runs];
    destruct (byte_val b =? 255) eqn:Hff.
  - exists (size_add acc 255), EOF, [].
    split; [reflexivity|]. cbn zeta. change (EOF >? 0) with false. cbv iota.
    rewrite size_add_small by (cbn [length] in Hbound; lia).
    cbn [length] in *. split; [reflexivity|]. split; lia.
  - apply Z.eqb_neq in Hff. exists acc, (byte_val b), [].
    split; [reflexivity|]. cbn zeta. cbn [length] in *.
    destruct (byte_val b >? 0) eqn:Hpos.
    + rewrite size_add_small by lia. split; [reflexivity|]. split; lia.
    + rewrite Z.gtb_ltb in Hpos. apply Z.ltb_ge in Hpos.
      replace (acc + byte_val b) with acc by lia.
      split; [reflexivity|]. split; lia.
  - rewrite size_add_small by (cbn [length] in Hbound; lia).
    destruct (IH (acc + 255) b' true) as (run & r' & f2 & Hrun & Hruns & Hr & Hl);
      [lia | cbn [length] in Hbound |- *; lia |].
    exists run, r', f2. split; [exact Hrun|]. cbn zeta in *.
    split; [exact Hruns|]. cbn [length] in *. split; lia.
  - apply Z.eqb_neq in Hff. exists acc, (byte_val b), (b' :: f).
    split; [reflexivity|]. cbn zeta. cbn [length] in *.
    destruct (byte_val b >? 0) eqn:Hpos.
    + rewrite size_add_small by lia. split; [reflexivity|]. split; lia.
    + rewrite Z.gtb_ltb in Hpos. apply Z.ltb_ge in Hpos.
      replace (acc + byte_val b) with acc by lia.
      split; [reflexivity|]. split; lia.
Qed.

(** [update_run_length] on a stream that is not exhausted takes the bytes
    of the first descriptor and installs its run. *)
Lemma update_run_length_some (st : FormatR8.t) (b : byte) (f : FILE) :
  FormatR8.in_ st = b :: f ->
  255 * Z.of_nat (length (FormatR8.in_ st)) < SIZE_MODULUS ->
  exists R rest,
    descriptors (FormatR8.in_ st) = R :: descriptors rest /\
    0 <= R <= 255 * (Z.of_nat (length (FormatR8.in_ st)) - Z.of_nat (length rest)) /\
    (length rest < length (FormatR8.in_ st))%nat /\
    FormatR8.update_run_length st
    = (Ret true, FormatR8.mk (FormatR8.base st) rest R 1 0 0).
Proof.
  intros Hin Hbound. rewrite Hin in Hbound |- *. cbn [length] in Hbound.
  destruct (run_loop_runs f 0 b false) as (run & r' & f2 & Hrun & Hruns & Hr & Hl);
    [lia | lia |].
  cbn zeta in *.
  exists (if r' >? 0 then size_add run r' else run), f2.
  unfold descriptors. split; [exact Hruns|].
  split; [cbn [length] in *; lia|]. split; [cbn [length]; lia|].
  unfold FormatR8.update_run_length. rewrite Hin. cbn [getc].
  rewrite byte_val_not_EOF, Hrun. reflexivity.
Qed.

Lemma update_run_length_none (st : FormatR8.t) :
  FormatR8.in_ st = [] -> FormatR8.update_run_length st = (Ret false, st).
Proof.
  intros Hin. unfold FormatR8.update_run_length. rewrite Hin. cbn [getc].
  change (EOF =? EOF) with true. cbv iota.
  destruct st; cbn in *; subst; reflexivity.
Qed.

(** ** R8 as a source of bits *)

Lemma R8_inv_range (st : FormatR8.t) :
  R8_inv st ->
  0 <= MeasureRecordReader.position (FormatR8.base st)
    <= MeasureRecordReader.bits_per_record (FormatR8.base st) /\
  MeasureRecordReader.bits_per_record (FormatR8.base st) <= SSIZE_MAX.
Proof. intros (H1 & H2 & _). split; assumption. Qed.

Lemma ones_pos (n : Z) : 0 < n -> ones n = true :: ones (n - 1).
Proof.
  intros Hn. unfold ones.
  replace (Z.to_nat n) with (S (Z.to_nat (n - 1))) by lia. reflexivity.
Qed.

Lemma zeros_pos (n : Z) : 0 < n -> zeros n = false :: zeros (n - 1).
Proof.
  intros Hn. unfold zeros.
  replace (Z.to_nat n) with (S (Z.to_nat (n - 1))) by lia. reflexivity.
Qed.

Lemma ones_nonpos (n : Z) : n <= 0 -> ones n = [].
Proof. intros Hn. unfold ones. replace (Z.to_nat n) with 0%nat by lia. reflexivity. Qed.

Lemma zeros_nonpos (n : Z) : n <= 0 -> zeros n = [].
Proof. intros Hn. unfold zeros. replace (Z.to_nat n) with 0%nat by lia. reflexivity. Qed.

Ltac R8_fields :=
  cbn [FormatR8.base FormatR8.in_ FormatR8.run_length_0s FormatR8.run_length_1s
       FormatR8.generated_0s FormatR8.generated_1s
       MeasureRecordReader.position MeasureRecordReader.bits_per_record] in *.

Ltac R8_unfold :=
  unfold R8_pending, R8_inv, R8_quiet, FormatR8.advance,
    FormatR8.position, FormatR8.bits_per_record in *;
  R8_fields.

Lemma R8_read_bit_next_quiet (st : FormatR8.t) (b : bool) (rest : list bool) :
  R8_inv st -> FormatR8.position st < FormatR8.bits_per_record st ->
  R8_pending st = b :: rest ->
  exists st', FormatR8.read_bit st = (Ret b, st') /\ R8_inv st' /\
              R8_pending st' = rest /\
              FormatR8.base st'
              = MeasureRecordReader.mk (FormatR8.position st + 1)
                                       (FormatR8.bits_per_record st) /\
              R8_quiet st'.
Proof.
  intros Hinv Hlt Hp.
  pose proof SIZE_MODULUS_eq as HM. pose proof SSIZE_MAX_eq as HS.
  unfold FormatR8.read_bit.
  assert (H1 : (FormatR8.position st >=? FormatR8.bits_per_record st) = false)
    by (rewrite Z.geb_leb; apply Z.leb_gt; exact Hlt).
  rewrite H1.
  destruct (FormatR8.generated_1s st <? FormatR8.run_length_1s st) eqn:H1s.
  - (* a 1 of the current run *)
    apply Z.ltb_lt in H1s. R8_unfold.
    destruct Hinv as (Hpos & Hbits & Hg0 & Hg1 & Hr0 & Hr1 & Hlen).
    rewrite ones_pos in Hp by lia. cbn [app] in Hp. inversion Hp; subst b rest.
    eexists. split; [reflexivity|]. R8_fields.
    rewrite !size_add_small by lia. rewrite Z.add_0_r.
    replace (FormatR8.run_length_1s st - (FormatR8.generated_1s st + 1))
      with (FormatR8.run_length_1s st - FormatR8.generated_1s st - 1) by lia.
    repeat split; try lia.
  - apply Z.ltb_ge in H1s.
    destruct (FormatR8.generated_0s st <? FormatR8.run_length_0s st) eqn:H0s.
    + (* a 0 of the current run *)
      apply Z.ltb_lt in H0s. R8_unfold.
      destruct Hinv as (Hpos & Hbits & Hg0 & Hg1 & Hr0 & Hr1 & Hlen).
      rewrite ones_nonpos in Hp by lia. rewrite zeros_pos in Hp by lia.
      cbn [app] in Hp. inversion Hp; subst b rest.
      eexists. split; [reflexivity|]. R8_fields.
      rewrite !size_add_small by lia. rewrite Z.add_0_r.
      rewrite (ones_nonpos (FormatR8.run_length_1s st - FormatR8.generated_1s st))
        by lia.
      replace (FormatR8.run_length_0s st - (FormatR8.generated_0s st + 1))
        with (FormatR8.run_length_0s st - FormatR8.generated_0s st - 1) by lia.
      repeat split; try lia.
    + (* the 1 that opens the next descriptor *)
      apply Z.ltb_ge in H0s.
      destruct (FormatR8.in_ st) as [|c f] eqn:Hin.
      { unfold R8_pending in Hp. rewrite Hin in Hp.
        rewrite ones_nonpos, zeros_nonpos in Hp by lia. discriminate Hp. }
      destruct (update_run_length_some st c f Hin) as (R & f2 & Hd & HR & Hl & Hup).
      { destruct Hinv as (_ & _ & _ & _ & _ & _ & Hlen). lia. }
      rewrite Hup. unfold R8_pending in Hp. rewrite Hd in Hp.
      rewrite ones_nonpos, zeros_nonpos in Hp by lia.
      cbn [app one_then_zeros flat_map] in Hp. inversion Hp; subst b rest.
      eexists. split; [reflexivity|]. R8_unfold.
      destruct Hinv as (Hpos & Hbits & Hg0 & Hg1 & Hr0 & Hr1 & Hlen).
      rewrite Hin in *. cbn [length] in *.
      rewrite !size_add_small by lia.
      change (1 - (0 + 1)) with 0. rewrite Z.add_0_l, ones_nonpos by lia.
      rewrite Z.sub_0_r. cbn [app].
      repeat split; try lia.
Qed.

Lemma R8_read_bit_next (st : FormatR8.t) (b : bool) (rest : list bool) :
  R8_inv st -> FormatR8.position st < FormatR8.bits_per_record st ->
  R8_pending st = b :: rest ->
  exists st', FormatR8.read_bit st = (Ret b, st') /\ R8_inv st' /\
              R8_pending st' = rest /\
              FormatR8.base st'
              = MeasureRecordReader.mk (FormatR8.position st + 1)
                                       (FormatR8.bits_per_record st).
Proof.
  intros Hinv Hlt Hp.
  destruct (R8_read_bit_next_quiet st b rest Hinv Hlt Hp)
    as (st' & H1 & H2 & H3 & H4 & _).
  exists st'. auto.
Qed.

Lemma runs_nonempty (f : FILE) :
  forall open acc, open = true \/ f <> [] -> runs open acc f <> [].
Proof.
  induction f as [|c f IH]; intros open acc Hor; cbn [runs].
  - destruct Hor as [-> | Hne]; [discriminate | congruence].
  - destruct (byte_val c =? 255); [|discriminate].
    apply IH. left. reflexivity.
Qed.

Lemma R8_pending_nil (st : FormatR8.t) :
  R8_pending st = [] ->
  FormatR8.run_length_1s st <= FormatR8.generated_1s st /\
  FormatR8.run_length_0s st <= FormatR8.generated_0s st /\
  FormatR8.in_ st = [].
Proof.
  unfold R8_pending. intros Hp.
  apply app_eq_nil in Hp. destruct Hp as [H1 Hp].
  apply app_eq_nil in Hp. destruct Hp as [H0 Hd].
  split; [|split].
  - unfold ones in H1.
    destruct (Z.to_nat (FormatR8.run_length_1s st - FormatR8.generated_1s st))
      eqn:E; [lia | discriminate H1].
  - unfold zeros in H0.
    destruct (Z.to_nat (FormatR8.run_length_0s st - FormatR8.generated_0s st))
      eqn:E; [lia | discriminate H0].
  - destruct (FormatR8.in_ st) as [|c f]; [reflexivity|]. exfalso.
    unfold descriptors in Hd.
    destruct (runs false 0 (c :: f)) eqn:Hr;
      [|discriminate Hd].
    apply (runs_nonempty (c :: f) false 0); [right; discriminate | exact Hr].
Qed.

Lemma R8_read_bit_dry (st : FormatR8.t) :
  R8_inv st -> FormatR8.position st < FormatR8.bits_per_record st ->
  R8_pending st = [] ->
  exists st', FormatR8.read_bit st = (Throw PastEndOfFile, st').
Proof.
  intros Hinv Hlt Hp. destruct (R8_pending_nil st Hp) as (H1 & H0 & Hin).
  unfold FormatR8.read_bit.
  assert (Ha : (FormatR8.position st >=? FormatR8.bits_per_record st) = false)
    by (rewrite Z.geb_leb; apply Z.leb_gt; exact Hlt).
  assert (Hb : (FormatR8.generated_1s st <? FormatR8.run_length_1s st) = false)
    by (apply Z.ltb_ge; exact H1).
  assert (Hc : (FormatR8.generated_0s st <? FormatR8.run_length_0s st) = false)
    by (apply Z.ltb_ge; exact H0).
  rewrite Ha, Hb, Hc, (update_run_length_none st Hin). eexists. reflexivity.
Qed.

Lemma is_nil_app_cons {A} (l1 l2 : list A) (x : A) : is_nil (l1 ++ x :: l2) = false.
Proof. destruct l1; reflexivity. Qed.

Lemma R8_is_end_of_record_spec (st : FormatR8.t) :
  R8_inv st ->
  exists st',
    FormatR8.is_end_of_record st
    = (Ret ((FormatR8.position st >=? FormatR8.bits_per_record st)
            || is_nil (R8_pending st)), st') /\
    R8_inv st' /\ R8_pending st' = R8_pending st /\
    FormatR8.base st' = FormatR8.base st.
Proof.
  intros Hinv. pose proof SIZE_MODULUS_eq as HM. pose proof SSIZE_MAX_eq as HS.
  unfold FormatR8.is_end_of_record.
  destruct (FormatR8.position st >=? FormatR8.bits_per_record st) eqn:Ha;
    [exists st; cbn [orb]; auto|].
  cbn [orb].
  destruct (FormatR8.generated_0s st <? FormatR8.run_length_0s st) eqn:H0s.
  { apply Z.ltb_lt in H0s. exists st. split; [|auto].
    unfold R8_pending. rewrite zeros_pos by lia. cbn [app].
    rewrite is_nil_app_cons. reflexivity. }
  apply Z.ltb_ge in H0s.
  destruct (FormatR8.generated_1s st <? FormatR8.run_length_1s st) eqn:H1s.
  { apply Z.ltb_lt in H1s. exists st. split; [|auto].
    unfold R8_pending. rewrite ones_pos by lia. reflexivity. }
  apply Z.ltb_ge in H1s.
  destruct (FormatR8.in_ st) as [|c f] eqn:Hin.
  - rewrite (update_run_length_none st Hin). exists st. split; [|auto].
    unfold R8_pending. rewrite Hin, ones_nonpos, zeros_nonpos by lia. reflexivity.
  - destruct (update_run_length_some st c f Hin) as (R & f2 & Hd & HR & Hl & Hup).
    { destruct Hinv as (_ & _ & _ & _ & _ & _ & Hlen). lia. }
    rewrite Hup. exists (FormatR8.mk (FormatR8.base st) f2 R 1 0 0).
    split; [|split; [|split; [|reflexivity]]].
    + unfold R8_pending. rewrite Hd, ones_nonpos, zeros_nonpos by lia. reflexivity.
    + R8_unfold. destruct Hinv as (Hpos & Hbits & Hg0 & Hg1 & Hr0 & Hr1 & Hlen).
      rewrite Hin in *. cbn [length] in *. repeat split; try lia.
    + unfold R8_pending. R8_fields. rewrite Hd.
      rewrite (ones_nonpos (FormatR8.run_length_1s st - FormatR8.generated_1s st)),
        (zeros_nonpos (FormatR8.run_length_0s st - FormatR8.generated_0s st)) by lia.
      rewrite !Z.sub_0_r. change (ones 1) with [true].
      unfold one_then_zeros. cbn [app flat_map]. reflexivity.
Qed.

(** ** The bulk path of R8 [read_bytes] *)

Lemma bit_at_packed (P : list bool) (m : nat) (d : list Z) (i : nat) :
  (i < m)%nat -> (m <= 8)%nat ->
  bit_at (Z.lor 0 (pack 0 (firstn m P)) :: d) i = nth i P false.
Proof.
  intros Hi Hm. rewrite bit_at_head by lia. rewrite Z.lor_0_l.
  rewrite <- (nth_firstn_lt P false m i Hi).
  apply (pack_spec (firstn m P) 0 i). lia.
Qed.

Lemma base_eta (b : MeasureRecordReader.t) :
  b = MeasureRecordReader.mk (MeasureRecordReader.position b)
                             (MeasureRecordReader.bits_per_record b).
Proof. destruct b; reflexivity. Qed.

(** The loop over [k] of the overriding [read_bytes]. *)
Lemma R8_bits_spec (todo : nat) :
  forall k b n st,
    R8_inv st -> 0 <= n <= FormatR8.position st ->
    let m := deliverable FormatR8.base R8_pending todo st in
    exists st',
      FormatR8.read_bytes_bits todo k b n st
      = (Ret (negb (m =? todo)%nat, n + Z.of_nat m),
         Z.lor b (pack k (firstn m (R8_pending st))), st') /\
      R8_inv st' /\ R8_pending st' = skipn m (R8_pending st) /\
      FormatR8.base st'
      = MeasureRecordReader.mk (FormatR8.position st + Z.of_nat m)
                               (FormatR8.bits_per_record st) /\
      (R8_quiet st \/ (0 < todo)%nat -> m = todo -> R8_quiet st').
Proof.
  pose proof SIZE_MODULUS_eq as HM. pose proof SSIZE_MAX_eq as HS.
  induction todo as [|todo IH]; intros k b n st Hinv Hn m.
  - exists st. subst m. unfold deliverable. cbn [Nat.min firstn pack skipn].
    cbn [FormatR8.read_bytes_bits Nat.eqb negb Z.of_nat].
    rewrite !Z.add_0_r, Z.lor_0_r.
    split; [reflexivity|]. split; [exact Hinv|]. split; [reflexivity|].
    split; [apply base_eta|]. intros [Hq | Hq] _; [exact Hq | lia].
  - destruct (R8_inv_range st Hinv) as [Hr Hs].
    fold (FormatR8.position st) (FormatR8.bits_per_record st) in Hr, Hs.
    destruct (R8_is_end_of_record_spec st Hinv) as (st1 & Hend & Hinv1 & Hp1 & Hb1).
    cbn [FormatR8.read_bytes_bits]. rewrite Hend.
    destruct ((FormatR8.position st >=? FormatR8.bits_per_record st)
              || is_nil (R8_pending st)) eqn:He.
    + (* the record has ended *)
      assert (Hm : m = 0%nat).
      { subst m. unfold deliverable.
        fold (FormatR8.position st) (FormatR8.bits_per_record st).
        apply orb_true_iff in He. destruct He as [He | He].
        - rewrite Z.geb_leb in He. apply Z.leb_le in He. lia.
        - destruct (R8_pending st); [cbn [length]; lia | discriminate He]. }
      exists st1. rewrite Hm. cbn [firstn pack skipn Nat.eqb negb Z.of_nat].
      rewrite !Z.add_0_r, Z.lor_0_r.
      split; [reflexivity|]. split; [exact Hinv1|]. split; [exact Hp1|].
      split; [rewrite Hb1; apply base_eta | intros _ Hbad; discriminate Hbad].
    + apply orb_false_iff in He. destruct He as [He1 He2].
      rewrite Z.geb_leb in He1. apply Z.leb_gt in He1.
      destruct (R8_pending st) as [|x P] eqn:Hp; [discriminate He2|].
      assert (Hpos1 : FormatR8.position st1 = FormatR8.position st)
        by (unfold FormatR8.position; rewrite Hb1; reflexivity).
      assert (Hbpr1 : FormatR8.bits_per_record st1 = FormatR8.bits_per_record st)
        by (unfold FormatR8.bits_per_record; rewrite Hb1; reflexivity).
      destruct (R8_read_bit_next_quiet st1 x P Hinv1)
        as (st2 & Hrd & Hinv2 & Hp2 & Hb2 & Hq2); [lia | congruence |].
      rewrite Hrd. rewrite Hpos1, Hbpr1 in Hb2.
      assert (Hpos2 : FormatR8.position st2 = FormatR8.position st + 1)
        by (unfold FormatR8.position; rewrite Hb2; reflexivity).
      assert (Hbpr2 : FormatR8.bits_per_record st2 = FormatR8.bits_per_record st)
        by (unfold FormatR8.bits_per_record; rewrite Hb2; reflexivity).
      rewrite size_add_small by lia.
      destruct (IH (k + 1) (Z.lor b (Z.shiftl (Z.b2z x) k)) (n + 1) st2 Hinv2)
        as (st3 & Hrun & Hinv3 & Hp3 & Hb3 & Hq3); [lia|].
      set (m' := deliverable FormatR8.base R8_pending todo st2) in *.
      assert (Hm : m = S m').
      { subst m m'. unfold deliverable.
        fold (FormatR8.position st) (FormatR8.bits_per_record st)
             (FormatR8.position st2) (FormatR8.bits_per_record st2).
        rewrite Hp, Hp2, Hpos2, Hbpr2. cbn [length]. lia. }
      exists st3. rewrite Hrun, Hm, Hp2. cbn [firstn pack skipn Nat.eqb].
      rewrite Z.lor_assoc.
      split; [|split; [exact Hinv3|split; [|split]]].
      * replace (n + Z.of_nat (S m')) with (n + 1 + Z.of_nat m') by lia.
        reflexivity.
      * rewrite Hp3, Hp2. reflexivity.
      * rewrite Hb3, Hpos2, Hbpr2. f_equal. lia.
      * intros _ Heq. apply Hq3; [left; exact Hq2 | lia].
Qed.

Lemma zeros_split (a n : Z) :
  0 <= a -> 0 <= n -> zeros (a + n) = repeat false (Z.to_nat a) ++ zeros n.
Proof.
  intros Ha Hn. unfold zeros. rewrite Z2Nat.inj_add by lia. apply repeat_app.
Qed.

(** The loop over the buffer of the overriding [read_bytes], entered with
    no 1 waiting. *)
Lemma R8_loop_spec (data : list Z) :
  forall n st,
    R8_inv st -> R8_quiet st -> 0 <= n <= FormatR8.position st ->
    let m := deliverable FormatR8.base R8_pending (8 * length data) st in
    exists data' st',
      FormatR8.read_bytes_loop data n st = (Ret (n + Z.of_nat m), data', st') /\
      length data' = length data /\
      agrees data' (R8_pending st) m.
Proof.
  pose proof SIZE_MODULUS_eq as HM. pose proof SSIZE_MAX_eq as HS.
  induction data as [|b0 data IH]; intros n st Hinv Hq Hn m.
  - exists [], st. subst m. unfold deliverable. cbn [length Nat.mul Nat.min].
    cbn [FormatR8.read_bytes_loop Z.of_nat]. rewrite Z.add_0_r.
    split; [reflexivity|]. split; [reflexivity|]. intros i Hi. lia.
  - destruct (R8_inv_range st Hinv) as [Hr Hs].
    fold (FormatR8.position st) (FormatR8.bits_per_record st) in Hr, Hs.
    cbn [FormatR8.read_bytes_loop].
    assert (Hg0 : 0 <= FormatR8.generated_0s st <= SSIZE_MAX)
      by (destruct Hinv as (_ & _ & H & _); exact H).
    rewrite (size_add_small (FormatR8.generated_0s st) 8) by lia.
    rewrite (size_add_small (FormatR8.position st) 8) by lia.
    destruct ((FormatR8.run_length_0s st >=? FormatR8.generated_0s st + 8)
              && (FormatR8.bits_per_record st >=? FormatR8.position st + 8)) eqn:Hfast.
    + (* a whole byte of zeros *)
      apply andb_true_iff in Hfast. destruct Hfast as [Hf0 Hfp].
      rewrite Z.geb_leb in Hf0, Hfp. apply Z.leb_le in Hf0, Hfp.
      set (st1 := FormatR8.advance 8 0 8 st).
      assert (Hsplit : R8_pending st = repeat false 8 ++ R8_pending st1).
      { subst st1. R8_unfold.
        destruct Hinv as (Hpos & Hbits & _ & Hg1 & Hr0 & Hr1 & Hlen).
        rewrite !size_add_small by lia. rewrite Z.add_0_r.
        rewrite ones_nonpos by lia. cbn [app].
        replace (FormatR8.run_length_0s st - FormatR8.generated_0s st)
          with (8 + (FormatR8.run_length_0s st - (FormatR8.generated_0s st + 8)))
          by lia.
        rewrite zeros_split by lia. rewrite <- app_assoc. reflexivity. }
      assert (Hinv1 : R8_inv st1).
      { subst st1. R8_unfold.
        destruct Hinv as (Hpos & Hbits & _ & Hg1 & Hr0 & Hr1 & Hlen).
        rewrite !size_add_small by lia. repeat split; lia. }
      assert (Hq1 : R8_quiet st1).
      { subst st1. R8_unfold.
        destruct Hinv as (Hpos & Hbits & _ & Hg1 & Hr0 & Hr1 & Hlen).
        rewrite !size_add_small by lia. lia. }
      assert (Hpos1 : FormatR8.position st1 = FormatR8.position st + 8).
      { subst st1. unfold FormatR8.advance, FormatR8.position. R8_fields.
        fold (FormatR8.position st). apply size_add_small. lia. }
      assert (Hbpr1 : FormatR8.bits_per_record st1 = FormatR8.bits_per_record st)
        by reflexivity.
      rewrite (size_add_small n 8) by lia.
      destruct (IH (n + 8) st1 Hinv1 Hq1) as (d' & st2 & Hloop & Hlen & Hag); [lia|].
      set (m2 := deliverable FormatR8.base R8_pending (8 * length data) st1) in *.
      assert (Hm : m = (8 + m2)%nat).
      { subst m m2. unfold deliverable.
        fold (FormatR8.position st) (FormatR8.bits_per_record st)
             (FormatR8.position st1) (FormatR8.bits_per_record st1).
        rewrite Hsplit, length_app, repeat_length, Hpos1, Hbpr1.
        cbn [length]. lia. }
      exists (0 :: d'), st2. fold st1. rewrite Hloop, Hm.
      split; [f_equal; f_equal; f_equal; lia|].
      split; [cbn [length]; f_equal; exact Hlen|].
      intros i Hi. rewrite Hsplit.
      destruct (Nat.lt_ge_cases i 8) as [Hi8 | Hi8].
      * rewrite bit_at_head by exact Hi8. rewrite Z.testbit_0_l.
        rewrite app_nth1 by (rewrite repeat_length; exact Hi8).
        symmetry. apply nth_repeat.
      * replace i with (8 + (i - 8))%nat at 1 by lia.
        rewrite bit_at_tail, Hag by lia.
        rewrite app_nth2 by (rewrite repeat_length; exact Hi8).
        rewrite repeat_length. reflexivity.
    + (* bit by bit *)
      destruct (R8_bits_spec 8 0 0 n st Hinv Hn)
        as (st1 & Hrun & Hinv1 & Hp1 & Hb1 & Hq1).
      set (m1 := deliverable FormatR8.base R8_pending 8 st) in *.
      assert (Hm1 : (m1 <= 8)%nat) by (subst m1; unfold deliverable; lia).
      rewrite Hrun.
      destruct (m1 =? 8)%nat eqn:He; cbn [negb].
      * apply Nat.eqb_eq in He.
        assert (Hpos1 : FormatR8.position st1 = FormatR8.position st + Z.of_nat m1)
          by (unfold FormatR8.position at 1; rewrite Hb1; reflexivity).
        assert (Hbpr1 : FormatR8.bits_per_record st1 = FormatR8.bits_per_record st)
          by (unfold FormatR8.bits_per_record at 1; rewrite Hb1; reflexivity).
        assert (Hlen1 : length (R8_pending st1) = (length (R8_pending st) - m1)%nat)
          by (rewrite Hp1; apply length_skipn).
        destruct (IH (n + Z.of_nat m1) st1 Hinv1) as (d' & st2 & Hloop & Hlen & Hag);
          [apply Hq1; [right; lia | exact He] | lia |].
        set (m2 := deliverable FormatR8.base R8_pending (8 * length data) st1) in *.
        assert (Hm : m = (m1 + m2)%nat).
        { subst m m2. unfold deliverable in *.
          fold (FormatR8.position st) (FormatR8.bits_per_record st)
               (FormatR8.position st1) (FormatR8.bits_per_record st1) in *.
          rewrite Hlen1, Hpos1, Hbpr1. cbn [length]. subst m1. lia. }
        exists (Z.lor 0 (pack 0 (firstn m1 (R8_pending st))) :: d'), st2.
        rewrite Hloop, Hm.
        split; [f_equal; f_equal; f_equal; lia|].
        split; [cbn [length]; f_equal; exact Hlen|].
        intros i Hi. destruct (Nat.lt_ge_cases i m1) as [Hi1 | Hi1].
        { apply bit_at_packed; assumption. }
        replace i with (8 + (i - 8))%nat by lia.
        rewrite bit_at_tail, Hag by lia.
        rewrite Hp1, nth_skipn. f_equal. lia.
      * apply Nat.eqb_neq in He.
        assert (Hm : m = m1).
        { subst m. unfold deliverable in *. cbn [length]. subst m1. lia. }
        exists (Z.lor 0 (pack 0 (firstn m1 (R8_pending st))) :: data), st1.
        rewrite Hm. split; [reflexivity|]. split; [reflexivity|].
        intros i Hi. apply bit_at_packed; assumption.
Qed.

(** The overriding [read_bytes] of R8, entered with no 1 waiting, delivers
    the same count as a bit-by-bit read would, and the pending bits. *)
Lemma R8_bulk_delivers (data : list Z) (st : FormatR8.t) :
  R8_inv st -> R8_quiet st ->
  let m := deliverable FormatR8.base R8_pending (8 * length data) st in
  exists data' st',
    FormatR8.read_bytes data st = (Ret (Z.of_nat m), data', st') /\
    length data' = length data /\
    agrees data' (R8_pending st) m.
Proof.
  intros Hinv Hq m. destruct (R8_inv_range st Hinv) as [Hr Hs].
  fold (FormatR8.position st) (FormatR8.bits_per_record st) in Hr, Hs.
  unfold FormatR8.read_bytes.
  destruct (FormatR8.position st >=? FormatR8.bits_per_record st) eqn:Ha.
  - rewrite Z.geb_leb in Ha. apply Z.leb_le in Ha.
    assert (Hm : m = 0%nat).
    { subst m. unfold deliverable.
      fold (FormatR8.position st) (FormatR8.bits_per_record st). lia. }
    exists data, st. rewrite Hm.
    split; [reflexivity|]. split; [reflexivity|]. intros i Hi. lia.
  - destruct (R8_loop_spec data 0 st Hinv Hq) as (d' & st' & Hloop & Hlen & Hag);
      [lia|].
    exists d', st'. rewrite Hloop. auto.
Qed.

(** ** Freshly made B8 and R8 readers *)

Lemma ctor_B8_fresh (f : FILE) (bits : Z) :
  0 <= bits <= SSIZE_MAX ->
  exists st, FormatB8.ctor f bits = Ret st /\ B8_inv st /\
             FormatB8.bits_available st = 0 /\
             FormatB8.position st = 0 /\ FormatB8.bits_per_record st = bits /\
             B8_pending st = stream_bits f.
Proof.
  intros Hb. rewrite (ctor_B8_ok f bits) by lia.
  eexists. split; [reflexivity|].
  unfold B8_inv, B8_pending, FormatB8.position, FormatB8.bits_per_record.
  cbn [FormatB8.base FormatB8.bits_available FormatB8.payload FormatB8.in_
       MeasureRecordReader.position MeasureRecordReader.bits_per_record].
  split; [repeat split; lia|]. repeat split; reflexivity.
Qed.

Lemma ctor_R8_fresh (f : FILE) (bits : Z) :
  0 <= bits <= SSIZE_MAX ->
  255 * Z.of_nat (length f) <= SSIZE_MAX ->
  exists st, FormatR8.ctor f bits = Ret st /\ R8_inv st /\ R8_quiet st /\
             FormatR8.position st = 0 /\ FormatR8.bits_per_record st = bits /\
             R8_pending st = decoded (descriptors f).
Proof.
  intros Hb Hlen. pose proof SIZE_MODULUS_eq as HM. pose proof SSIZE_MAX_eq as HS.
  unfold FormatR8.ctor, MeasureRecordReader.ctor.
  rewrite (size_check_passes bits) by lia.
  set (st0 := FormatR8.mk (MeasureRecordReader.mk 0 bits) f 0 0 0 1).
  destruct f as [|c f].
  - rewrite (update_run_length_none st0) by reflexivity.
    eexists. split; [reflexivity|]. subst st0. R8_unfold. cbn [length] in *.
    repeat split; try lia.
  - destruct (update_run_length_some st0 c f eq_refl) as (R & f2 & Hd & HR & Hl & Hup).
    { subst st0. R8_fields. lia. }
    rewrite Hup. eexists. split; [reflexivity|].
    subst st0. R8_unfold. rewrite Hd. cbn [length] in *.
    repeat split; try lia.
    unfold decoded. rewrite !Z.sub_0_r. reflexivity.
Qed.

(** ** The bulk [read_bytes] against the generic one *)

(** C3 (amended).  Take a B8 or R8 reader as [make] returns it, for any
    record size and stream, and any buffer.  If the generic bit-by-bit
    [read_bytes] returns a count, the overriding [read_bytes] returns the
    same count on the same reader, both leave the buffer at its length, and
    the two buffers hold the same bit at each of the positions counted;
    nothing is stated of the bits past the count.  If the generic path
    stops instead, it does so with the end-of-file exception (the stream
    holds no bit for a record and buffer that are not empty), and the
    overriding [read_bytes] returns 0 there. *)
Theorem bulk_read_bytes_agrees_with_generic
    (f : FILE) (fmt : SampleFormat) (bits : Z) (data : list Z) (r : reader) :
  fmt = SAMPLE_FORMAT_B8 \/ fmt = SAMPLE_FORMAT_R8 ->
  0 <= bits ->
  8 * Z.of_nat (length data) < SIZE_MODULUS ->
  255 * Z.of_nat (length f) <= SSIZE_MAX ->
  make f fmt bits 0 0 = Ret r ->
  match generic_read_bytes data r with
  | (Ret n, d1, _) =>
      exists d2 r2,
        read_bytes data r = (Ret n, d2, r2) /\
        length d1 = length data /\ length d2 = length data /\
        forall i : nat, Z.of_nat i < n -> bit_at d1 i = bit_at d2 i
  | (Stop s, _, _) =>
      s = Exception PastEndOfFile /\
      exists d2 r2, read_bytes data r = (Ret 0, d2, r2)
  end.
Proof.
  intros Hfmt Hbits Hdata Hlen Hmake.
  assert (Hsize : bits <= SSIZE_MAX).
  { destruct (Z_le_gt_dec bits SSIZE_MAX) as [Hle | Hgt]; [exact Hle|].
    exfalso. unfold make in Hmake.
    destruct Hfmt as [-> | ->]; cbn in Hmake.
    - rewrite ctor_B8_too_big in Hmake by lia. discriminate Hmake.
    - rewrite ctor_R8_too_big in Hmake by lia. discriminate Hmake. }
  destruct Hfmt as [-> | ->]; unfold make in Hmake; cbn [is_dets negb andb] in Hmake.
  - (* B8 *)
    destruct (ctor_B8_fresh f bits) as (st & Hctor & Hinv & Hba & Hpos & Hbpr & _);
      [lia|].
    rewrite Hctor in Hmake. cbn [new_] in Hmake. inversion Hmake; subst r.
    cbn [generic_read_bytes read_bytes]. unfold dispatch_bytes.
    assert (Hbulk : exists d2 st2,
               FormatB8.read_bytes data st
               = (Ret (Z.of_nat (deliverable FormatB8.base B8_pending
                                   (8 * length data) st)), d2, st2) /\
               length d2 = length data /\
               agrees d2 (B8_pending st)
                 (deliverable FormatB8.base B8_pending (8 * length data) st)).
    { destruct (Z_lt_ge_dec (FormatB8.position st) (FormatB8.bits_per_record st))
        as [Hlt | Hge].
      - apply B8_bulk_delivers; assumption.
      - exists data, st. unfold FormatB8.read_bytes.
        assert (H1 : (FormatB8.position st >=? FormatB8.bits_per_record st) = true)
          by (rewrite Z.geb_leb; apply Z.leb_le; lia).
        rewrite H1.
        assert (Hm : deliverable FormatB8.base B8_pending (8 * length data) st
                     = 0%nat).
        { unfold deliverable.
          fold (FormatB8.position st) (FormatB8.bits_per_record st). lia. }
        rewrite Hm. split; [reflexivity|]. split; [reflexivity|].
        intros i Hi. lia. }
    destruct Hbulk as (d2 & st2 & Hb & Hl2 & Hag2).
    destruct (generic_read_bytes_cases FormatB8.base FormatB8.read_bit
                FormatB8.is_end_of_record B8_pending B8_inv B8_inv_range
                B8_read_bit_next B8_read_bit_dry B8_is_end_of_record_spec
                data st Hinv)
      as [(d1 & st1 & Hg & Hl1 & Hag1) | (Hm & b0 & d0 & st1 & Hd & Hg)];
      unfold FormatB8.generic_read_bytes; rewrite Hg, Hb.
    + exists d2, (ReaderB8 st2). split; [reflexivity|]. split; [exact Hl1|].
      split; [exact Hl2|]. intros i Hi.
      rewrite Hag1, Hag2 by lia. reflexivity.
    + split; [reflexivity|]. rewrite Hm. exists d2, (ReaderB8 st2). reflexivity.
  - (* R8 *)
    destruct (ctor_R8_fresh f bits) as (st & Hctor & Hinv & Hq & Hpos & Hbpr & _);
      [lia | exact Hlen |].
    rewrite Hctor in Hmake. cbn [new_] in Hmake. inversion Hmake; subst r.
    cbn [generic_read_bytes read_bytes]. unfold dispatch_bytes.
    destruct (R8_bulk_delivers data st Hinv Hq) as (d2 & st2 & Hb & Hl2 & Hag2).
    destruct (generic_read_bytes_cases FormatR8.base FormatR8.read_bit
                FormatR8.is_end_of_record R8_pending R8_inv R8_inv_range
                R8_read_bit_next R8_read_bit_dry R8_is_end_of_record_spec
                data st Hinv)
      as [(d1 & st1 & Hg & Hl1 & Hag1) | (Hm & b0 & d0 & st1 & Hd & Hg)];
      unfold FormatR8.generic_read_bytes; rewrite Hg, Hb.
    + exists d2, (ReaderR8 st2). split; [reflexivity|]. split; [exact Hl1|].
      split; [exact Hl2|]. intros i Hi.
      rewrite Hag1, Hag2 by lia. reflexivity.
    + split; [reflexivity|]. rewrite Hm. exists d2, (ReaderR8 st2). reflexivity.
Qed.

Lemma bulk_read_bytes_agrees_with_generic_witness :
  let r := ReaderB8 (FormatB8.mk (MeasureRecordReader.mk 0 11) [x05; x03] 0 0) in
  exists d2 r2,
    read_bytes [170; 170] r = (Ret 11, d2, r2) /\
    length [5; 3] = length [170; 170] /\ length d2 = length [170; 170] /\
    forall i : nat, Z.of_nat i < 11 -> bit_at [5; 3] i = bit_at d2 i.
Proof.
  intros r.
  apply (bulk_read_bytes_agrees_with_generic
           [x05; x03] SAMPLE_FORMAT_B8 11 [170; 170] r).
  - left. reflexivity.
  - lia.
  - vm_compute. reflexivity.
  - vm_compute. discriminate.
  - vm_compute. reflexivity.
Defined.

(** C3 as stated fails.  The buffers of the two paths differ past the bits
    counted: B8 copies the last, partial byte of the stream as it is, where
    the generic path leaves its upper bits 0; R8 clears one byte more when
    the record ends on a byte boundary.  And on a stream with no bit for a
    record that is not empty, the generic path throws where the bulk path
    returns 0. *)
Lemma bulk_read_bytes_differs_from_generic :
  (exists r,
     make [xff] SAMPLE_FORMAT_B8 3 0 0 = Ret r /\
     (exists r1, generic_read_bytes [0] r = (Ret 3, [7], r1)) /\
     (exists r2, read_bytes [0] r = (Ret 3, [255], r2))) /\
  (exists r,
     make [x08] SAMPLE_FORMAT_R8 8 0 0 = Ret r /\
     (exists r1, generic_read_bytes [170; 170] r = (Ret 8, [0; 170], r1)) /\
     (exists r2, read_bytes [170; 170] r = (Ret 8, [0; 0], r2))) /\
  (exists r,
     make [] SAMPLE_FORMAT_B8 8 0 0 = Ret r /\
     (exists r1, generic_read_bytes [170] r = (Throw PastEndOfFile, [0], r1)) /\
     (exists r2, read_bytes [170] r = (Ret 0, [170], r2))).
Proof. repeat run_step. Qed.

(** ** R8: what the reader decodes *)

Lemma run_loop_continues (k : nat) :
  forall (acc : Z) (b : byte) (rest : FILE),
    byte_val b <> 255 ->
    0 <= acc -> acc + 255 * (Z.of_nat k + 1) < SIZE_MODULUS ->
    FormatR8.run_loop acc 255 (repeat xff k ++ b :: rest)
    = (acc + 255 * (Z.of_nat k + 1), byte_val b, rest).
Proof.
  pose proof SIZE_MODULUS_eq as HM.
  induction k as [|k IH]; intros acc b rest Hb Hacc Hbound;
    cbn [repeat app FormatR8.run_loop]; change (255 =? 255) with true; cbv iota.
  - rewrite size_add_small by lia.
    apply Z.eqb_neq in Hb.
    destruct rest; cbn [FormatR8.run_loop]; rewrite Hb; f_equal; f_equal; lia.
  - change (byte_val xff) with 255.
    rewrite size_add_small by lia. rewrite IH by (try assumption; lia).
    f_equal. f_equal. lia.
Qed.

(** [update_run_length] on [k] bytes 0xFF followed by a byte [b] that is not
    0xFF: each 0xFF adds 255, [b] adds its value and ends the descriptor. *)
Lemma update_run_length_descriptor (st : FormatR8.t) (k : nat) (b : byte)
    (rest : FILE) :
  FormatR8.in_ st = repeat xff k ++ b :: rest ->
  byte_val b <> 255 ->
  255 * (Z.of_nat k + 1) < SIZE_MODULUS ->
  FormatR8.update_run_length st
  = (Ret true,
     FormatR8.mk (FormatR8.base st) rest (255 * Z.of_nat k + byte_val b) 1 0 0).
Proof.
  intros Hin Hb Hbound. pose proof SIZE_MODULUS_eq as HM.
  pose proof (byte_val_range b) as Hr.
  unfold FormatR8.update_run_length. rewrite Hin.
  destruct k as [|k]; cbn [repeat app getc].
  - rewrite byte_val_not_EOF.
    assert (Hrun : FormatR8.run_loop 0 (byte_val b) rest = (0, byte_val b, rest)).
    { apply Z.eqb_neq in Hb. destruct rest; cbn [FormatR8.run_loop]; now rewrite Hb. }
    rewrite Hrun. cbn [Z.of_nat]. rewrite Z.mul_0_r, Z.add_0_l.
    destruct (byte_val b >? 0) eqn:Hpos.
    + rewrite size_add_small by lia. reflexivity.
    + rewrite Z.gtb_ltb in Hpos. apply Z.ltb_ge in Hpos.
      replace (byte_val b) with 0 by lia. reflexivity.
  - change (byte_val xff) with 255. change (255 =? EOF) with false. cbv iota.
    rewrite run_loop_continues by (try assumption; lia).
    destruct (byte_val b >? 0) eqn:Hpos.
    + rewrite size_add_small by lia.
      replace (0 + 255 * (Z.of_nat k + 1) + byte_val b)
        with (255 * Z.of_nat (S k) + byte_val b) by lia.
      reflexivity.
    + rewrite Z.gtb_ltb in Hpos. apply Z.ltb_ge in Hpos.
      replace (0 + 255 * (Z.of_nat k + 1))
        with (255 * Z.of_nat (S k) + byte_val b) by lia.
      reflexivity.
Qed.

(** C2 (amended).  In the R8 format:
    - a descriptor is read byte by byte: each byte 0xFF adds 255 to the
      zero-run and continues, and a byte [b] in 0..254 adds [b] and ends the
      descriptor, with one 1 to hand out ([run_length_1s = 1]);
    - a freshly made reader hands out the zeros of the first descriptor and
      then, for every later descriptor, a single 1 followed by its zeros:
      the 1 that ends a descriptor is produced when the next descriptor is
      fetched, so the last descriptor of the stream yields no 1;
    - once these bits are read and the record is not full, [read_bit] throws
      the end-of-file exception; in any state it throws that exception
      exactly when the cursor is inside the record, the current run has no
      1 and no 0 left, and the stream is exhausted. *)
Theorem R8_decodes_runs :
  (forall (st : FormatR8.t) (k : nat) (b : byte) (rest : FILE),
      FormatR8.in_ st = repeat xff k ++ b :: rest ->
      byte_val b <> 255 ->
      255 * (Z.of_nat k + 1) < SIZE_MODULUS ->
      descriptors (FormatR8.in_ st)
      = (255 * Z.of_nat k + byte_val b) :: descriptors rest /\
      FormatR8.update_run_length st
      = (Ret true,
         FormatR8.mk (FormatR8.base st) rest
                     (255 * Z.of_nat k + byte_val b) 1 0 0)) /\
  (forall (f : FILE) (bits : Z) (n : nat),
      0 <= bits <= SSIZE_MAX ->
      255 * Z.of_nat (length f) <= SSIZE_MAX ->
      (n <= Nat.min (Z.to_nat bits) (length (decoded (descriptors f))))%nat ->
      exists st0 st1,
        FormatR8.ctor f bits = Ret st0 /\
        read_bits FormatR8.read_bit n st0
        = (Ret (firstn n (decoded (descriptors f))), st1) /\
        (n = length (decoded (descriptors f)) -> (n < Z.to_nat bits)%nat ->
         exists st2, FormatR8.read_bit st1 = (Throw PastEndOfFile, st2))) /\
  (forall st : FormatR8.t,
      (exists st', FormatR8.read_bit st = (Throw PastEndOfFile, st')) <->
      (FormatR8.position st < FormatR8.bits_per_record st /\
       FormatR8.run_length_1s st <= FormatR8.generated_1s st /\
       FormatR8.run_length_0s st <= FormatR8.generated_0s st /\
       FormatR8.in_ st = [])).
Proof.
  split; [|split].
  - intros st k b rest Hin Hb Hbound. split.
    + rewrite Hin. unfold descriptors.
      assert (Hruns : forall j open acc,
                 runs open acc (repeat xff j ++ b :: rest)
                 = (acc + 255 * Z.of_nat j + byte_val b) :: runs false 0 rest).
      { induction j as [|j IH]; intros open acc; cbn [repeat app runs].
        - apply Z.eqb_neq in Hb. rewrite Hb. do 2 f_equal. lia.
        - change (byte_val xff =? 255) with true. cbv iota.
          rewrite IH. do 2 f_equal. lia. }
      rewrite Hruns. reflexivity.
    + apply update_run_length_descriptor; assumption.
  - intros f bits n Hbits Hlen Hn.
    destruct (ctor_R8_fresh f bits Hbits Hlen)
      as (st0 & Hctor & Hinv & _ & Hpos & Hbpr & Hpend).
    destruct (read_bits_pending FormatR8.base FormatR8.read_bit R8_pending R8_inv
                R8_inv_range R8_read_bit_next n st0 Hinv)
      as (st1 & Hrun & Hinv1 & Hp1 & Hb1).
    { fold (FormatR8.position st0) (FormatR8.bits_per_record st0).
      rewrite Hpend, Hpos, Hbpr, Z.sub_0_r. exact Hn. }
    exists st0, st1. split; [exact Hctor|]. rewrite Hpend in Hrun, Hp1.
    split; [exact Hrun|]. intros Hall Hroom.
    apply (R8_read_bit_dry st1 Hinv1).
    + unfold FormatR8.position, FormatR8.bits_per_record. rewrite Hb1.
      fold (FormatR8.position st0) (FormatR8.bits_per_record st0).
      cbn [MeasureRecordReader.position MeasureRecordReader.bits_per_record].
      rewrite Hpos, Hbpr. lia.
    + rewrite Hp1, Hall. apply skipn_all.
  - intros st. unfold FormatR8.read_bit.
    destruct (FormatR8.position st >=? FormatR8.bits_per_record st) eqn:Ha.
    { rewrite Z.geb_leb in Ha. apply Z.leb_le in Ha.
      split; [intros [st' H]; discriminate H | intros [H _]; lia]. }
    rewrite Z.geb_leb in Ha. apply Z.leb_gt in Ha.
    destruct (FormatR8.generated_1s st <? FormatR8.run_length_1s st) eqn:H1.
    { apply Z.ltb_lt in H1.
      split; [intros [st' H]; discriminate H | intros (_ & H & _); lia]. }
    apply Z.ltb_ge in H1.
    destruct (FormatR8.generated_0s st <? FormatR8.run_length_0s st) eqn:H0.
    { apply Z.ltb_lt in H0.
      split; [intros [st' H]; discriminate H | intros (_ & _ & H & _); lia]. }
    apply Z.ltb_ge in H0.
    destruct (FormatR8.in_ st) as [|c g] eqn:Hin.
    + rewrite (update_run_length_none st Hin).
      split; [intros _; auto | intros _; eexists; reflexivity].
    + unfold FormatR8.update_run_length. rewrite Hin. cbn [getc].
      rewrite byte_val_not_EOF.
      destruct (FormatR8.run_loop 0 (byte_val c) g) as [[run r'] f2].
      split; [intros [st' H]; discriminate H | intros (_ & _ & _ & H); discriminate H].
Qed.

Lemma R8_decodes_runs_witness :
  exists st0 st1,
    FormatR8.ctor [x02; x00; x01] 8 = Ret st0 /\
    read_bits FormatR8.read_bit 5 st0
    = (Ret [false; false; true; true; false], st1) /\
    (5%nat = length (decoded (descriptors [x02; x00; x01])) -> (5 < Z.to_nat 8)%nat ->
     exists st2, FormatR8.read_bit st1 = (Throw PastEndOfFile, st2)).
Proof.
  apply (proj1 (proj2 R8_decodes_runs) [x02; x00; x01] 8 5%nat).
  - vm_compute. split; discriminate.
  - vm_compute. discriminate.
  - vm_compute. lia.
Defined.

(** C2 as stated fails.  The stream of the single byte 0 does not yield a
    1-bit: the first [read_bit] finds its empty zero-run exhausted, needs a
    further descriptor, and throws.  On three bytes 0 the reader yields two
    1-bits, not three, before it throws. *)
Lemma R8_last_descriptor_yields_no_one :
  (exists r0,
     make [x00] SAMPLE_FORMAT_R8 1 0 0 = Ret r0 /\
   exists r1,
     read_bit r0 = (Throw PastEndOfFile, r1)) /\
  (exists r0,
     make [x00; x00; x00] SAMPLE_FORMAT_R8 3 0 0 = Ret r0 /\
   exists r1,
     read_bits read_bit 2 r0 = (Ret [true; true], r1) /\
   exists r2,
     read_bit r1 = (Throw PastEndOfFile, r2)).
Proof. repeat run_step. Qed.

(** * Further properties *)

(** ** The helpers of the anonymous namespace *)

Lemma consume_keyword_loop_match (p : FILE) :
  forall (kw : list Z) (i : Z) (s : FILE),
    p <> [] ->
    consume_keyword_loop (map byte_val p ++ kw) i (fst (getc (p ++ s)))
                         (snd (getc (p ++ s)))
    = consume_keyword_loop kw (i + Z.of_nat (length p)) (fst (getc s))
                           (snd (getc s)).
Proof.
  induction p as [|b p IH]; intros kw i s Hne; [congruence|].
  cbn [map app getc fst snd consume_keyword_loop]. rewrite Z.eqb_refl.
  destruct p as [|b' p].
  - cbn [app map length]. destruct (getc s) as [c s'] eqn:Hs. cbn [fst snd].
    f_equal.
  - specialize (IH kw (i + 1) s ltac:(discriminate)).
    cbn [app getc fst snd] in IH |- *. rewrite IH. f_equal.
    cbn [length]. lia.
Qed.

Lemma consume_keyword_loop_mismatch (pre : list Z) (l : Z) :
  forall (i : Z) (s : FILE),
    Forall (fun c => c <> EOF) pre ->
    firstn (length pre) (map byte_val s) <> pre ->
    let '(i', _, _) :=
      consume_keyword_loop (pre ++ [l]) i (fst (getc s)) (snd (getc s)) in
    i' <= i + Z.of_nat (length pre).
Proof.
  induction pre as [|c pre IH]; intros i s Hpre Hdiff.
  - cbn in Hdiff. congruence.
  - inversion Hpre as [|? ? Hc Hpre']; subst.
    cbn [app consume_keyword_loop].
    destruct s as [|b s].
    + cbn [getc fst snd]. destruct (EOF =? c) eqn:He.
      * apply Z.eqb_eq in He. congruence.
      * cbn [length]. lia.
    + cbn [getc fst snd]. destruct (byte_val b =? c) eqn:He.
      * apply Z.eqb_eq in He.
        assert (Hd : firstn (length pre) (map byte_val s) <> pre).
        { intros Heq. apply Hdiff. cbn [length map firstn]. rewrite Heq, He.
          reflexivity. }
        specialize (IH (i + 1) s Hpre' Hd).
        destruct (getc s) as [c' s'] eqn:Hs. cbn [fst snd] in IH.
        destruct (consume_keyword_loop (pre ++ [l]) (i + 1) c' s')
          as [[i' n'] f'].
        cbn [length]. lia.
      * cbn [length]. lia.
Qed.

(** X1.  [maybe_consume_keyword] returns [false] on an exhausted stream and
    takes nothing.  On any other stream it returns [true] exactly when the
    stream opens with the keyword less its last character: the last
    character is compared but a mismatch there goes unnoticed, because the
    index has been incremented by the comparison.  When the last character
    matches, the byte after the keyword is taken as [next]; when it does
    not, the mismatching byte itself is left in [next].  A mismatch before
    the last character throws. *)
Theorem maybe_consume_keyword_spec (pre : list Z) (l : Z) :
  Forall (fun c => c <> EOF) pre ->
  maybe_consume_keyword [] (pre ++ [l]) = (Ret false, EOF, []) /\
  (forall p g : FILE,
      map byte_val p = pre -> p ++ g <> [] ->
      maybe_consume_keyword (p ++ g) (pre ++ [l])
      = match g with
        | c :: g' =>
            if byte_val c =? l
            then (Ret true, fst (getc g'), snd (getc g'))
            else (Ret true, byte_val c, g')
        | [] => (Ret true, EOF, [])
        end) /\
  (forall f : FILE,
      f <> [] -> firstn (length pre) (map byte_val f) <> pre ->
      exists next f',
        maybe_consume_keyword f (pre ++ [l])
        = (Throw (runtime_error KeywordNotFound), next, f')).
Proof.
  intros Hpre. split; [reflexivity|]. split.
  - intros p g Hp Hne.
    assert (Hlast : forall i,
               consume_keyword_loop [l] i (fst (getc g)) (snd (getc g))
               = match g with
                 | c :: g' =>
                     if byte_val c =? l
                     then (i + 1, fst (getc g'), snd (getc g'))
                     else (i + 1, byte_val c, g')
                 | [] => (i + 1, EOF, [])
                 end).
    { intros i. destruct g as [|c g'].
      - cbn [getc fst snd consume_keyword_loop].
        destruct (EOF =? l); reflexivity.
      - cbn [getc fst snd consume_keyword_loop].
        destruct (byte_val c =? l); [|reflexivity].
        destruct (getc g'); reflexivity. }
    assert (Hlen : Z.of_nat (length (pre ++ [l])) = Z.of_nat (length p) + 1).
    { rewrite length_app, <- Hp, length_map. cbn [length]. lia. }
    unfold maybe_consume_keyword. rewrite Hlen.
    assert (Hfirst : (fst (getc (p ++ g)) =? EOF) = false).
    { destruct (p ++ g) as [|b s]; [congruence|]. cbn [getc fst].
      apply byte_val_not_EOF. }
    destruct (getc (p ++ g)) as [next f1] eqn:Hg. cbn [fst] in Hfirst.
    rewrite Hfirst.
    assert (Hloop : consume_keyword_loop (pre ++ [l]) 0 next f1
                    = consume_keyword_loop [l] (Z.of_nat (length p))
                                           (fst (getc g)) (snd (getc g))).
    { destruct p as [|b p].
      - cbn [map] in Hp. subst pre. cbn [app length Z.of_nat] in *.
        rewrite Hg. reflexivity.
      - rewrite <- Hp.
        pose proof (consume_keyword_loop_match (b :: p) [l] 0 g
                      ltac:(discriminate)) as H.
        rewrite Hg in H. cbn [fst snd] in H. rewrite H. reflexivity. }
    rewrite Hloop, Hlast.
    destruct g as [|c g'].
    + rewrite Z.eqb_refl. reflexivity.
    + destruct (byte_val c =? l); rewrite Z.eqb_refl; reflexivity.
  - intros f Hne Hdiff.
    pose proof (consume_keyword_loop_mismatch pre l 0 f Hpre Hdiff) as H.
    unfold maybe_consume_keyword.
    assert (Hfirst : (fst (getc f) =? EOF) = false).
    { destruct f as [|b s]; [congruence|]. cbn [getc fst].
      apply byte_val_not_EOF. }
    destruct (getc f) as [next f1] eqn:Hg. cbn [fst snd] in *.
    rewrite Hfirst.
    destruct (consume_keyword_loop (pre ++ [l]) 0 next f1) as [[i' n'] f'].
    assert (Hi : (i' =? Z.of_nat (length (pre ++ [l]))) = false).
    { apply Z.eqb_neq. rewrite length_app. cbn [length]. lia. }
    rewrite Hi. cbn [negb]. exists n', f'. reflexivity.
Qed.

Lemma maybe_consume_keyword_spec_witness :
  maybe_consume_keyword (stream_of "shoXM1") keyword_shot
  = (Ret true, chr "X", stream_of "M1").
Proof.
  refine (proj1 (proj2 (maybe_consume_keyword_spec [115; 104; 111] 116 _))
            (stream_of "sho") (stream_of "XM1") eq_refl _).
  - repeat constructor; discriminate.
  - discriminate.
Defined.

Lemma digits_prefix_digits (f : FILE) :
  forallb is_digit_byte (digits_prefix f) = true.
Proof.
  induction f as [|b f IH]; [reflexivity|]. cbn [digits_prefix].
  destruct (is_digit_byte b) eqn:Hb; [|reflexivity].
  cbn [forallb]. rewrite Hb, IH. reflexivity.
Qed.

Lemma digits_prefix_split (f : FILE) : f = digits_prefix f ++ after_digits f.
Proof.
  induction f as [|b f IH]; [reflexivity|]. cbn [digits_prefix after_digits].
  destruct (is_digit_byte b); [|reflexivity].
  cbn [app]. f_equal. exact IH.
Qed.

Lemma after_digits_head (f : FILE) :
  isdigit (fst (getc (after_digits f))) = false.
Proof.
  induction f as [|b f IH]; [reflexivity|]. cbn [after_digits].
  destruct (is_digit_byte b) eqn:Hb; [exact IH|]. exact Hb.
Qed.

Lemma read_digits_spec (f : FILE) :
  forall acc c : Z,
    isdigit c = true -> 0 <= acc ->
    let v := decimal (acc * 10 + (c - char_0)) (digits_prefix f) in
    read_digits acc c f
    = if v >? LONG_MAX then None
      else Some (v, fst (getc (after_digits f)), snd (getc (after_digits f))).
Proof.
  induction f as [|b f IH]; intros acc c Hc Hacc v.
  - subst v. cbn [digits_prefix decimal after_digits getc fst snd read_digits].
    rewrite Hc. destruct (_ >? LONG_MAX); reflexivity.
  - pose proof (isdigit_range c Hc) as Hr.
    assert (H0 : 0 <= acc * 10 + (c - char_0)) by (unfold char_0; lia).
    cbn [read_digits]. rewrite Hc. subst v. cbn [digits_prefix after_digits].
    destruct (is_digit_byte b) eqn:Hb.
    + cbn [decimal].
      pose proof (decimal_grows (digits_prefix f)
                    ((acc * 10 + (c - char_0)) * 10 + (byte_val b - char_0))
                    (digits_prefix_digits f)) as Hg.
      pose proof (isdigit_range _ Hb) as Hrb.
      specialize (Hg ltac:(unfold char_0 in *; lia)).
      destruct (acc * 10 + (c - char_0) >? LONG_MAX) eqn:Hov.
      * apply Z.gtb_lt in Hov.
        assert (Hov' : (decimal ((acc * 10 + (c - char_0)) * 10
                                 + (byte_val b - char_0)) (digits_prefix f)
                        >? LONG_MAX) = true)
          by (apply Z.gtb_lt; unfold char_0 in *; lia).
        rewrite Hov'. reflexivity.
      * apply (IH (acc * 10 + (c - char_0)) (byte_val b) Hb H0).
    + cbn [decimal getc fst snd].
      destruct (acc * 10 + (c - char_0) >? LONG_MAX); [reflexivity|].
      unfold is_digit_byte in Hb.
      destruct f; cbn [read_digits]; rewrite Hb; reflexivity.
Qed.

(** [read_unsigned_int] on a stream that does not open with a digit. *)
Lemma read_unsigned_int_none (f : FILE) (old : Z) :
  digits_prefix f = [] ->
  read_unsigned_int f old = (Ret false, old, fst (getc f), snd (getc f)).
Proof.
  intros Hds. unfold read_unsigned_int. destruct f as [|b f]; [reflexivity|].
  cbn [getc digits_prefix fst snd] in *. fold (is_digit_byte b).
  destruct (is_digit_byte b); [discriminate Hds | reflexivity].
Qed.

(** [read_unsigned_int] on a stream that opens with digits, in terms of
    [read_digits]'s closed form. *)
Lemma read_unsigned_int_digits (b : byte) (f : FILE) (old : Z) :
  is_digit_byte b = true ->
  exists v c f',
    (read_unsigned_int (b :: f) old
     = if decimal 0 (digits_prefix (b :: f)) >? LONG_MAX
       then (Stop UndefinedBehaviour, v, c, f')
       else (Ret true, decimal 0 (digits_prefix (b :: f)),
             fst (getc (after_digits (b :: f))),
             snd (getc (after_digits (b :: f))))).
Proof.
  intros Hb. unfold read_unsigned_int.
  cbn [getc digits_prefix after_digits fst snd].
  fold (is_digit_byte b). rewrite Hb. cbn [negb decimal].
  pose proof (read_digits_spec f 0 (byte_val b) Hb ltac:(lia)) as H.
  cbn zeta in H. rewrite H.
  destruct (_ >? LONG_MAX); eauto.
Qed.

Lemma digits_prefix_head (f : FILE) :
  digits_prefix f <> [] ->
  exists b f', f = b :: f' /\ is_digit_byte b = true.
Proof.
  destruct f as [|b f]; cbn [digits_prefix]; [congruence|].
  destruct (is_digit_byte b) eqn:Hb; [eauto | congruence].
Qed.

Lemma read_unsigned_int_some (f : FILE) (old : Z) :
  digits_prefix f <> [] -> decimal 0 (digits_prefix f) <= LONG_MAX ->
  read_unsigned_int f old
  = (Ret true, decimal 0 (digits_prefix f),
     fst (getc (after_digits f)), snd (getc (after_digits f))).
Proof.
  intros Hds Hfit. destruct (digits_prefix_head f Hds) as (b & f' & -> & Hb).
  destruct (read_unsigned_int_digits b f' old Hb) as (v & c & f2 & H).
  rewrite H.
  destruct (_ >? LONG_MAX) eqn:Hov; [apply Z.gtb_lt in Hov; lia|].
  reflexivity.
Qed.

(** X2.  [read_unsigned_int] on any stream.  Let [ds] be the digits the
    stream opens with.  If there is none, the call returns [false], leaves
    [value] as it was and has taken one byte, which is in [next] ([EOF] on
    an exhausted stream).  Otherwise it returns [true] with the decimal
    value of [ds] (leading zeros allowed), and has taken the digits and the
    byte after them, which is in [next]; a value above [LONG_MAX] overflows
    the [long]. *)
Theorem read_unsigned_int_spec (f : FILE) (old : Z) :
  let ds := digits_prefix f in
  let g := after_digits f in
  f = ds ++ g /\
  isdigit (fst (getc g)) = false /\
  (ds = [] ->
   read_unsigned_int f old = (Ret false, old, fst (getc f), snd (getc f))) /\
  (ds <> [] -> decimal 0 ds <= LONG_MAX ->
   read_unsigned_int f old
   = (Ret true, decimal 0 ds, fst (getc g), snd (getc g))) /\
  (ds <> [] -> LONG_MAX < decimal 0 ds ->
   exists v c f',
     read_unsigned_int f old = (Stop UndefinedBehaviour, v, c, f')).
Proof.
  intros ds g. subst ds g.
  split; [apply digits_prefix_split|]. split; [apply after_digits_head|].
  split; [apply read_unsigned_int_none|].
  split; [apply read_unsigned_int_some|].
  intros Hds Hbig. destruct (digits_prefix_head f Hds) as (b & f' & -> & Hb).
  destruct (read_unsigned_int_digits b f' old Hb) as (v & c & f2 & H).
  assert (Hov : (decimal 0 (digits_prefix (b :: f')) >? LONG_MAX) = true)
    by (apply Z.gtb_lt; lia).
  rewrite Hov in H. eauto.
Qed.

(** ** Sparse formats: what a token may look like *)

(** X3.  [update_next_hit] on any stream whose numeral, if there is one,
    fits a [long].  Without a digit at the front it takes one byte and
    succeeds only if that byte is a newline or the stream was exhausted;
    [next_hit] is then left as it was, so an empty line and a comma before
    the newline are accepted.  With digits at the front it takes them and
    the byte after them, which must be a comma or a newline: a numeral that
    the end of the stream follows is rejected.  Then come the checks on the
    index. *)
Theorem update_next_hit_spec (st : FormatHits.t) :
  let f := FormatHits.in_ st in
  let ds := digits_prefix f in
  let g := after_digits f in
  let v := decimal 0 ds in
  let sep := fst (getc g) in
  (ds = [] ->
   FormatHits.update_next_hit st
   = (if (fst (getc f) =? char_nl) || (fst (getc f) =? EOF)
      then Ret tt else Throw (runtime_error UnexpectedCharacter),
      FormatHits.mk (FormatHits.base st) (snd (getc f)) (fst (getc f))
                    (FormatHits.next_hit st) (FormatHits.position st))) /\
  (ds <> [] -> v <= LONG_MAX ->
   FormatHits.update_next_hit st
   = (if negb (sep =? char_comma) && negb (sep =? char_nl)
      then Throw (runtime_error InvalidSeparator)
      else if v <? FormatHits.position st
      then Throw (runtime_error HitInPast)
      else if v >=? FormatHits.bits_per_record st
      then Throw (runtime_error HitOutsideRecord)
      else Ret tt,
      FormatHits.mk (FormatHits.base st) (snd (getc g)) sep v
                    (FormatHits.position st))).
Proof.
  intros f ds g v sep.
  pose proof (read_unsigned_int_none f (FormatHits.next_hit st)) as Hnone.
  pose proof (read_unsigned_int_some f (FormatHits.next_hit st)) as Hsome.
  fold ds g in Hnone, Hsome. split.
  - intros Hds. unfold FormatHits.update_next_hit. fold f.
    rewrite (Hnone Hds).
    destruct (fst (getc f) =? char_nl), (fst (getc f) =? EOF); reflexivity.
  - intros Hds Hfit. unfold FormatHits.update_next_hit. fold f.
    rewrite (Hsome Hds Hfit). fold v sep.
    assert (Hv : 0 <= v)
      by (apply (decimal_grows ds 0 (digits_prefix_digits f)); lia).
    rewrite to_size_t_small
      by (rewrite SIZE_MODULUS_eq; rewrite LONG_MAX_eq in Hfit; lia).
    destruct (negb (sep =? char_comma) && negb (sep =? char_nl));
      [reflexivity|].
    destruct (v <? FormatHits.position st); [reflexivity|].
    destruct (v >=? FormatHits.bits_per_record st); reflexivity.
Qed.

Lemma update_next_hit_spec_witness :
  fst (FormatHits.update_next_hit
         (FormatHits.mk (MeasureRecordReader.mk 0 8) (stream_of "7")
                        char_comma 3 4))
  = Throw (runtime_error InvalidSeparator).
Proof.
  pose proof (proj2 (update_next_hit_spec
                       (FormatHits.mk (MeasureRecordReader.mk 0 8)
                                      (stream_of "7") char_comma 3 4))) as H.
  cbv zeta in H. rewrite H.
  - reflexivity.
  - discriminate.
  - rewrite LONG_MAX_eq. cbn. lia.
Defined.

Lemma to_char_byte (b : byte) :
  to_char (byte_val b)
  = if byte_val b <? 128 then byte_val b else byte_val b - 256.
Proof.
  pose proof (byte_val_range b) as Hr. unfold to_char.
  destruct (byte_val b <? 128) eqn:Hlt.
  - apply Z.ltb_lt in Hlt. rewrite Z.mod_small by lia. lia.
  - apply Z.ltb_ge in Hlt.
    replace (byte_val b + 128) with (byte_val b - 128 + 1 * 256) by lia.
    rewrite Z.mod_add by lia. rewrite Z.mod_small by lia. lia.
Qed.

Lemma to_char_tag (b : byte) :
  is_tag (byte_val b) = true ->
  to_char (byte_val b) = byte_val b /\ (byte_val b =? EOF) = false.
Proof.
  intros H. rewrite to_char_byte. unfold is_tag, char_M, char_D, char_L in H.
  split; [|apply byte_val_not_EOF].
  destruct (byte_val b <? 128) eqn:Hlt; [reflexivity|].
  apply Z.ltb_ge in Hlt.
  repeat (apply orb_true_iff in H; destruct H as [H | H]);
    apply Z.eqb_eq in H; lia.
Qed.

(** [update_next_shot] on a byte that is no type tag. *)
Lemma update_next_shot_unknown (st : FormatDets.t) (t : byte) (f1 : FILE) :
  FormatDets.in_ st = t :: f1 ->
  byte_val t <> 255 -> is_tag (byte_val t) = false ->
  FormatDets.update_next_shot st
  = (Throw (runtime_error UnknownResultType),
     FormatDets.mk (FormatDets.base st) f1 (FormatDets.result_type st)
                   (FormatDets.separator st) (FormatDets.next_shot st)
                   (FormatDets.position st)).
Proof.
  intros Hin Hn255 Htag. unfold FormatDets.update_next_shot. rewrite Hin.
  cbn [getc]. pose proof (byte_val_range t) as Hr.
  rewrite to_char_byte.
  destruct (byte_val t <? 128) eqn:Hlt.
  - rewrite byte_val_not_EOF. unfold is_tag in Htag.
    apply orb_false_iff in Htag. destruct Htag as [Htag HL].
    apply orb_false_iff in Htag. destruct Htag as [HM HD].
    rewrite HM, HD, HL. reflexivity.
  - apply Z.ltb_ge in Hlt.
    assert (H1 : (byte_val t - 256 =? EOF) = false)
      by (apply Z.eqb_neq; unfold EOF; lia).
    assert (H2 : (byte_val t - 256 =? char_M) = false)
      by (apply Z.eqb_neq; unfold char_M; lia).
    assert (H3 : (byte_val t - 256 =? char_D) = false)
      by (apply Z.eqb_neq; unfold char_D; lia).
    assert (H4 : (byte_val t - 256 =? char_L) = false)
      by (apply Z.eqb_neq; unfold char_L; lia).
    rewrite H1, H2, H3, H4. reflexivity.
Qed.

(** X4.  [update_next_shot] on any stream.  On an exhausted stream it sets
    [separator] to [EOF] and succeeds; so it does on the byte 0xFF, which the
    conversion to [char] makes equal to [EOF].  Any other byte that is not
    M, D or L is an unknown result type.  After the type tag there must be a
    digit, and after the numeral (one that fits a [long]) a space or a
    newline: a numeral that the end of the stream follows is rejected. *)
Theorem update_next_shot_spec (st : FormatDets.t) :
  let keep f1 sep :=
    FormatDets.mk (FormatDets.base st) f1 (FormatDets.result_type st) sep
                  (FormatDets.next_shot st) (FormatDets.position st) in
  (FormatDets.in_ st = [] ->
   FormatDets.update_next_shot st = (Ret tt, keep [] EOF)) /\
  (forall (t : byte) (f1 : FILE),
      FormatDets.in_ st = t :: f1 ->
      (byte_val t = 255 ->
       FormatDets.update_next_shot st = (Ret tt, keep f1 EOF)) /\
      (byte_val t <> 255 -> is_tag (byte_val t) = false ->
       FormatDets.update_next_shot st
       = (Throw (runtime_error UnknownResultType),
          keep f1 (FormatDets.separator st))) /\
      (is_tag (byte_val t) = true ->
       let ds := digits_prefix f1 in
       let g := after_digits f1 in
       (ds = [] ->
        FormatDets.update_next_shot st
        = (Throw (runtime_error FailedToParse),
           keep (snd (getc f1)) (fst (getc f1)))) /\
       (ds <> [] -> decimal 0 ds <= LONG_MAX ->
        fst (getc g) <> char_space -> fst (getc g) <> char_nl ->
        FormatDets.update_next_shot st
        = (Throw (runtime_error UnexpectedSeparator),
           FormatDets.mk (FormatDets.base st) (snd (getc g))
                         (FormatDets.result_type st) (fst (getc g))
                         (decimal 0 ds) (FormatDets.position st))))).
Proof.
  intros keep. split.
  - intros Hin. unfold FormatDets.update_next_shot. rewrite Hin. reflexivity.
  - intros t f1 Hin. split; [|split].
    + intros H255. unfold FormatDets.update_next_shot. rewrite Hin.
      cbn [getc]. rewrite to_char_byte, H255. reflexivity.
    + intros Hn255 Htag. apply (update_next_shot_unknown st t f1 Hin Hn255 Htag).
    + intros Htag. unfold FormatDets.update_next_shot. rewrite Hin.
      cbn [getc].
      destruct (to_char_tag t Htag) as [Hc Hne]. rewrite Hc, Hne.
      assert (Hknown : negb (byte_val t =? char_M) && negb (byte_val t =? char_D)
                       && negb (byte_val t =? char_L) = false).
      { unfold is_tag in Htag.
        destruct (byte_val t =? char_M), (byte_val t =? char_D),
          (byte_val t =? char_L); try reflexivity; discriminate Htag. }
      rewrite Hknown.
      pose proof (read_unsigned_int_none f1 (FormatDets.next_shot st)) as Hnone.
      pose proof (read_unsigned_int_some f1 (FormatDets.next_shot st)) as Hsome.
      split.
      * intros Hds. rewrite (Hnone Hds). reflexivity.
      * intros Hds Hfit Hsp Hnl. rewrite (Hsome Hds Hfit).
        apply Z.eqb_neq in Hsp, Hnl. rewrite Hsp, Hnl. reflexivity.
Qed.

Lemma update_next_shot_spec_witness :
  fst (FormatDets.update_next_shot
         (FormatDets.mk (MeasureRecordReader.mk 0 8) (stream_of "M7")
                        char_M char_space 3 4))
  = Throw (runtime_error UnexpectedSeparator).
Proof.
  pose proof (proj2 (update_next_shot_spec
                       (FormatDets.mk (MeasureRecordReader.mk 0 8)
                                      (stream_of "M7") char_M char_space 3 4))
                byte_M (stream_of "7") eq_refl) as H.
  destruct H as (_ & _ & H). specialize (H eq_refl).
  cbv zeta in H. destruct H as [_ H]. rewrite H.
  - reflexivity.
  - discriminate.
  - rewrite LONG_MAX_eq. cbn. lia.
  - discriminate.
  - discriminate.
Defined.

Lemma dets_no_shot_reads_zero (n : nat) :
  forall (b : MeasureRecordReader.t) (f : FILE) (ty p : Z),
    0 <= p -> p + Z.of_nat n <= MeasureRecordReader.bits_per_record b ->
    MeasureRecordReader.bits_per_record b <= SSIZE_MAX ->
    read_bits FormatDets.read_bit n (FormatDets.mk b f ty EOF (-1) p)
    = (Ret (repeat false n),
       FormatDets.mk b f ty EOF (-1) (p + Z.of_nat n)).
Proof.
  induction n as [|n IH]; intros b f ty p Hp Hn Hs.
  - cbn. unfold ret. rewrite Z.add_0_r. reflexivity.
  - cbn [read_bits]. unfold bind at 1.
    assert (Hrd : FormatDets.read_bit (FormatDets.mk b f ty EOF (-1) p)
                  = (Ret false, FormatDets.mk b f ty EOF (-1) (p + 1))).
    { unfold FormatDets.read_bit, FormatDets.bits_per_record.
      cbn [FormatDets.position FormatDets.base FormatDets.next_shot
           FormatDets.separator].
      rewrite SSIZE_MAX_eq in Hs.
      rewrite to_size_t_small by (rewrite SIZE_MODULUS_eq; lia).
      assert (H1 : (p >=? MeasureRecordReader.bits_per_record b) = false)
        by (rewrite Z.geb_leb; apply Z.leb_gt; lia).
      rewrite H1. change (EOF =? char_space) with false.
      rewrite andb_false_r. unfold FormatDets.compare_and_advance.
      cbn [FormatDets.position FormatDets.base FormatDets.next_shot
           FormatDets.separator FormatDets.in_ FormatDets.result_type].
      assert (H2 : (p + 1 >? LONG_MAX) = false)
        by (rewrite Z.gtb_ltb; apply Z.ltb_ge; rewrite LONG_MAX_eq; lia).
      rewrite H2.
      assert (H3 : (-1 =? p) = false) by (apply Z.eqb_neq; lia).
      rewrite H3. reflexivity. }
    rewrite Hrd. unfold bind. rewrite IH by lia. unfold ret.
    cbn [repeat].
    replace (p + Z.of_nat (S n)) with (p + 1 + Z.of_nat n) by lia.
    reflexivity.
Qed.

(** [update_next_shot] on the byte 0xFF, which the conversion to [char]
    makes equal to [EOF]. *)
Lemma update_next_shot_xff (st : FormatDets.t) (rest : FILE) :
  FormatDets.in_ st = xff :: rest ->
  FormatDets.update_next_shot st
  = (Ret tt,
     FormatDets.mk (FormatDets.base st) rest (FormatDets.result_type st) EOF
                   (FormatDets.next_shot st) (FormatDets.position st)).
Proof.
  intros Hin. unfold FormatDets.update_next_shot. rewrite Hin. reflexivity.
Qed.

(** X5.  The DETS constructor does not examine the byte after the keyword:
    it always goes on to parse a token.  A record without tokens is
    therefore accepted when the stream ends after that byte, and also when
    the byte 0xFF follows, which the reader takes for the end of the
    stream; the record then reads as zeros.  Followed by any other byte
    that is not M, D or L (the "s" of the "shot" of a next record, for
    one), it is rejected as an unknown result type. *)
Theorem dets_record_without_tokens (c : byte) (bits d l : Z) :
  0 <= bits <= SSIZE_MAX ->
  (forall f : FILE,
      f = [] \/ (exists rest, f = xff :: rest) ->
      exists st0 st1,
        FormatDets.ctor (shot_bytes ++ c :: f) bits d l = Ret st0 /\
        FormatDets.in_ st0 = tl f /\
        read_bits FormatDets.read_bit (Z.to_nat bits) st0
        = (Ret (repeat false (Z.to_nat bits)), st1)) /\
  (forall (t : byte) (rest : FILE),
      is_tag (byte_val t) = false -> t <> xff ->
      FormatDets.ctor (shot_bytes ++ c :: t :: rest) bits d l
      = Throw (runtime_error UnknownResultType)).
Proof.
  intros Hb. split.
  - intros f Hf. unfold FormatDets.ctor, MeasureRecordReader.ctor.
    rewrite size_check_passes by lia.
    rewrite maybe_consume_keyword_shot.
    assert (Hrun : FormatDets.update_next_shot
                     (FormatDets.mk (MeasureRecordReader.mk 0 bits) f char_M
                                    (byte_val c) (-1) 0)
                   = (Ret tt,
                      FormatDets.mk (MeasureRecordReader.mk 0 bits) (tl f)
                                    char_M EOF (-1) 0)).
    { destruct Hf as [-> | [rest ->]]; [reflexivity|].
      apply update_next_shot_xff. reflexivity. }
    rewrite Hrun. eexists. eexists. split; [reflexivity|].
    split; [reflexivity|].
    rewrite dets_no_shot_reads_zero; [reflexivity|lia| |].
    + cbn [MeasureRecordReader.bits_per_record]. lia.
    + cbn [MeasureRecordReader.bits_per_record]. lia.
  - intros t rest Htag Hnff.
    assert (Hn255 : byte_val t <> 255).
    { intros H. apply Hnff. unfold byte_val in H.
      apply (f_equal Z.to_N) in H. rewrite N2Z.id in H.
      apply (f_equal Byte.of_N) in H. rewrite Byte.of_to_N in H.
      change (Byte.of_N (Z.to_N 255)) with (Some xff) in H. congruence. }
    unfold FormatDets.ctor, MeasureRecordReader.ctor.
    rewrite size_check_passes by lia.
    rewrite maybe_consume_keyword_shot.
    rewrite (update_next_shot_unknown
               (FormatDets.mk (MeasureRecordReader.mk 0 bits)
                              (t :: rest) char_M (byte_val c) (-1) 0)
               t rest eq_refl Hn255 Htag).
    reflexivity.
Qed.

Lemma dets_record_without_tokens_witness :
  FormatDets.ctor (stream_of ("shot" ++ nl ++ "shot M0" ++ nl)) 8 0 0
  = Throw (runtime_error UnknownResultType).
Proof.
  refine (proj2 (dets_record_without_tokens byte_nl 8 0 0 _)
            "s"%byte (stream_of ("hot M0" ++ nl)) eq_refl _).
  - rewrite SSIZE_MAX_eq. lia.
  - discriminate.
Defined.

(** ** Hits format: decoding a record *)

Lemma ascending_weaken (hs : list Z) :
  forall lo lo', lo' <= lo -> ascending lo hs -> ascending lo' hs.
Proof.
  destruct hs as [|h hs]; intros lo lo' Hle H; [exact I|].
  cbn in *. destruct H as [H1 H2]. split; [lia | exact H2].
Qed.

Lemma ascending_absent (hs : list Z) :
  forall lo p, p < lo -> ascending lo hs -> existsb (Z.eqb p) hs = false.
Proof.
  induction hs as [|h hs IH]; intros lo p Hlt H; [reflexivity|].
  cbn in *. destruct H as [H1 H2].
  assert (Hne : (p =? h) = false) by (apply Z.eqb_neq; lia).
  rewrite Hne. cbn [orb]. apply (IH (h + 1)); [lia | exact H2].
Qed.

Lemma hit_bits_ext (n : nat) :
  forall p hs hs',
    (forall q, p <= q -> existsb (Z.eqb q) hs = existsb (Z.eqb q) hs') ->
    hit_bits n p hs = hit_bits n p hs'.
Proof.
  induction n as [|n IH]; intros p hs hs' H; [reflexivity|].
  cbn [hit_bits]. rewrite (H p) by lia. f_equal.
  apply IH. intros q Hq. apply H. lia.
Qed.

Lemma hit_bits_app (n m : nat) :
  forall p hs,
    hit_bits (n + m) p hs = hit_bits n p hs ++ hit_bits m (p + Z.of_nat n) hs.
Proof.
  induction n as [|n IH]; intros p hs.
  - cbn. rewrite Z.add_0_r. reflexivity.
  - cbn [Nat.add hit_bits app]. rewrite IH. do 3 f_equal. lia.
Qed.

Lemma hits_line_cons (t : list byte) (ts : list (list byte)) (rest : FILE) :
  hits_line (t :: ts) ++ rest
  = t ++ (match ts with [] => byte_nl | _ :: _ => byte_comma end)
      :: match ts with [] => rest | _ :: _ => hits_line ts ++ rest end.
Proof.
  cbn [hits_line]. rewrite <- app_assoc. destruct ts; reflexivity.
Qed.

(** Parsing the first numeral of what is left of a line. *)
Lemma hits_parse (bits p cur0 sep0 b : Z) (t : list byte)
    (ts : list (list byte)) (rest : FILE) :
  numeral t -> p <= decimal 0 t < bits ->
  FormatHits.update_next_hit
    (FormatHits.mk (MeasureRecordReader.mk b bits)
                   (hits_line (t :: ts) ++ rest) sep0 cur0 p)
  = (Ret tt, hits_state bits p (decimal 0 t) ts rest b).
Proof.
  intros Hnum Hr.
  pose proof (update_next_hit_token
                (FormatHits.mk (MeasureRecordReader.mk b bits)
                               (hits_line (t :: ts) ++ rest) sep0 cur0 p)
                t (match ts with [] => byte_nl | _ :: _ => byte_comma end)
                (match ts with [] => rest | _ :: _ => hits_line ts ++ rest end)
                (hits_line_cons t ts rest) Hnum) as H.
  cbv zeta in H. destruct H as [_ H]; [destruct ts; auto|].
  rewrite H. unfold FormatHits.bits_per_record.
  cbn [FormatHits.position FormatHits.base
       MeasureRecordReader.bits_per_record].
  assert (H1 : (decimal 0 t <? p) = false) by (apply Z.ltb_ge; lia).
  assert (H2 : (decimal 0 t >=? bits) = false)
    by (rewrite Z.geb_leb; apply Z.leb_gt; lia).
  rewrite H1, H2. unfold hits_state. destruct ts; reflexivity.
Qed.

Lemma hits_begin (bits sep0 cur0 b : Z) (toks : list (list byte)) (rest : FILE) :
  hits_record bits toks ->
  FormatHits.update_next_hit
    (FormatHits.mk (MeasureRecordReader.mk b bits)
                   (hits_line toks ++ rest) sep0 (-1) 0)
  = (Ret tt, hits_start bits toks rest b).
Proof.
  intros (Hnum & Hasc & Hlt). destruct toks as [|t ts].
  - reflexivity.
  - cbn [hits_start]. inversion Hnum; subst. cbn in Hasc, Hlt.
    inversion Hlt; subst. apply hits_parse; [assumption | lia].
Qed.

(** One [read_bit] in the middle of a line. *)
Lemma hits_read_bit_step (bits p cur b : Z) (later : list (list byte))
    (rest : FILE) :
  0 <= p < bits -> bits <= SSIZE_MAX -> -1 <= cur < bits ->
  Forall numeral later ->
  ascending (cur + 1) (map (decimal 0) later) ->
  Forall (fun h => h < bits) (map (decimal 0) later) ->
  (later <> [] -> p <= cur + 1) ->
  exists cur' later',
    FormatHits.read_bit (hits_state bits p cur later rest b)
    = (Ret (existsb (Z.eqb p) (cur :: map (decimal 0) later)),
       hits_state bits (p + 1) cur' later' rest b) /\
    -1 <= cur' < bits /\
    Forall numeral later' /\
    ascending (cur' + 1) (map (decimal 0) later') /\
    Forall (fun h => h < bits) (map (decimal 0) later') /\
    (later' <> [] -> p + 1 <= cur' + 1) /\
    (forall q, p < q ->
        existsb (Z.eqb q) (cur' :: map (decimal 0) later')
        = existsb (Z.eqb q) (cur :: map (decimal 0) later)).
Proof.
  intros Hp Hs Hcur Hnum Hasc Hlt Hnear.
  rewrite SSIZE_MAX_eq in Hs.
  assert (Hguard : (to_size_t p >=? bits) = false).
  { rewrite to_size_t_small by (rewrite SIZE_MODULUS_eq; lia).
    rewrite Z.geb_leb. apply Z.leb_gt. lia. }
  assert (Hadv : forall c l,
             FormatHits.compare_and_advance (hits_state bits p c l rest b)
             = (Ret (c =? p), hits_state bits (p + 1) c l rest b)).
  { intros c l. unfold FormatHits.compare_and_advance, hits_state.
    cbn [FormatHits.position FormatHits.next_hit FormatHits.base
         FormatHits.in_ FormatHits.separator].
    assert (H2 : (p + 1 >? LONG_MAX) = false)
      by (rewrite Z.gtb_ltb; apply Z.ltb_ge; rewrite LONG_MAX_eq; lia).
    rewrite H2. reflexivity. }
  unfold FormatHits.read_bit.
  destruct later as [|t ts].
  - (* the line has been parsed to its end *)
    set (st := hits_state bits p cur [] rest b).
    change (FormatHits.position st) with p.
    change (FormatHits.bits_per_record st) with bits.
    change (FormatHits.separator st) with char_nl.
    change (FormatHits.next_hit st) with cur.
    rewrite Hguard.
    change (char_nl =? char_comma) with false. rewrite andb_false_r.
    subst st. rewrite Hadv.
    exists cur, []. cbn [map existsb]. rewrite orb_false_r, (Z.eqb_sym p cur).
    split; [reflexivity|]. split; [lia|]. split; [constructor|].
    split; [exact I|]. split; [constructor|]. split; [congruence|].
    intros q Hq. reflexivity.
  - inversion Hnum as [|? ? Hnt Hnts]; subst.
    cbn [map ascending] in Hasc. destruct Hasc as [Hlo Hasc].
    cbn [map] in Hlt. inversion Hlt as [|? ? Hlt1 Hlts]; subst.
    specialize (Hnear ltac:(discriminate)).
    set (st := hits_state bits p cur (t :: ts) rest b).
    change (FormatHits.position st) with p.
    change (FormatHits.bits_per_record st) with bits.
    change (FormatHits.separator st) with char_comma.
    change (FormatHits.next_hit st) with cur.
    rewrite Hguard.
    change (char_comma =? char_comma) with true. rewrite andb_true_r.
    destruct (p >? cur) eqn:Hgt.
    + (* the next numeral is parsed now *)
      rewrite Z.gtb_ltb in Hgt. apply Z.ltb_lt in Hgt.
      unfold bind.
      pose proof (hits_parse bits p cur char_comma b t ts rest Hnt
                    ltac:(lia)) as Hparse.
      change (FormatHits.update_next_hit st
              = (Ret tt, hits_state bits p (decimal 0 t) ts rest b))
        in Hparse.
      rewrite Hparse, Hadv.
      exists (decimal 0 t), ts. cbn [map existsb].
      assert (H1 : (p =? cur) = false) by (apply Z.eqb_neq; lia).
      rewrite H1. cbn [orb].
      rewrite (ascending_absent (map (decimal 0) ts) (decimal 0 t + 1) p)
        by (lia || assumption).
      rewrite orb_false_r, (Z.eqb_sym p).
      split; [reflexivity|]. split; [lia|]. split; [assumption|].
      split; [assumption|]. split; [assumption|]. split; [lia|].
      intros q Hq.
      assert (H2 : (q =? cur) = false) by (apply Z.eqb_neq; lia).
      rewrite H2. reflexivity.
    + (* the index parsed last is still ahead *)
      rewrite Z.gtb_ltb in Hgt. apply Z.ltb_ge in Hgt.
      subst st. rewrite Hadv.
      exists cur, (t :: ts). cbn [map existsb].
      assert (H1 : (p =? decimal 0 t) = false) by (apply Z.eqb_neq; lia).
      rewrite H1. cbn [orb].
      rewrite (ascending_absent (map (decimal 0) ts) (decimal 0 t + 1) p)
        by (lia || assumption).
      rewrite orb_false_r, (Z.eqb_sym p).
      split; [reflexivity|]. split; [lia|]. split; [assumption|].
      split; [cbn [map ascending]; auto|]. split; [assumption|].
      split; [intros _; lia|]. intros q Hq. reflexivity.
Qed.

Lemma hits_ok_end (bits cur : Z) (later : list (list byte)) :
  hits_ok bits bits cur later -> later = [].
Proof.
  intros (_ & Hasc & Hlt & Hnear). destruct later as [|t ts]; [reflexivity|].
  specialize (Hnear ltac:(discriminate)).
  cbn [map ascending] in Hasc. cbn [map] in Hlt. inversion Hlt; subst. lia.
Qed.

(** Reading on, up to the end of the record. *)
Lemma hits_read_bits (n : nat) :
  forall (bits p cur b : Z) (later : list (list byte)) (rest : FILE),
    0 <= p -> p + Z.of_nat n <= bits -> bits <= SSIZE_MAX ->
    -1 <= cur < bits \/ (cur = -1 /\ bits = 0) ->
    Forall numeral later ->
    ascending (cur + 1) (map (decimal 0) later) ->
    Forall (fun h => h < bits) (map (decimal 0) later) ->
    (later <> [] -> p <= cur + 1) ->
    exists cur' later',
      read_bits FormatHits.read_bit n (hits_state bits p cur later rest b)
      = (Ret (hit_bits n p (cur :: map (decimal 0) later)),
         hits_state bits (p + Z.of_nat n) cur' later' rest b) /\
      hits_ok bits (p + Z.of_nat n) cur' later'.
Proof.
  induction n as [|n IH];
    intros bits p cur b later rest Hp Hn Hs Hcur Hnum Hasc Hlt Hnear.
  - exists cur, later. cbn [read_bits hit_bits Z.of_nat]. unfold ret.
    rewrite Z.add_0_r. split; [reflexivity|].
    repeat split; assumption.
  - assert (Hcur' : -1 <= cur < bits) by lia.
    destruct (hits_read_bit_step bits p cur b later rest)
      as (cur1 & later1 & Hrd & Hc1 & Hn1 & Ha1 & Hl1 & Hnear1 & Hsame);
      try assumption; try lia.
    destruct (IH bits (p + 1) cur1 b later1 rest)
      as (cur2 & later2 & Hrun & Hend); try assumption; try lia.
    exists cur2, later2. cbn [read_bits]. unfold bind. rewrite Hrd, Hrun.
    unfold ret. cbn [hit_bits].
    rewrite (hit_bits_ext n (p + 1) (cur1 :: map (decimal 0) later1)
               (cur :: map (decimal 0) later))
      by (intros q Hq; apply Hsame; lia).
    replace (p + 1 + Z.of_nat n) with (p + Z.of_nat (S n)) in * by lia.
    split; [reflexivity | exact Hend].
Qed.

Lemma hit_bits_drop (n : nat) (p c : Z) (hs : list Z) :
  c < p -> hit_bits n p (c :: hs) = hit_bits n p hs.
Proof.
  intros Hc. apply hit_bits_ext. intros q Hq. cbn [existsb].
  assert (H : (q =? c) = false) by (apply Z.eqb_neq; lia).
  rewrite H. reflexivity.
Qed.

(** A whole record read from the start of its line. *)
Lemma hits_read_record (bits b : Z) (toks : list (list byte)) (rest : FILE)
    (n : nat) :
  0 <= bits <= SSIZE_MAX -> hits_record bits toks ->
  Z.of_nat n <= bits ->
  exists cur later,
    read_bits FormatHits.read_bit n (hits_start bits toks rest b)
    = (Ret (hit_bits n 0 (map (decimal 0) toks)),
       hits_state bits (Z.of_nat n) cur later rest b) /\
    hits_ok bits (Z.of_nat n) cur later.
Proof.
  intros Hb (Hnum & Hasc & Hlt) Hn. destruct toks as [|t ts].
  - cbn [hits_start map].
    assert (Hcur : -1 <= -1 < bits \/ (-1 = -1 /\ bits = 0)) by lia.
    destruct (hits_read_bits n bits 0 (-1) b [] rest ltac:(lia) ltac:(lia)
                ltac:(lia) Hcur Hnum I Hlt ltac:(congruence))
      as (cur & later & Hrun & Hend).
    exists cur, later. rewrite Hrun, hit_bits_drop by lia. auto.
  - cbn [hits_start]. inversion Hnum; subst. cbn [map ascending] in Hasc.
    cbn [map] in Hlt. inversion Hlt; subst. destruct Hasc as [H0 Hasc].
    assert (Hcur : -1 <= decimal 0 t < bits \/ (decimal 0 t = -1 /\ bits = 0))
      by lia.
    destruct (hits_read_bits n bits 0 (decimal 0 t) b ts rest ltac:(lia)
                ltac:(lia) ltac:(lia) Hcur ltac:(assumption) Hasc
                ltac:(assumption) ltac:(intros _; lia))
      as (cur & later & Hrun & Hend).
    exists cur, later. rewrite Hrun. auto.
Qed.

Lemma ctor_hits_start (bits : Z) (toks : list (list byte)) (rest : FILE) :
  bits <= SSIZE_MAX -> hits_record bits toks ->
  FormatHits.ctor (hits_line toks ++ rest) bits
  = Ret (hits_start bits toks rest 0).
Proof.
  intros Hb Hrec. unfold FormatHits.ctor, MeasureRecordReader.ctor.
  rewrite size_check_passes by lia.
  rewrite (hits_begin bits 0 0 0 toks rest Hrec). reflexivity.
Qed.

(** X6.  A Hits reader made on a line of numerals that are strictly
    ascending and below the record size (separated by commas, closed by a
    newline; the line may be empty) returns, on its first [n] calls of
    [read_bit], a 1 at exactly the positions the line names.  Once all bits
    of the record are read, the line is consumed to its newline and nothing
    after it has been taken. *)
Theorem hits_record_decodes (bits : Z) (toks : list (list byte)) (rest : FILE)
    (n : nat) :
  0 <= bits <= SSIZE_MAX -> hits_record bits toks -> Z.of_nat n <= bits ->
  exists st0 st1,
    FormatHits.ctor (hits_line toks ++ rest) bits = Ret st0 /\
    read_bits FormatHits.read_bit n st0
    = (Ret (hit_bits n 0 (map (decimal 0) toks)), st1) /\
    FormatHits.position st1 = Z.of_nat n /\
    (Z.of_nat n = bits ->
     FormatHits.in_ st1 = rest /\ FormatHits.separator st1 = char_nl).
Proof.
  intros Hb Hrec Hn.
  destruct (hits_read_record bits 0 toks rest n Hb Hrec Hn)
    as (cur & later & Hrun & Hend).
  exists (hits_start bits toks rest 0),
    (hits_state bits (Z.of_nat n) cur later rest 0).
  split; [apply ctor_hits_start; [lia | exact Hrec]|].
  split; [exact Hrun|]. split; [reflexivity|].
  intros Hfull. rewrite Hfull in Hend. rewrite (hits_ok_end _ _ _ Hend).
  split; reflexivity.
Qed.

Lemma hits_record_decodes_witness :
  exists st0 st1,
    FormatHits.ctor (stream_of ("1,3,7" ++ nl ++ "2" ++ nl)) 8 = Ret st0 /\
    read_bits FormatHits.read_bit 8 st0
    = (Ret [false; true; false; true; false; false; false; true], st1) /\
    FormatHits.position st1 = 8 /\
    (8 = 8 -> FormatHits.in_ st1 = stream_of ("2" ++ nl) /\
              FormatHits.separator st1 = char_nl).
Proof.
  refine (hits_record_decodes 8 [[x31]; [x33]; [x37]] (stream_of ("2" ++ nl))
            8 _ _ _).
  - rewrite SSIZE_MAX_eq. lia.
  - repeat split.
    + repeat constructor; try discriminate; rewrite LONG_MAX_eq; cbn; lia.
    + cbn. lia.
    + cbn. lia.
    + cbn. lia.
    + repeat constructor; cbn; lia.
  - lia.
Defined.

(** ** Calls through the reader *)

Lemma read_bits_dispatch {S} (inj : S -> reader) (rb : M S bool) :
  (forall st, read_bit (inj st) = dispatch inj rb st) ->
  forall n st, read_bits read_bit n (inj st) = dispatch inj (read_bits rb n) st.
Proof.
  intros H. induction n as [|n IH]; intros st.
  - reflexivity.
  - cbn [read_bits]. unfold bind, dispatch in *. rewrite H.
    destruct (rb st) as [[b|s] st1]; [|reflexivity].
    rewrite IH. destruct (read_bits rb n st1) as [[bs|s] st2]; reflexivity.
Qed.

Lemma read_records_dispatch {S} (inj : S -> reader) (rb nr : M S bool) :
  (forall st, read_bit (inj st) = dispatch inj rb st) ->
  (forall st, next_record (inj st) = dispatch inj nr st) ->
  forall lens st,
    read_records read_bit next_record lens (inj st)
    = dispatch inj (read_records rb nr lens) st.
Proof.
  intros Hrb Hnr. induction lens as [|n lens IH]; intros st.
  - reflexivity.
  - cbn [read_records]. unfold bind, dispatch.
    rewrite (read_bits_dispatch inj rb Hrb). unfold dispatch.
    destruct (read_bits rb n st) as [[bits|s] st1]; [|reflexivity].
    rewrite Hnr. unfold dispatch.
    destruct (nr st1) as [[more|s] st2]; [|reflexivity].
    rewrite IH. unfold dispatch.
    destruct (read_records rb nr lens st2) as [[rest|s] st3]; reflexivity.
Qed.

Lemma read_bits_app {S} (rb : M S bool) (n m : nat) :
  forall st,
    read_bits rb (n + m) st
    = match read_bits rb n st with
      | (Ret x, st1) =>
          match read_bits rb m st1 with
          | (Ret y, st2) => (Ret (x ++ y), st2)
          | (Stop s, st2) => (Stop s, st2)
          end
      | (Stop s, st1) => (Stop s, st1)
      end.
Proof.
  induction n as [|n IH]; intros st.
  - cbn [Nat.add read_bits]. unfold ret.
    destruct (read_bits rb m st) as [[y|s] st2]; reflexivity.
  - cbn [Nat.add read_bits]. unfold bind, ret.
    destruct (rb st) as [[b|s] st1]; [|reflexivity].
    rewrite IH.
    destruct (read_bits rb n st1) as [[x|s] st2]; [|reflexivity].
    destruct (read_bits rb m st2) as [[y|s] st3]; reflexivity.
Qed.

Lemma read_bits_length {S} (rb : M S bool) (n : nat) :
  forall st bits st',
    read_bits rb n st = (Ret bits, st') -> length bits = n.
Proof.
  induction n as [|n IH]; intros st bits st' H.
  - cbn in H. unfold ret in H. inversion H. reflexivity.
  - cbn [read_bits] in H. unfold bind in H.
    destruct (rb st) as [[b|s] st1]; [|discriminate].
    destruct (read_bits rb n st1) as [[x|s] st2] eqn:E; [|discriminate].
    unfold ret in H. inversion H; subst. cbn [length]. f_equal.
    exact (IH _ _ _ E).
Qed.

(** ** Hits format: a file of records *)

Lemma hits_line_length (later : list (list byte)) :
  Forall numeral later -> (length later <= length (hits_line later))%nat.
Proof.
  induction later as [|t ts IH]; intros Hnum; [cbn; lia|].
  inversion Hnum as [|? ? (Hne & _) Hts]; subst. specialize (IH Hts).
  cbn [hits_line]. rewrite length_app.
  assert (Ht : (1 <= length t)%nat) by (destruct t; [congruence | cbn; lia]).
  destruct ts as [|t' ts']; cbn [length] in *; lia.
Qed.

(** The loop of [next_record] takes the rest of the line. *)
Lemma hits_drain (later : list (list byte)) :
  forall (fuel : nat) (bits p cur b : Z) (rest : FILE),
    (length later < fuel)%nat -> hits_ok bits p cur later ->
    exists cur',
      FormatHits.drain fuel (hits_state bits p cur later rest b)
      = (Ret tt, hits_state bits p cur' [] rest b).
Proof.
  induction later as [|t ts IH];
    intros fuel bits p cur b rest Hfuel (Hnum & Hasc & Hlt & Hnear);
    (destruct fuel as [|fuel]; [cbn [length] in Hfuel; lia|]);
    cbn [FormatHits.drain].
  - change (FormatHits.separator (hits_state bits p cur [] rest b))
      with char_nl.
    change (char_nl =? char_comma) with false. exists cur. reflexivity.
  - change (FormatHits.separator (hits_state bits p cur (t :: ts) rest b))
      with char_comma.
    change (char_comma =? char_comma) with true.
    inversion Hnum as [|? ? Hnt Hnts]; subst.
    cbn [map ascending] in Hasc. destruct Hasc as [Hlo Hasc].
    cbn [map] in Hlt. inversion Hlt as [|? ? Hlt1 Hlts]; subst.
    specialize (Hnear ltac:(discriminate)).
    pose proof (hits_parse bits p cur char_comma b t ts rest Hnt ltac:(lia))
      as Hparse.
    change (FormatHits.update_next_hit (hits_state bits p cur (t :: ts) rest b)
            = (Ret tt, hits_state bits p (decimal 0 t) ts rest b)) in Hparse.
    unfold bind. rewrite Hparse.
    apply IH; [cbn [length] in Hfuel; lia|].
    split; [assumption|]. split; [assumption|]. split; [assumption|].
    intros _. lia.
Qed.

(** [next_record], wherever in the record the reader stands. *)
Lemma hits_next_record (bits p cur b : Z) (later : list (list byte))
    (lines : list (list (list byte))) :
  hits_ok bits p cur later -> Forall (hits_record bits) lines ->
  FormatHits.next_record
    (hits_state bits p cur later (flat_map hits_line lines) b)
  = match lines with
    | [] => (Ret false,
             FormatHits.mk (MeasureRecordReader.mk b bits) [] EOF (-1) 0)
    | l :: ls => (Ret true, hits_start bits l (flat_map hits_line ls) b)
    end.
Proof.
  intros Hok Hrec. unfold FormatHits.next_record.
  destruct (hits_drain later
              (S (length (FormatHits.in_
                            (hits_state bits p cur later
                                        (flat_map hits_line lines) b))))
              bits p cur b (flat_map hits_line lines)) as (cur' & Hdrain).
  { destruct Hok as (Hnum & _). pose proof (hits_line_length later Hnum).
    unfold hits_state. cbn [FormatHits.in_].
    destruct later; [cbn; lia|]. rewrite length_app. lia. }
  { exact Hok. }
  rewrite Hdrain. unfold hits_state.
  cbn [FormatHits.base FormatHits.in_ FormatHits.separator].
  destruct lines as [|l ls].
  - reflexivity.
  - inversion Hrec; subst. cbn [flat_map].
    rewrite (hits_begin bits char_nl (-1) b l (flat_map hits_line ls))
      by assumption.
    destruct l as [|t [|t' ts]]; reflexivity.
Qed.

Lemma hits_read_lines (bits b : Z) (recs : list (nat * list (list byte))) :
  0 <= bits <= SSIZE_MAX ->
  forall first,
    Forall (fun r => Z.of_nat (fst r) <= bits /\ hits_record bits (snd r))
           (first :: recs) ->
    exists st1,
      read_records FormatHits.read_bit FormatHits.next_record
                   (map fst (first :: recs))
                   (hits_start bits (snd first)
                               (flat_map hits_line (map snd recs)) b)
      = (Ret (with_more
                (map (fun r => hit_bits (fst r) 0 (map (decimal 0) (snd r)))
                     (first :: recs))), st1).
Proof.
  intros Hb. induction recs as [|r rs IH]; intros [n toks] Hall;
    inversion Hall as [|? ? [Hn Htoks] Hrest]; subst; cbn [fst snd] in *.
  - destruct (hits_read_record bits b toks [] n Hb Htoks Hn)
      as (cur & later & Hrun & Hok).
    pose proof (hits_next_record bits (Z.of_nat n) cur b later [] Hok
                  ltac:(constructor)) as Hnext.
    cbn [map flat_map fst snd read_records with_more is_nil negb] in *.
    unfold bind at 1. rewrite Hrun. unfold bind at 1. rewrite Hnext.
    eexists. reflexivity.
  - assert (Hlines : Forall (hits_record bits) (map snd (r :: rs))).
    { apply Forall_map. eapply Forall_impl; [|exact Hrest].
      intros a [_ Ha]. exact Ha. }
    destruct (hits_read_record bits b toks
                (flat_map hits_line (map snd (r :: rs))) n Hb Htoks Hn)
      as (cur & later & Hrun & Hok).
    destruct (IH r Hrest) as (st1 & Hrec).
    exists st1.
    change (map fst ((n, toks) :: r :: rs)) with (n :: map fst (r :: rs)).
    cbn [read_records]. unfold bind at 1. rewrite Hrun. unfold bind at 1.
    rewrite (hits_next_record bits (Z.of_nat n) cur b later
               (map snd (r :: rs)) Hok Hlines).
    cbn [map]. unfold bind. cbn [map] in Hrec. rewrite Hrec. reflexivity.
Qed.

(** X7.  Reading a Hits file record by record.  For a stream made of lines
    of ascending numerals below the record size, the reader that [make]
    returns yields, with any number of calls of [read_bit] up to the record
    size and then a call of [next_record] for each line, the first bits of
    what each line names: [next_record] skips what is left of the line.  It
    returns [true] after every line but the last, and [false] after the
    last. *)
Theorem hits_file_round_trip (bits : Z) (first : nat * list (list byte))
    (recs : list (nat * list (list byte))) :
  0 <= bits <= SSIZE_MAX ->
  Forall (fun r => Z.of_nat (fst r) <= bits /\ hits_record bits (snd r))
         (first :: recs) ->
  exists r0 r1,
    make (flat_map hits_line (map snd (first :: recs))) SAMPLE_FORMAT_HITS
         bits 0 0
    = Ret r0 /\
    read_records read_bit next_record (map fst (first :: recs)) r0
    = (Ret (with_more
              (map (fun r => hit_bits (fst r) 0 (map (decimal 0) (snd r)))
                   (first :: recs))), r1).
Proof.
  intros Hb Hall.
  destruct (hits_read_lines bits 0 recs Hb first Hall) as (st1 & Hrun).
  inversion Hall as [|? ? [_ Hfirst] _]; subst.
  exists (ReaderHits (hits_start bits (snd first)
                                 (flat_map hits_line (map snd recs)) 0)),
    (ReaderHits st1).
  split.
  - unfold make. cbn [is_dets negb andb]. change (0 =? 0) with true.
    cbn [negb andb flat_map map].
    rewrite ctor_hits_start by (lia || assumption). reflexivity.
  - rewrite (read_records_dispatch ReaderHits FormatHits.read_bit
               FormatHits.next_record) by reflexivity.
    unfold dispatch. rewrite Hrun. reflexivity.
Qed.

Lemma hits_file_round_trip_witness :
  exists r0 r1,
    make (stream_of ("0,2" ++ nl ++ nl ++ "1" ++ nl)) SAMPLE_FORMAT_HITS 3 0 0
    = Ret r0 /\
    read_records read_bit next_record [1%nat; 3%nat; 3%nat] r0
    = (Ret [([true], true); ([false; false; false], true);
            ([false; true; false], false)], r1).
Proof.
  refine (hits_file_round_trip 3 (1%nat, [[x30]; [x32]])
            [(3%nat, []); (3%nat, [[x31]])] _ _).
  - rewrite SSIZE_MAX_eq. lia.
  - repeat constructor; try discriminate; try (rewrite LONG_MAX_eq; cbn; lia);
      cbn; lia.
Defined.

(** ** The generic [read_bytes] on a reader whose record ends by its size *)

(** A reader whose [read_bit] returns a bit whenever the cursor is inside
    the record and moves the cursor on by one, and whose
    [is_end_of_record] compares the cursor with the record size. *)
Section Counted.

Context {S : Type}.
Variable base : S -> MeasureRecordReader.t.
Variable read_bit : M S bool.
Variable is_end_of_record : M S bool.
Variable good : S -> Prop.

Let pos (st : S) : Z := MeasureRecordReader.position (base st).
Let bpr (st : S) : Z := MeasureRecordReader.bits_per_record (base st).

Hypothesis good_range :
  forall st, good st -> 0 <= pos st <= bpr st /\ bpr st <= SSIZE_MAX.

Hypothesis good_step :
  forall st,
    good st -> pos st < bpr st ->
    exists b st', read_bit st = (Ret b, st') /\ good st' /\
                  base st' = MeasureRecordReader.mk (pos st + 1) (bpr st).

Hypothesis end_by_size :
  forall st, good st -> is_end_of_record st = (Ret (pos st >=? bpr st), st).

Lemma good_reads (n : nat) :
  forall st,
    good st -> pos st + Z.of_nat n <= bpr st ->
    exists bits st',
      read_bits read_bit n st = (Ret bits, st') /\ length bits = n.
Proof.
  induction n as [|n IH]; intros st Hg Hn.
  - exists [], st. split; reflexivity.
  - destruct (good_step st Hg ltac:(lia)) as (b & st1 & Hrd & Hg1 & Hb1).
    destruct (IH st1 Hg1) as (bits & st' & Hrun & Hlen).
    { unfold pos, bpr. rewrite Hb1. cbn. fold (pos st) (bpr st). lia. }
    exists (b :: bits), st'. cbn [read_bits]. unfold bind, ret.
    rewrite Hrd, Hrun. split; [reflexivity | cbn [length]; lia].
Qed.

Lemma upcoming_length (st : S) :
  good st -> length (upcoming base read_bit st) = Z.to_nat (bpr st - pos st).
Proof.
  intros Hg. destruct (good_range st Hg) as [Hr _]. unfold upcoming.
  fold (pos st) (bpr st).
  destruct (good_reads (Z.to_nat (bpr st - pos st)) st Hg ltac:(lia))
    as (bits & st' & Hrun & Hlen).
  rewrite Hrun. exact Hlen.
Qed.

Lemma upcoming_step (st st' : S) (b : bool) :
  good st -> pos st < bpr st -> read_bit st = (Ret b, st') -> good st' ->
  base st' = MeasureRecordReader.mk (pos st + 1) (bpr st) ->
  upcoming base read_bit st = b :: upcoming base read_bit st'.
Proof.
  intros Hg Hlt Hrd Hg' Hb. unfold upcoming.
  fold (pos st) (bpr st) (pos st') (bpr st').
  assert (Hn : Z.to_nat (bpr st - pos st)
               = Datatypes.S (Z.to_nat (bpr st' - pos st'))).
  { unfold pos at 2, bpr at 2. rewrite Hb. cbn. fold (pos st) (bpr st). lia. }
  rewrite Hn. cbn [read_bits]. unfold bind, ret. rewrite Hrd.
  destruct (good_range st' Hg') as [Hr' _].
  destruct (good_reads (Z.to_nat (bpr st' - pos st')) st' Hg' ltac:(lia))
    as (bits & st2 & Hrun & _).
  rewrite Hrun. reflexivity.
Qed.

(** The generic [read_bytes] delivers the bits to come, as many as the
    buffer holds, and no more than the record has left. *)
Lemma counted_read_bytes (data : list Z) (st : S) :
  good st ->
  let m := Nat.min (8 * length data) (Z.to_nat (bpr st - pos st)) in
  exists data' st',
    MeasureRecordReader.read_bytes base read_bit is_end_of_record data st
    = (Ret (Z.of_nat m), data', st') /\
    length data' = length data /\
    agrees data' (upcoming base read_bit st) m /\
    good st' /\
    base st' = MeasureRecordReader.mk (pos st + Z.of_nat m) (bpr st).
Proof.
  intros Hg m. destruct (good_range st Hg) as [Hr Hs].
  destruct (Z_lt_ge_dec (pos st) (bpr st)) as [Hlt | Hge].
  - assert (Hnext : forall s b rest,
               good s ->
               MeasureRecordReader.position (base s)
               < MeasureRecordReader.bits_per_record (base s) ->
               upcoming base read_bit s = b :: rest ->
               exists s', read_bit s = (Ret b, s') /\ good s' /\
                          upcoming base read_bit s' = rest /\
                          base s'
                          = MeasureRecordReader.mk
                              (MeasureRecordReader.position (base s) + 1)
                              (MeasureRecordReader.bits_per_record (base s))).
    { intros s b rest Hgs Hlts Hup.
      destruct (good_step s Hgs Hlts) as (b' & s' & Hrd & Hgs' & Hbs').
      rewrite (upcoming_step s s' b' Hgs Hlts Hrd Hgs' Hbs') in Hup.
      inversion Hup; subst. exists s'. auto. }
    assert (Hend : forall s,
               good s ->
               exists s',
                 is_end_of_record s
                 = (Ret ((MeasureRecordReader.position (base s)
                          >=? MeasureRecordReader.bits_per_record (base s))
                         || is_nil (upcoming base read_bit s)), s') /\
                 good s' /\
                 upcoming base read_bit s' = upcoming base read_bit s /\
                 base s' = base s).
    { intros s Hgs. exists s. split; [|auto].
      rewrite (end_by_size s Hgs). f_equal. f_equal.
      fold (pos s) (bpr s).
      destruct (pos s >=? bpr s) eqn:E; [reflexivity|].
      rewrite Z.geb_leb in E. apply Z.leb_gt in E.
      pose proof (upcoming_length s Hgs) as Hlen.
      destruct (upcoming base read_bit s);
        [cbn [length] in Hlen; lia | reflexivity]. }
    pose proof (upcoming_length st Hg) as Hlen.
    destruct (generic_loop_spec base read_bit is_end_of_record
                (upcoming base read_bit) good
                good_range Hnext Hend data 0 st Hg Hlt)
      as (d' & st' & Hloop & Hlen' & Hag & Hg' & _ & Hb').
    { destruct (upcoming base read_bit st);
        [cbn [length] in Hlen; lia | discriminate]. }
    { fold (pos st). lia. }
    assert (Hm : deliverable base (upcoming base read_bit)
                             (8 * length data) st = m)
      by (unfold deliverable; fold (pos st) (bpr st); rewrite Hlen; lia).
    rewrite Hm in *. exists d', st'.
    unfold MeasureRecordReader.read_bytes. fold (pos st) (bpr st).
    assert (H1 : (pos st >=? bpr st) = false)
      by (rewrite Z.geb_leb; apply Z.leb_gt; exact Hlt).
    rewrite H1. auto.
  - exists data, st. unfold MeasureRecordReader.read_bytes.
    fold (pos st) (bpr st).
    assert (H1 : (pos st >=? bpr st) = true)
      by (rewrite Z.geb_leb; apply Z.leb_le; lia).
    rewrite H1.
    assert (Hm : m = 0%nat) by (subst m; lia).
    rewrite Hm. cbn [Z.of_nat]. rewrite Z.add_0_r.
    split; [reflexivity|]. split; [reflexivity|].
    split; [intros i Hi; lia|]. split; [exact Hg|].
    unfold pos, bpr. destruct (base st); reflexivity.
Qed.

End Counted.

(** ** Hits format: [read_bytes] *)

Lemma hits_good_range (st : FormatHits.t) :
  hits_good st ->
  0 <= MeasureRecordReader.position (FormatHits.as_base st)
    <= MeasureRecordReader.bits_per_record (FormatHits.as_base st) /\
  MeasureRecordReader.bits_per_record (FormatHits.as_base st) <= SSIZE_MAX.
Proof.
  intros (bits & p & cur & later & rest & b & -> & Hp & Hb & _).
  pose proof SSIZE_MAX_eq.
  unfold FormatHits.as_base, FormatHits.bits_per_record.
  cbn [hits_state FormatHits.position FormatHits.base
       MeasureRecordReader.position MeasureRecordReader.bits_per_record].
  rewrite to_size_t_small by (rewrite SIZE_MODULUS_eq; lia). lia.
Qed.

Lemma hits_good_step (st : FormatHits.t) :
  hits_good st ->
  MeasureRecordReader.position (FormatHits.as_base st)
  < MeasureRecordReader.bits_per_record (FormatHits.as_base st) ->
  exists b st',
    FormatHits.read_bit st = (Ret b, st') /\ hits_good st' /\
    FormatHits.as_base st'
    = MeasureRecordReader.mk
        (MeasureRecordReader.position (FormatHits.as_base st) + 1)
        (MeasureRecordReader.bits_per_record (FormatHits.as_base st)).
Proof.
  intros (bits & p & cur & later & rest & b & -> & Hp & Hb & Hc & Hok) Hlt.
  pose proof SSIZE_MAX_eq. pose proof SIZE_MODULUS_eq.
  unfold FormatHits.as_base, FormatHits.bits_per_record in *.
  cbn [hits_state FormatHits.position FormatHits.base
       MeasureRecordReader.position MeasureRecordReader.bits_per_record] in *.
  rewrite to_size_t_small in Hlt by lia.
  destruct Hok as (Hnum & Hasc & Hbelow & Hnear).
  destruct (hits_read_bit_step bits p cur b later rest)
    as (cur1 & later1 & Hrd & Hc1 & Hn1 & Ha1 & Hl1 & Hnear1 & _);
    try assumption; try lia.
  eexists. exists (hits_state bits (p + 1) cur1 later1 rest b).
  split; [exact Hrd|]. split.
  - exists bits, (p + 1), cur1, later1, rest, b.
    split; [reflexivity|]. split; [lia|]. split; [lia|]. split; [lia|].
    repeat split; assumption.
  - cbn [hits_state FormatHits.position FormatHits.base
         MeasureRecordReader.position MeasureRecordReader.bits_per_record].
    rewrite !to_size_t_small by lia. reflexivity.
Qed.

Lemma hits_end_by_size (st : FormatHits.t) :
  hits_good st ->
  FormatHits.is_end_of_record st
  = (Ret (MeasureRecordReader.position (FormatHits.as_base st)
          >=? MeasureRecordReader.bits_per_record (FormatHits.as_base st)), st).
Proof. intros _. reflexivity. Qed.

Lemma hits_start_good (bits : Z) (toks : list (list byte)) (rest : FILE) :
  0 <= bits <= SSIZE_MAX -> hits_record bits toks ->
  hits_good (hits_start bits toks rest 0).
Proof.
  intros Hb (Hnum & Hasc & Hlt). destruct toks as [|t ts]; cbn [hits_start].
  - exists bits, 0, (-1), [], rest, 0. split; [reflexivity|].
    split; [lia|]. split; [lia|]. split; [lia|].
    repeat split; try constructor. congruence.
  - inversion Hnum; subst. cbn [map ascending] in Hasc. cbn [map] in Hlt.
    inversion Hlt; subst. destruct Hasc as [H0 Hasc].
    exists bits, 0, (decimal 0 t), ts, rest, 0. split; [reflexivity|].
    split; [lia|]. split; [lia|]. split; [lia|].
    repeat split; try assumption. intros _. lia.
Qed.

(** X8.  [read_bytes], which the Hits reader inherits from the base class.
    On a reader made on a well-formed line it returns the number of bits
    of the record, or the number of bits the buffer holds if that is less;
    the buffer then holds, least significant bit first, that many bits of
    the record: a 1 at exactly the positions the line names.  The cursor
    stands at the count.  When the whole record has been delivered,
    [is_end_of_record] answers [true] and a further [read_bytes] returns 0
    and leaves its buffer alone. *)
Theorem hits_read_bytes_decodes (bits : Z) (toks : list (list byte))
    (rest : FILE) (data : list Z) :
  0 <= bits <= SSIZE_MAX -> hits_record bits toks ->
  let m := Nat.min (8 * length data) (Z.to_nat bits) in
  exists st0 data' st1,
    FormatHits.ctor (hits_line toks ++ rest) bits = Ret st0 /\
    FormatHits.read_bytes data st0 = (Ret (Z.of_nat m), data', st1) /\
    length data' = length data /\
    agrees data' (hit_bits (Z.to_nat bits) 0 (map (decimal 0) toks)) m /\
    FormatHits.position st1 = Z.of_nat m /\
    (Z.of_nat m = bits ->
     FormatHits.is_end_of_record st1 = (Ret true, st1) /\
     forall more, FormatHits.read_bytes more st1 = (Ret 0, more, st1)).
Proof.
  intros Hb Hrec m. pose proof SSIZE_MAX_eq as HS.
  pose proof SIZE_MODULUS_eq as HM.
  set (st0 := hits_start bits toks rest 0).
  assert (Hpos0 : FormatHits.position st0 = 0
                  /\ FormatHits.bits_per_record st0 = bits)
    by (subst st0; destruct toks; split; reflexivity).
  destruct Hpos0 as [Hpos0 Hbits0].
  destruct (counted_read_bytes FormatHits.as_base FormatHits.read_bit
              FormatHits.is_end_of_record hits_good hits_good_range
              hits_good_step hits_end_by_size data st0
              (hits_start_good bits toks rest Hb Hrec))
    as (d' & st1 & Hrun & Hlen & Hag & Hg1 & Hb1).
  assert (Hpos : MeasureRecordReader.position (FormatHits.as_base st0) = 0)
    by (unfold FormatHits.as_base; cbn [MeasureRecordReader.position];
        rewrite Hpos0; reflexivity).
  assert (Hbpr : MeasureRecordReader.bits_per_record (FormatHits.as_base st0)
                 = bits) by exact Hbits0.
  cbv zeta in Hrun, Hag, Hb1.
  rewrite Hpos, Hbpr in Hrun, Hag, Hb1.
  rewrite Z.sub_0_r in Hrun, Hag, Hb1. rewrite Z.add_0_l in Hb1.
  fold m in Hrun, Hag, Hb1.
  assert (Hup : upcoming FormatHits.as_base FormatHits.read_bit st0
                = hit_bits (Z.to_nat bits) 0 (map (decimal 0) toks)).
  { unfold upcoming. rewrite Hpos, Hbpr, Z.sub_0_r.
    destruct (hits_read_record bits 0 toks rest (Z.to_nat bits) Hb Hrec
                ltac:(lia)) as (cur & later & Hread & _).
    fold st0 in Hread. rewrite Hread. reflexivity. }
  rewrite Hup in Hag.
  assert (Hp1 : FormatHits.position st1 = Z.of_nat m /\
                FormatHits.bits_per_record st1 = bits).
  { pose proof (f_equal MeasureRecordReader.position Hb1) as H1.
    pose proof (f_equal MeasureRecordReader.bits_per_record Hb1) as H2.
    destruct Hg1 as (bits' & p & cur & later & rest' & b & -> & Hp & Hbb & _).
    unfold FormatHits.as_base, FormatHits.bits_per_record in *.
    cbn [hits_state FormatHits.position FormatHits.base
         MeasureRecordReader.position MeasureRecordReader.bits_per_record]
      in *.
    rewrite to_size_t_small in H1 by lia. split; assumption. }
  destruct Hp1 as [Hp1 Hbits1].
  exists st0, d', st1.
  split; [apply ctor_hits_start; [lia | exact Hrec]|].
  split; [exact Hrun|]. split; [exact Hlen|]. split; [exact Hag|].
  split; [exact Hp1|].
  intros Hfull.
  assert (Hge : (to_size_t (FormatHits.position st1)
                 >=? FormatHits.bits_per_record st1) = true).
  { rewrite Hp1, Hbits1, Hfull.
    rewrite to_size_t_small by lia. rewrite Z.geb_leb. apply Z.leb_refl. }
  split.
  - unfold FormatHits.is_end_of_record,
      MeasureRecordReader.base_is_end_of_record, FormatHits.as_base.
    cbn [MeasureRecordReader.position MeasureRecordReader.bits_per_record].
    rewrite Hge. reflexivity.
  - intros more. unfold FormatHits.read_bytes, MeasureRecordReader.read_bytes,
      FormatHits.as_base.
    cbn [MeasureRecordReader.position MeasureRecordReader.bits_per_record].
    rewrite Hge. reflexivity.
Qed.

Lemma hits_read_bytes_decodes_witness :
  exists st0 data' st1,
    FormatHits.ctor (stream_of ("1,3,7" ++ nl ++ "2" ++ nl)) 12 = Ret st0 /\
    FormatHits.read_bytes [170; 170] st0 = (Ret 12, data', st1) /\
    length data' = 2%nat /\
    agrees data' (hit_bits 12 0 [1; 3; 7]) 12 /\
    FormatHits.position st1 = 12 /\
    (12 = 12 ->
     FormatHits.is_end_of_record st1 = (Ret true, st1) /\
     forall more, FormatHits.read_bytes more st1 = (Ret 0, more, st1)).
Proof.
  refine (hits_read_bytes_decodes 12 [[x31]; [x33]; [x37]]
            (stream_of ("2" ++ nl)) [170; 170] _ _).
  - rewrite SSIZE_MAX_eq. lia.
  - repeat split.
    + repeat constructor; try discriminate; rewrite LONG_MAX_eq; cbn; lia.
    + cbn. lia.
    + cbn. lia.
    + cbn. lia.
    + repeat constructor; cbn; lia.
Defined.

(** ** DETS format: decoding a record *)

Lemma dets_tokens_cons (tag : byte) (ds : list byte)
    (ts : list (byte * list byte)) (rest : FILE) :
  dets_tokens ((tag, ds) :: ts) ++ rest
  = tag :: ds ++ (match ts with [] => byte_nl | _ :: _ => byte_space end)
      :: match ts with [] => rest | _ :: _ => dets_tokens ts ++ rest end.
Proof.
  cbn [dets_tokens app]. rewrite <- app_assoc. destruct ts; reflexivity.
Qed.

(** Parsing the first token of what is left of a line. *)
Lemma dets_parse (bits p ty cur0 sep0 b : Z) (tag : byte) (ds : list byte)
    (ts : list (byte * list byte)) (rest : FILE) :
  dets_token (tag, ds) -> 0 <= p -> bits <= SSIZE_MAX ->
  let idx := if byte_val tag =? ty then decimal 0 ds else decimal 0 ds + p in
  p <= idx < bits ->
  FormatDets.update_next_shot
    (FormatDets.mk (MeasureRecordReader.mk b bits)
                   (dets_tokens ((tag, ds) :: ts) ++ rest) ty sep0 cur0 p)
  = (Ret tt, dets_state bits p (byte_val tag) idx ts rest b).
Proof.
  intros [Htag (Hne & Hds & Hmax)] Hp Hb idx Hidx. cbn [fst snd] in *.
  set (sep := match ts with [] => byte_nl | _ :: _ => byte_space end).
  assert (Hnd : is_digit_byte sep = false) by (destruct ts; reflexivity).
  unfold FormatDets.update_next_shot. cbn [FormatDets.in_].
  rewrite dets_tokens_cons. fold sep. cbn [getc].
  destruct (to_char_tag tag Htag) as [Hc He]. rewrite Hc, He.
  assert (Ht : negb (byte_val tag =? char_M) && negb (byte_val tag =? char_D)
               && negb (byte_val tag =? char_L) = false).
  { unfold is_tag in Htag.
    destruct (byte_val tag =? char_M), (byte_val tag =? char_D),
      (byte_val tag =? char_L); try reflexivity; discriminate Htag. }
  rewrite Ht.
  cbn [FormatDets.next_shot FormatDets.base FormatDets.result_type
       FormatDets.position FormatDets.separator].
  match goal with
  | |- context [read_unsigned_int (ds ++ sep :: ?r) cur0] =>
      destruct (read_unsigned_int_token ds sep r cur0 Hne Hds Hnd Hmax)
        as [Hr Hv]
  end.
  rewrite Hr.
  assert (Hs : negb (byte_val sep =? char_space) && negb (byte_val sep =? char_nl)
               = false) by (subst sep; destruct ts; reflexivity).
  rewrite Hs.
  pose proof LONG_MAX_eq as HL. pose proof SIZE_MODULUS_eq as HS.
  pose proof SSIZE_MAX_eq as HM.
  unfold FormatDets.bits_per_record.
  cbn [FormatDets.base MeasureRecordReader.bits_per_record].
  subst idx. unfold dets_state.
  destruct (byte_val tag =? ty) eqn:Hsame; cbn [negb andb].
  - apply Z.eqb_eq in Hsame.
    rewrite (to_size_t_small (decimal 0 ds)) by lia.
    assert (H1 : (decimal 0 ds <? p) = false) by (apply Z.ltb_ge; lia).
    assert (H2 : (decimal 0 ds >=? bits) = false)
      by (rewrite Z.geb_leb; apply Z.leb_gt; lia).
    rewrite H1, H2, <- Hsame. subst sep. destruct ts; reflexivity.
  - assert (Hr1 : (decimal 0 ds + p >? LONG_MAX) = false)
      by (rewrite Z.gtb_ltb; apply Z.ltb_ge; lia).
    assert (Hr2 : (decimal 0 ds + p <? - LONG_MAX - 1) = false)
      by (apply Z.ltb_ge; lia).
    rewrite Hr1, Hr2. cbn [orb].
    rewrite (to_size_t_small (decimal 0 ds + p)) by lia.
    assert (H1 : (decimal 0 ds + p <? p) = false) by (apply Z.ltb_ge; lia).
    assert (H2 : (decimal 0 ds + p >=? bits) = false)
      by (rewrite Z.geb_leb; apply Z.leb_gt; lia).
    rewrite H1, H2. subst sep. destruct ts; reflexivity.
Qed.

Lemma resolve_first (ty ty' : Z) (toks : list (byte * list byte)) :
  resolve ty (-1) toks = resolve ty' (-1) toks.
Proof.
  destruct toks as [|[tag ds] ts]; [reflexivity|]. cbn [resolve].
  change (-1 + 1) with 0. rewrite Z.add_0_r.
  destruct (byte_val tag =? ty), (byte_val tag =? ty'); reflexivity.
Qed.

Lemma dets_begin (bits ty sep0 b : Z) (toks : list (byte * list byte))
    (rest : FILE) :
  bits <= SSIZE_MAX -> dets_record bits toks ->
  FormatDets.update_next_shot
    (FormatDets.mk (MeasureRecordReader.mk b bits)
                   (dets_tokens toks ++ rest) ty sep0 (-1) 0)
  = (Ret tt, dets_start bits toks rest b).
Proof.
  intros Hb (Hne & Htok & Hasc & Hlt).
  destruct toks as [|[tag ds] ts]; [congruence|].
  inversion Htok as [|? ? Ht Hts]; subst.
  unfold dets_indices in Hasc, Hlt. cbn [resolve] in Hasc, Hlt.
  change (-1 + 1) with 0 in Hasc, Hlt. rewrite Z.add_0_r in Hasc, Hlt.
  assert (Hidx : (if byte_val tag =? char_M then decimal 0 ds
                  else decimal 0 ds) = decimal 0 ds)
    by (destruct (byte_val tag =? char_M); reflexivity).
  rewrite Hidx in Hasc, Hlt. cbn [ascending] in Hasc.
  inversion Hlt; subst.
  pose proof (dets_parse bits 0 ty (-1) sep0 b tag ds ts rest Ht
                ltac:(lia) Hb) as H.
  cbv zeta in H. rewrite Z.add_0_r in H.
  assert (Hidx' : (if byte_val tag =? ty then decimal 0 ds
                   else decimal 0 ds) = decimal 0 ds)
    by (destruct (byte_val tag =? ty); reflexivity).
  rewrite Hidx' in H. rewrite H by lia. reflexivity.
Qed.

(** One [read_bit] in the middle of a record. *)
Lemma dets_read_bit_step (bits p ty cur b : Z)
    (later : list (byte * list byte)) (rest : FILE) :
  0 <= p < bits -> bits <= SSIZE_MAX -> -1 <= cur < bits ->
  Forall dets_token later ->
  ascending (cur + 1) (resolve ty cur later) ->
  Forall (fun h => h < bits) (resolve ty cur later) ->
  (later <> [] -> p <= cur + 1) ->
  exists ty' cur' later',
    FormatDets.read_bit (dets_state bits p ty cur later rest b)
    = (Ret (existsb (Z.eqb p) (cur :: resolve ty cur later)),
       dets_state bits (p + 1) ty' cur' later' rest b) /\
    -1 <= cur' < bits /\
    Forall dets_token later' /\
    ascending (cur' + 1) (resolve ty' cur' later') /\
    Forall (fun h => h < bits) (resolve ty' cur' later') /\
    (later' <> [] -> p + 1 <= cur' + 1) /\
    (forall q, p < q ->
        existsb (Z.eqb q) (cur' :: resolve ty' cur' later')
        = existsb (Z.eqb q) (cur :: resolve ty cur later)) /\
    (forall all, dets_trace all ty cur later -> dets_trace all ty' cur' later').
Proof.
  intros Hp Hs Hcur Htok Hasc Hlt Hnear.
  pose proof SSIZE_MAX_eq as HM.
  assert (Hguard : (to_size_t p >=? bits) = false).
  { rewrite to_size_t_small by (rewrite SIZE_MODULUS_eq; lia).
    rewrite Z.geb_leb. apply Z.leb_gt. lia. }
  assert (Hadv : forall y c l,
             FormatDets.compare_and_advance (dets_state bits p y c l rest b)
             = (Ret (c =? p), dets_state bits (p + 1) y c l rest b)).
  { intros y c l. unfold FormatDets.compare_and_advance, dets_state.
    cbn [FormatDets.position FormatDets.next_shot FormatDets.base
         FormatDets.in_ FormatDets.separator FormatDets.result_type].
    assert (H2 : (p + 1 >? LONG_MAX) = false)
      by (rewrite Z.gtb_ltb; apply Z.ltb_ge; rewrite LONG_MAX_eq; lia).
    rewrite H2. reflexivity. }
  unfold FormatDets.read_bit.
  destruct later as [|[tag ds] ts].
  - (* the line has been parsed to its end *)
    set (st := dets_state bits p ty cur [] rest b).
    change (FormatDets.position st) with p.
    change (FormatDets.bits_per_record st) with bits.
    change (FormatDets.separator st) with char_nl.
    change (FormatDets.next_shot st) with cur.
    rewrite Hguard.
    change (char_nl =? char_space) with false. rewrite andb_false_r.
    subst st. rewrite Hadv.
    exists ty, cur, []. cbn [resolve existsb].
    rewrite orb_false_r, (Z.eqb_sym p cur).
    split; [reflexivity|]. split; [lia|]. split; [constructor|].
    split; [exact I|]. split; [constructor|]. split; [congruence|].
    split; [intros q Hq; reflexivity|]. intros all Hall. exact Hall.
  - inversion Htok as [|? ? Ht Hts]; subst.
    cbn [resolve] in Hasc, Hlt |- *.
    set (a := if byte_val tag =? ty then decimal 0 ds
              else decimal 0 ds + (cur + 1)) in *.
    cbn [ascending] in Hasc. destruct Hasc as [Hlo Hasc].
    inversion Hlt as [|? ? Hlt1 Hlts]; subst.
    specialize (Hnear ltac:(discriminate)).
    set (st := dets_state bits p ty cur ((tag, ds) :: ts) rest b).
    change (FormatDets.position st) with p.
    change (FormatDets.bits_per_record st) with bits.
    change (FormatDets.separator st) with char_space.
    change (FormatDets.next_shot st) with cur.
    rewrite Hguard.
    change (char_space =? char_space) with true. rewrite andb_true_r.
    destruct (p >? cur) eqn:Hgt.
    + (* the next token is parsed now *)
      rewrite Z.gtb_ltb in Hgt. apply Z.ltb_lt in Hgt.
      assert (Hpc : p = cur + 1) by lia.
      unfold bind.
      pose proof (dets_parse bits p ty cur char_space b tag ds ts rest Ht
                    ltac:(lia) Hs) as Hparse.
      cbv zeta in Hparse.
      assert (Ha : (if byte_val tag =? ty then decimal 0 ds
                    else decimal 0 ds + p) = a)
        by (unfold a; rewrite Hpc; reflexivity).
      rewrite Ha in Hparse. specialize (Hparse ltac:(lia)).
      change (FormatDets.update_next_shot st
              = (Ret tt, dets_state bits p (byte_val tag) a ts rest b))
        in Hparse.
      rewrite Hparse, Hadv.
      exists (byte_val tag), a, ts. cbn [existsb].
      assert (H1 : (p =? cur) = false) by (apply Z.eqb_neq; lia).
      rewrite H1. cbn [orb].
      rewrite (ascending_absent (resolve (byte_val tag) a ts) (a + 1) p)
        by (lia || assumption).
      rewrite orb_false_r, (Z.eqb_sym p).
      split; [reflexivity|]. split; [lia|]. split; [assumption|].
      split; [assumption|]. split; [assumption|]. split; [lia|].
      split.
      * intros q Hq.
        assert (H2 : (q =? cur) = false) by (apply Z.eqb_neq; lia).
        rewrite H2. reflexivity.
      * intros all (pre & Hall). exists (pre ++ [(cur, ty)]).
        rewrite <- app_assoc. exact Hall.
    + (* the index parsed last is still ahead *)
      rewrite Z.gtb_ltb in Hgt. apply Z.ltb_ge in Hgt.
      subst st. rewrite Hadv.
      exists ty, cur, ((tag, ds) :: ts). cbn [resolve existsb]. fold a.
      assert (H1 : (p =? a) = false) by (apply Z.eqb_neq; lia).
      rewrite H1. cbn [orb].
      rewrite (ascending_absent (resolve (byte_val tag) a ts) (a + 1) p)
        by (lia || assumption).
      rewrite orb_false_r, (Z.eqb_sym p).
      split; [reflexivity|]. split; [lia|]. split; [assumption|].
      split; [cbn [ascending]; auto|]. split; [assumption|].
      split; [intros _; lia|]. split; [intros q Hq; reflexivity|].
      intros all Hall. exact Hall.
Qed.

Lemma dets_ok_end (bits ty cur : Z) (later : list (byte * list byte)) :
  dets_ok bits bits ty cur later -> later = [].
Proof.
  intros (_ & Hasc & Hlt & Hnear).
  destruct later as [|[tag ds] ts]; [reflexivity|].
  specialize (Hnear ltac:(discriminate)).
  cbn [resolve ascending] in Hasc. cbn [resolve] in Hlt.
  inversion Hlt; subst. lia.
Qed.

(** Reading on, up to the end of the record. *)
Lemma dets_read_bits (n : nat) :
  forall (bits p ty cur b : Z) (later : list (byte * list byte)) (rest : FILE),
    0 <= p -> p + Z.of_nat n <= bits -> bits <= SSIZE_MAX ->
    -1 <= cur < bits ->
    Forall dets_token later ->
    ascending (cur + 1) (resolve ty cur later) ->
    Forall (fun h => h < bits) (resolve ty cur later) ->
    (later <> [] -> p <= cur + 1) ->
    exists ty' cur' later',
      read_bits FormatDets.read_bit n (dets_state bits p ty cur later rest b)
      = (Ret (hit_bits n p (cur :: resolve ty cur later)),
         dets_state bits (p + Z.of_nat n) ty' cur' later' rest b) /\
      dets_ok bits (p + Z.of_nat n) ty' cur' later' /\
      (forall all, dets_trace all ty cur later ->
                   dets_trace all ty' cur' later').
Proof.
  induction n as [|n IH];
    intros bits p ty cur b later rest Hp Hn Hs Hcur Htok Hasc Hlt Hnear.
  - exists ty, cur, later. cbn [read_bits hit_bits Z.of_nat]. unfold ret.
    rewrite Z.add_0_r. split; [reflexivity|].
    split; [repeat split; assumption|]. intros all Hall. exact Hall.
  - destruct (dets_read_bit_step bits p ty cur b later rest)
      as (ty1 & cur1 & later1 & Hrd & Hc1 & Hn1 & Ha1 & Hl1 & Hnear1 & Hsame
          & Htr1);
      try assumption; try lia.
    destruct (IH bits (p + 1) ty1 cur1 b later1 rest)
      as (ty2 & cur2 & later2 & Hrun & Hend & Htr2);
      try assumption; try lia.
    exists ty2, cur2, later2. cbn [read_bits]. unfold bind. rewrite Hrd, Hrun.
    unfold ret. cbn [hit_bits].
    rewrite (hit_bits_ext n (p + 1) (cur1 :: resolve ty1 cur1 later1)
               (cur :: resolve ty cur later))
      by (intros q Hq; apply Hsame; lia).
    replace (p + 1 + Z.of_nat n) with (p + Z.of_nat (S n)) in * by lia.
    split; [reflexivity|]. split; [exact Hend|].
    intros all Hall. apply Htr2, Htr1, Hall.
Qed.

(** A whole record read from its start. *)
Lemma dets_read_record (bits b : Z) (toks : list (byte * list byte))
    (rest : FILE) (n : nat) :
  0 <= bits <= SSIZE_MAX -> dets_record bits toks ->
  Z.of_nat n <= bits ->
  exists ty cur later,
    read_bits FormatDets.read_bit n (dets_start bits toks rest b)
    = (Ret (hit_bits n 0 (dets_indices toks)),
       dets_state bits (Z.of_nat n) ty cur later rest b) /\
    dets_ok bits (Z.of_nat n) ty cur later /\
    dets_trace (tagged char_M (-1) toks) ty cur later.
Proof.
  intros Hb (Hne & Htok & Hasc & Hlt) Hn.
  destruct toks as [|[tag ds] ts]; [congruence|].
  cbn [dets_start]. inversion Htok as [|? ? Ht Hts]; subst.
  unfold dets_indices in *. cbn [resolve] in Hasc, Hlt |- *.
  change (-1 + 1) with 0 in *. rewrite Z.add_0_r in *.
  assert (Hidx : (if byte_val tag =? char_M then decimal 0 ds
                  else decimal 0 ds) = decimal 0 ds)
    by (destruct (byte_val tag =? char_M); reflexivity).
  rewrite Hidx in *. cbn [ascending] in Hasc. destruct Hasc as [H0 Hasc].
  inversion Hlt; subst.
  destruct (dets_read_bits n bits 0 (byte_val tag) (decimal 0 ds) b ts rest
              ltac:(lia) ltac:(lia) ltac:(lia) ltac:(lia) Hts Hasc
              ltac:(assumption) ltac:(intros _; lia))
    as (ty' & cur & later & Hrun & Hend & Htr).
  exists ty', cur, later. rewrite Hrun.
  split; [reflexivity|]. split; [exact Hend|].
  apply Htr. exists []. cbn [app tagged].
  change (-1 + 1) with 0. rewrite Z.add_0_r.
  destruct (byte_val tag =? char_M); reflexivity.
Qed.

Lemma ctor_dets_start (bits d l : Z) (toks : list (byte * list byte))
    (rest : FILE) :
  bits <= SSIZE_MAX -> dets_record bits toks ->
  FormatDets.ctor (dets_line toks ++ rest) bits d l
  = Ret (dets_start bits toks rest 0).
Proof.
  intros Hb Hrec. unfold FormatDets.ctor, MeasureRecordReader.ctor.
  rewrite size_check_passes by lia.
  unfold dets_line. rewrite <- app_assoc. cbn [app].
  rewrite maybe_consume_keyword_shot.
  rewrite (dets_begin bits char_M (byte_val byte_space) 0 toks rest Hb Hrec).
  reflexivity.
Qed.

(** X9.  A DETS reader made on a record of tokens "shot T1 T2 ...", each a
    type tag M, D or L with a numeral, returns on its first [n] calls of
    [read_bit] a 1 at exactly the indices the tokens resolve to: the
    numeral itself for the first token and for a token of the same type as
    the one before it, and the numeral counted from the position after the
    previous index for a token whose type differs.  The resolved indices
    must ascend strictly and stay below the record size.  Once all bits of
    the record are read, the line is consumed to its newline and nothing
    after it has been taken. *)
Theorem dets_record_decodes (bits d l : Z) (toks : list (byte * list byte))
    (rest : FILE) (n : nat) :
  0 <= bits <= SSIZE_MAX -> dets_record bits toks -> Z.of_nat n <= bits ->
  exists st0 st1,
    FormatDets.ctor (dets_line toks ++ rest) bits d l = Ret st0 /\
    read_bits FormatDets.read_bit n st0
    = (Ret (hit_bits n 0 (dets_indices toks)), st1) /\
    FormatDets.position st1 = Z.of_nat n /\
    (Z.of_nat n = bits ->
     FormatDets.in_ st1 = rest /\ FormatDets.separator st1 = char_nl).
Proof.
  intros Hb Hrec Hn.
  destruct (dets_read_record bits 0 toks rest n Hb Hrec Hn)
    as (ty & cur & later & Hrun & Hend & _).
  exists (dets_start bits toks rest 0),
    (dets_state bits (Z.of_nat n) ty cur later rest 0).
  split; [apply ctor_dets_start; [lia | exact Hrec]|].
  split; [exact Hrun|]. split; [reflexivity|].
  intros Hfull. rewrite Hfull in Hend. rewrite (dets_ok_end _ _ _ _ Hend).
  split; reflexivity.
Qed.

Lemma dets_record_decodes_witness :
  exists st0 st1,
    FormatDets.ctor (stream_of ("shot M1 D0 D4 L1" ++ nl)) 8 0 0 = Ret st0 /\
    read_bits FormatDets.read_bit 8 st0
    = (Ret [false; true; true; false; true; false; true; false], st1) /\
    FormatDets.position st1 = 8 /\
    (8 = 8 -> FormatDets.in_ st1 = [] /\ FormatDets.separator st1 = char_nl).
Proof.
  refine (dets_record_decodes 8 0 0
            [(byte_M, [x31]); (byte_D, [x30]); (byte_D, [x34]);
             (byte_L, [x31])] [] 8 _ _ _).
  - rewrite SSIZE_MAX_eq. lia.
  - split; [discriminate|]. split.
    + repeat constructor; try discriminate; rewrite LONG_MAX_eq; cbn; lia.
    + split; [cbn; lia | repeat constructor; cbn; lia].
  - lia.
Defined.

(** ** DETS format: a file of records *)

Lemma dets_line_app (toks : list (byte * list byte)) (rest : FILE) :
  dets_line toks ++ rest = shot_bytes ++ byte_space :: dets_tokens toks ++ rest.
Proof. unfold dets_line. rewrite <- app_assoc. reflexivity. Qed.

Lemma dets_tokens_length (later : list (byte * list byte)) :
  (length later <= length (dets_tokens later))%nat.
Proof.
  induction later as [|[tag ds] ts IH]; [cbn; lia|].
  cbn [dets_tokens length]. rewrite length_app.
  destruct ts as [|t' ts']; cbn [length] in *; lia.
Qed.

(** The loop of [next_record] takes the rest of the record.  The tokens
    are parsed with the reader standing at [p]; [g] is the index the token
    before them resolved to. *)
Lemma dets_drain (later : list (byte * list byte)) :
  forall (fuel : nat) (bits p ty cur g b : Z) (rest : FILE),
    (length later < fuel)%nat -> 0 <= p -> bits <= SSIZE_MAX ->
    dets_ok bits p ty g later ->
    exists ty' cur',
      FormatDets.drain fuel (dets_state bits p ty cur later rest b)
      = (Ret tt, dets_state bits p ty' cur' [] rest b).
Proof.
  induction later as [|[tag ds] ts IH];
    intros fuel bits p ty cur g b rest Hfuel Hp Hb (Htok & Hasc & Hlt & Hnear);
    (destruct fuel as [|fuel]; [cbn [length] in Hfuel; lia|]);
    cbn [FormatDets.drain].
  - change (FormatDets.separator (dets_state bits p ty cur [] rest b))
      with char_nl.
    change (char_nl =? char_space) with false. exists ty, cur. reflexivity.
  - change (FormatDets.separator
              (dets_state bits p ty cur ((tag, ds) :: ts) rest b))
      with char_space.
    change (char_space =? char_space) with true.
    inversion Htok as [|? ? Ht Hts]; subst.
    cbn [resolve] in Hasc, Hlt.
    set (a := if byte_val tag =? ty then decimal 0 ds
              else decimal 0 ds + (g + 1)) in *.
    cbn [ascending] in Hasc. destruct Hasc as [Hlo Hasc].
    inversion Hlt as [|? ? Hlt1 Hlts]; subst.
    specialize (Hnear ltac:(discriminate)).
    assert (Hv : 0 <= decimal 0 ds).
    { destruct Ht as [_ (_ & Hds & _)]. cbn [snd] in Hds.
      apply (decimal_grows ds 0 Hds). lia. }
    pose proof (dets_parse bits p ty cur char_space b tag ds ts rest Ht Hp Hb)
      as Hparse.
    cbv zeta in Hparse.
    assert (Hidx : p <= (if byte_val tag =? ty then decimal 0 ds
                         else decimal 0 ds + p) < bits)
      by (unfold a in *; destruct (byte_val tag =? ty); lia).
    specialize (Hparse Hidx).
    change (FormatDets.update_next_shot
              (dets_state bits p ty cur ((tag, ds) :: ts) rest b)
            = (Ret tt,
               dets_state bits p (byte_val tag)
                 (if byte_val tag =? ty then decimal 0 ds
                  else decimal 0 ds + p) ts rest b)) in Hparse.
    unfold bind. rewrite Hparse.
    apply (IH fuel bits p (byte_val tag) _ a b rest);
      [cbn [length] in Hfuel; lia | exact Hp | exact Hb |].
    split; [assumption|]. split; [assumption|]. split; [assumption|].
    intros _. lia.
Qed.

(** [next_record], wherever in the record the reader stands. *)
Lemma dets_next_record (bits p ty cur b : Z) (later : list (byte * list byte))
    (lines : list (list (byte * list byte))) :
  0 <= p -> bits <= SSIZE_MAX -> dets_ok bits p ty cur later ->
  Forall (dets_record bits) lines ->
  match lines with
  | [] =>
      exists st',
        FormatDets.next_record
          (dets_state bits p ty cur later (flat_map dets_line lines) b)
        = (Ret false, st')
  | l :: ls =>
      FormatDets.next_record
        (dets_state bits p ty cur later (flat_map dets_line lines) b)
      = (Ret true, dets_start bits l (flat_map dets_line ls) b)
  end.
Proof.
  intros Hp Hb Hok Hrec. unfold FormatDets.next_record.
  destruct (dets_drain later
              (S (length (FormatDets.in_
                            (dets_state bits p ty cur later
                                        (flat_map dets_line lines) b))))
              bits p ty cur cur b (flat_map dets_line lines))
    as (ty' & cur' & Hdrain).
  { pose proof (dets_tokens_length later).
    unfold dets_state. cbn [FormatDets.in_].
    destruct later; [cbn; lia|]. rewrite length_app. lia. }
  { exact Hp. }
  { exact Hb. }
  { exact Hok. }
  rewrite Hdrain. unfold dets_state.
  cbn [FormatDets.base FormatDets.in_ FormatDets.separator
       FormatDets.result_type FormatDets.next_shot FormatDets.position].
  destruct lines as [|l ls].
  - eexists. reflexivity.
  - inversion Hrec; subst. cbn [flat_map].
    rewrite dets_line_app, maybe_consume_keyword_shot.
    cbn [FormatDets.base FormatDets.in_ FormatDets.separator
         FormatDets.result_type FormatDets.next_shot FormatDets.position].
    rewrite (dets_begin bits ty' (byte_val byte_space) b l
               (flat_map dets_line ls)) by assumption.
    reflexivity.
Qed.

Lemma dets_read_lines (bits b : Z) (recs : list (nat * list (byte * list byte))) :
  0 <= bits <= SSIZE_MAX ->
  forall first,
    Forall (fun r => Z.of_nat (fst r) <= bits /\ dets_record bits (snd r))
           (first :: recs) ->
    exists st1,
      read_records FormatDets.read_bit FormatDets.next_record
                   (map fst (first :: recs))
                   (dets_start bits (snd first)
                               (flat_map dets_line (map snd recs)) b)
      = (Ret (with_more
                (map (fun r => hit_bits (fst r) 0 (dets_indices (snd r)))
                     (first :: recs))), st1).
Proof.
  intros Hb. induction recs as [|r rs IH]; intros [n toks] Hall;
    inversion Hall as [|? ? [Hn Htoks] Hrest]; subst; cbn [fst snd] in *.
  - destruct (dets_read_record bits b toks [] n Hb Htoks Hn)
      as (ty & cur & later & Hrun & Hok & _).
    destruct (dets_next_record bits (Z.of_nat n) ty cur b later []
                ltac:(lia) ltac:(lia) Hok ltac:(constructor))
      as (st' & Hnext).
    cbn [map flat_map fst snd read_records with_more is_nil negb] in *.
    unfold bind at 1. rewrite Hrun. unfold bind at 1. rewrite Hnext.
    eexists. reflexivity.
  - assert (Hlines : Forall (dets_record bits) (map snd (r :: rs))).
    { apply Forall_map. eapply Forall_impl; [|exact Hrest].
      intros a [_ Ha]. exact Ha. }
    destruct (dets_read_record bits b toks
                (flat_map dets_line (map snd (r :: rs))) n Hb Htoks Hn)
      as (ty & cur & later & Hrun & Hok & _).
    destruct (IH r Hrest) as (st1 & Hrec).
    exists st1.
    change (map fst ((n, toks) :: r :: rs)) with (n :: map fst (r :: rs)).
    cbn [read_records]. unfold bind at 1. rewrite Hrun. unfold bind at 1.
    pose proof (dets_next_record bits (Z.of_nat n) ty cur b later
                  (map snd (r :: rs)) ltac:(lia) ltac:(lia) Hok Hlines)
      as Hnext.
    cbn [map] in Hnext. cbn [map]. rewrite Hnext.
    unfold bind. cbn [map] in Hrec. rewrite Hrec. reflexivity.
Qed.

(** X10.  Reading a DETS file record by record.  For a stream made of
    records "shot T1 T2 ...", each with at least one token and with resolved
    indices that ascend below the record size, the reader that [make]
    returns yields, with any number of calls of [read_bit] up to the record
    size and then a call of [next_record] for each record, the first bits
    of what the tokens resolve to: [next_record] skips what is left of the
    record.  It returns [true] after every record but the last, and [false]
    after the last.  The type of the last token parsed stays the current
    result type when the next record starts; it does not change what that
    record decodes to. *)
Theorem dets_file_round_trip (bits : Z) (first : nat * list (byte * list byte))
    (recs : list (nat * list (byte * list byte))) :
  0 <= bits <= SSIZE_MAX ->
  Forall (fun r => Z.of_nat (fst r) <= bits /\ dets_record bits (snd r))
         (first :: recs) ->
  exists r0 r1,
    make (flat_map dets_line (map snd (first :: recs))) SAMPLE_FORMAT_DETS
         bits 0 0
    = Ret r0 /\
    read_records read_bit next_record (map fst (first :: recs)) r0
    = (Ret (with_more
              (map (fun r => hit_bits (fst r) 0 (dets_indices (snd r)))
                   (first :: recs))), r1).
Proof.
  intros Hb Hall.
  destruct (dets_read_lines bits 0 recs Hb first Hall) as (st1 & Hrun).
  inversion Hall as [|? ? [_ Hfirst] _]; subst.
  exists (ReaderDets (dets_start bits (snd first)
                                 (flat_map dets_line (map snd recs)) 0)),
    (ReaderDets st1).
  split.
  - unfold make. cbn [is_dets negb andb flat_map map].
    rewrite ctor_dets_start by (lia || assumption). reflexivity.
  - rewrite (read_records_dispatch ReaderDets FormatDets.read_bit
               FormatDets.next_record) by reflexivity.
    unfold dispatch. rewrite Hrun. reflexivity.
Qed.

Lemma dets_file_round_trip_witness :
  exists r0 r1,
    make (stream_of ("shot M0 D0" ++ nl ++ "shot D1" ++ nl))
         SAMPLE_FORMAT_DETS 3 0 0
    = Ret r0 /\
    read_records read_bit next_record [1%nat; 3%nat] r0
    = (Ret [([true], true); ([false; true; false], false)], r1).
Proof.
  refine (dets_file_round_trip 3 (1%nat, [(byte_M, [x30]); (byte_D, [x30])])
            [(3%nat, [(byte_D, [x31])])] _ _).
  - rewrite SSIZE_MAX_eq. lia.
  - repeat constructor; try discriminate; try (rewrite LONG_MAX_eq; cbn; lia);
      cbn; lia.
Defined.

(** ** DETS format: [read_bytes] *)

Lemma dets_good_range (st : FormatDets.t) :
  dets_good st ->
  0 <= MeasureRecordReader.position (FormatDets.as_base st)
    <= MeasureRecordReader.bits_per_record (FormatDets.as_base st) /\
  MeasureRecordReader.bits_per_record (FormatDets.as_base st) <= SSIZE_MAX.
Proof.
  intros (bits & p & ty & cur & later & rest & b & -> & Hp & Hb & _).
  pose proof SSIZE_MAX_eq.
  unfold FormatDets.as_base, FormatDets.bits_per_record.
  cbn [dets_state FormatDets.position FormatDets.base
       MeasureRecordReader.position MeasureRecordReader.bits_per_record].
  rewrite to_size_t_small by (rewrite SIZE_MODULUS_eq; lia). lia.
Qed.

Lemma dets_good_step (st : FormatDets.t) :
  dets_good st ->
  MeasureRecordReader.position (FormatDets.as_base st)
  < MeasureRecordReader.bits_per_record (FormatDets.as_base st) ->
  exists b st',
    FormatDets.read_bit st = (Ret b, st') /\ dets_good st' /\
    FormatDets.as_base st'
    = MeasureRecordReader.mk
        (MeasureRecordReader.position (FormatDets.as_base st) + 1)
        (MeasureRecordReader.bits_per_record (FormatDets.as_base st)).
Proof.
  intros (bits & p & ty & cur & later & rest & b & -> & Hp & Hb & Hc & Hok) Hlt.
  pose proof SSIZE_MAX_eq. pose proof SIZE_MODULUS_eq.
  unfold FormatDets.as_base, FormatDets.bits_per_record in *.
  cbn [dets_state FormatDets.position FormatDets.base
       MeasureRecordReader.position MeasureRecordReader.bits_per_record] in *.
  rewrite to_size_t_small in Hlt by lia.
  destruct Hok as (Htok & Hasc & Hbelow & Hnear).
  destruct (dets_read_bit_step bits p ty cur b later rest)
    as (ty1 & cur1 & later1 & Hrd & Hc1 & Hn1 & Ha1 & Hl1 & Hnear1 & _);
    try assumption; try lia.
  eexists. exists (dets_state bits (p + 1) ty1 cur1 later1 rest b).
  split; [exact Hrd|]. split.
  - exists bits, (p + 1), ty1, cur1, later1, rest, b.
    split; [reflexivity|]. split; [lia|]. split; [lia|]. split; [lia|].
    repeat split; assumption.
  - cbn [dets_state FormatDets.position FormatDets.base
         MeasureRecordReader.position MeasureRecordReader.bits_per_record].
    rewrite !to_size_t_small by lia. reflexivity.
Qed.

Lemma dets_end_by_size (st : FormatDets.t) :
  dets_good st ->
  FormatDets.is_end_of_record st
  = (Ret (MeasureRecordReader.position (FormatDets.as_base st)
          >=? MeasureRecordReader.bits_per_record (FormatDets.as_base st)), st).
Proof. intros _. reflexivity. Qed.

Lemma dets_start_good (bits : Z) (toks : list (byte * list byte))
    (rest : FILE) :
  0 <= bits <= SSIZE_MAX -> dets_record bits toks ->
  dets_good (dets_start bits toks rest 0).
Proof.
  intros Hb Hrec.
  destruct (dets_read_record bits 0 toks rest 0 Hb Hrec ltac:(lia))
    as (ty & cur & later & Hrun & Hok & _).
  cbn [read_bits] in Hrun. unfold ret in Hrun. inversion Hrun as [Hst].
  destruct Hrec as (Hne & Htok & Hasc & Hlt).
  destruct toks as [|[tag ds] ts]; [congruence|].
  cbn [dets_start] in *.
  unfold dets_indices in Hasc, Hlt. cbn [resolve] in Hasc, Hlt.
  assert (Hidx : (if byte_val tag =? char_M then decimal 0 ds
                  else decimal 0 ds + (-1 + 1)) = decimal 0 ds)
    by (destruct (byte_val tag =? char_M); [reflexivity | lia]).
  rewrite Hidx in Hasc, Hlt. cbn [ascending] in Hasc.
  destruct Hasc as [H0 Hasc]. inversion Hlt; subst.
  inversion Htok; subst.
  exists bits, 0, (byte_val tag), (decimal 0 ds), ts, rest, 0.
  split; [reflexivity|]. split; [lia|]. split; [lia|]. split; [lia|].
  repeat split; try assumption. intros _. lia.
Qed.

(** X11.  [read_bytes], which the DETS reader inherits from the base class.
    On a reader made on a well-formed record it returns the number of bits
    of the record, or the number of bits the buffer holds if that is less;
    the buffer then holds, least significant bit first, that many bits of
    the record: a 1 at exactly the indices the tokens resolve to.  The
    cursor stands at the count.  When the whole record has been delivered,
    [is_end_of_record] answers [true] and a further [read_bytes] returns 0
    and leaves its buffer alone. *)
Theorem dets_read_bytes_decodes (bits d l : Z)
    (toks : list (byte * list byte)) (rest : FILE) (data : list Z) :
  0 <= bits <= SSIZE_MAX -> dets_record bits toks ->
  let m := Nat.min (8 * length data) (Z.to_nat bits) in
  exists st0 data' st1,
    FormatDets.ctor (dets_line toks ++ rest) bits d l = Ret st0 /\
    FormatDets.read_bytes data st0 = (Ret (Z.of_nat m), data', st1) /\
    length data' = length data /\
    agrees data' (hit_bits (Z.to_nat bits) 0 (dets_indices toks)) m /\
    FormatDets.position st1 = Z.of_nat m /\
    (Z.of_nat m = bits ->
     FormatDets.is_end_of_record st1 = (Ret true, st1) /\
     forall more, FormatDets.read_bytes more st1 = (Ret 0, more, st1)).
Proof.
  intros Hb Hrec m. pose proof SSIZE_MAX_eq as HS.
  pose proof SIZE_MODULUS_eq as HM.
  set (st0 := dets_start bits toks rest 0).
  assert (Hpos0 : FormatDets.position st0 = 0
                  /\ FormatDets.bits_per_record st0 = bits)
    by (subst st0; destruct toks as [|[tag ds] ts]; split; reflexivity).
  destruct Hpos0 as [Hpos0 Hbits0].
  destruct (counted_read_bytes FormatDets.as_base FormatDets.read_bit
              FormatDets.is_end_of_record dets_good dets_good_range
              dets_good_step dets_end_by_size data st0
              (dets_start_good bits toks rest Hb Hrec))
    as (d' & st1 & Hrun & Hlen & Hag & Hg1 & Hb1).
  assert (Hpos : MeasureRecordReader.position (FormatDets.as_base st0) = 0)
    by (unfold FormatDets.as_base; cbn [MeasureRecordReader.position];
        rewrite Hpos0; reflexivity).
  assert (Hbpr : MeasureRecordReader.bits_per_record (FormatDets.as_base st0)
                 = bits) by exact Hbits0.
  cbv zeta in Hrun, Hag, Hb1.
  rewrite Hpos, Hbpr in Hrun, Hag, Hb1.
  rewrite Z.sub_0_r in Hrun, Hag, Hb1. rewrite Z.add_0_l in Hb1.
  fold m in Hrun, Hag, Hb1.
  assert (Hup : upcoming FormatDets.as_base FormatDets.read_bit st0
                = hit_bits (Z.to_nat bits) 0 (dets_indices toks)).
  { unfold upcoming. rewrite Hpos, Hbpr, Z.sub_0_r.
    destruct (dets_read_record bits 0 toks rest (Z.to_nat bits) Hb Hrec
                ltac:(lia)) as (ty & cur & later & Hread & _).
    fold st0 in Hread. rewrite Hread. reflexivity. }
  rewrite Hup in Hag.
  assert (Hp1 : FormatDets.position st1 = Z.of_nat m /\
                FormatDets.bits_per_record st1 = bits).
  { pose proof (f_equal MeasureRecordReader.position Hb1) as H1.
    pose proof (f_equal MeasureRecordReader.bits_per_record Hb1) as H2.
    destruct Hg1
      as (bits' & p & ty & cur & later & rest' & b & -> & Hp & Hbb & _).
    unfold FormatDets.as_base, FormatDets.bits_per_record in *.
    cbn [dets_state FormatDets.position FormatDets.base
         MeasureRecordReader.position MeasureRecordReader.bits_per_record]
      in *.
    rewrite to_size_t_small in H1 by lia. split; assumption. }
  destruct Hp1 as [Hp1 Hbits1].
  exists st0, d', st1.
  split; [apply ctor_dets_start; [lia | exact Hrec]|].
  split; [exact Hrun|]. split; [exact Hlen|]. split; [exact Hag|].
  split; [exact Hp1|].
  intros Hfull.
  assert (Hge : (to_size_t (FormatDets.position st1)
                 >=? FormatDets.bits_per_record st1) = true).
  { rewrite Hp1, Hbits1, Hfull.
    rewrite to_size_t_small by lia. rewrite Z.geb_leb. apply Z.leb_refl. }
  split.
  - unfold FormatDets.is_end_of_record,
      MeasureRecordReader.base_is_end_of_record, FormatDets.as_base.
    cbn [MeasureRecordReader.position MeasureRecordReader.bits_per_record].
    rewrite Hge. reflexivity.
  - intros more. unfold FormatDets.read_bytes, MeasureRecordReader.read_bytes,
      FormatDets.as_base.
    cbn [MeasureRecordReader.position MeasureRecordReader.bits_per_record].
    rewrite Hge. reflexivity.
Qed.

Lemma dets_read_bytes_decodes_witness :
  exists st0 data' st1,
    FormatDets.ctor (stream_of ("shot M1 D0 D4 L1" ++ nl)) 8 0 0 = Ret st0 /\
    FormatDets.read_bytes [170; 170] st0 = (Ret 8, data', st1) /\
    length data' = 2%nat /\
    agrees data' [false; true; true; false; true; false; true; false] 8 /\
    FormatDets.position st1 = 8 /\
    (8 = 8 ->
     FormatDets.is_end_of_record st1 = (Ret true, st1) /\
     forall more, FormatDets.read_bytes more st1 = (Ret 0, more, st1)).
Proof.
  refine (dets_read_bytes_decodes 8 0 0
            [(byte_M, [x31]); (byte_D, [x30]); (byte_D, [x34]);
             (byte_L, [x31])] [] [170; 170] _ _).
  - rewrite SSIZE_MAX_eq. lia.
  - split; [discriminate|]. split.
    + repeat constructor; try discriminate; rewrite LONG_MAX_eq; cbn; lia.
    + split; [cbn; lia | repeat constructor; cbn; lia].
Defined.

(** ** 01 format: records and files *)

Lemma ctor_01_state (f : FILE) (bits : Z) :
  bits <= SSIZE_MAX -> Format01.ctor f bits = Ret (state01 bits 0 f).
Proof.
  intros Hb. unfold Format01.ctor, MeasureRecordReader.ctor.
  rewrite size_check_passes by lia. unfold state01.
  destruct (getc f). reflexivity.
Qed.

Lemma read_bit_01_state (bits p : Z) (x : bool) (s : FILE) :
  0 <= p < bits -> bits <= SSIZE_MAX ->
  Format01.read_bit (state01 bits p (bit_byte x :: s))
  = (Ret x, state01 bits (p + 1) s).
Proof.
  intros Hp Hb. rewrite SSIZE_MAX_eq in Hb.
  unfold Format01.read_bit, state01, Format01.position,
    Format01.bits_per_record.
  cbn [getc fst snd Format01.payload Format01.in_ Format01.base
       MeasureRecordReader.position MeasureRecordReader.bits_per_record].
  assert (Hge : (p >=? bits) = false)
    by (rewrite Z.geb_leb; apply Z.leb_gt; lia).
  rewrite Hge, size_add_small by (rewrite SIZE_MODULUS_eq; lia).
  destruct x; cbn; destruct (getc s); reflexivity.
Qed.

Lemma read_bits_01_state (xs : list bool) :
  forall (bits p : Z) (s : FILE),
    0 <= p -> p + Z.of_nat (length xs) <= bits -> bits <= SSIZE_MAX ->
    read_bits Format01.read_bit (length xs)
              (state01 bits p (map bit_byte xs ++ s))
    = (Ret xs, state01 bits (p + Z.of_nat (length xs)) s).
Proof.
  induction xs as [|x xs IH]; intros bits p s Hp Hn Hb.
  - cbn. unfold ret. rewrite Z.add_0_r. reflexivity.
  - cbn [length map app read_bits]. cbn [length] in Hn. unfold bind.
    rewrite read_bit_01_state by lia. rewrite IH by lia. unfold ret.
    replace (p + 1 + Z.of_nat (length xs))
      with (p + Z.of_nat (S (length xs))) by lia.
    reflexivity.
Qed.

Lemma skip_loop_at_newline (bits p : Z) (s : FILE) :
  Format01.skip_loop bits p char_nl s = (p, char_nl, s).
Proof. destruct s; reflexivity. Qed.

Lemma next_record_01_at_newline (bits p : Z) (s : FILE) :
  p <= bits ->
  Format01.next_record (state01 bits p (byte_nl :: s))
  = (Ret (negb (is_nil s)), state01 bits 0 s).
Proof.
  intros Hp. unfold Format01.next_record, state01, Format01.position,
    Format01.bits_per_record.
  cbn [getc fst snd Format01.payload Format01.in_ Format01.base
       MeasureRecordReader.position MeasureRecordReader.bits_per_record].
  change (byte_val byte_nl) with char_nl. rewrite skip_loop_at_newline.
  assert (Hgt : (p >? bits) = false)
    by (rewrite Z.gtb_ltb; apply Z.ltb_ge; lia).
  rewrite Hgt. destruct s as [|b s]; [reflexivity|].
  cbn [getc fst snd is_nil negb]. rewrite byte_val_not_EOF. reflexivity.
Qed.

Lemma text01_app (xs : list bool) (rest : FILE) :
  text01 xs ++ rest = map bit_byte xs ++ byte_nl :: rest.
Proof. unfold text01. rewrite <- app_assoc. reflexivity. Qed.

Lemma flat_map_text01_nil (records : list (list bool)) :
  is_nil (flat_map text01 records) = is_nil records.
Proof.
  destruct records as [|r rs]; [reflexivity|]. cbn [flat_map].
  rewrite text01_app. destruct (map bit_byte r); reflexivity.
Qed.

Lemma read_lines_01 (bits : Z) (records : list (list bool)) :
  bits <= SSIZE_MAX ->
  Forall (fun r => Z.of_nat (length r) <= bits) records ->
  read_records Format01.read_bit Format01.next_record (map (@length bool) records)
               (state01 bits 0 (flat_map text01 records))
  = (Ret (with_more records), state01 bits 0 []).
Proof.
  intros Hb. induction records as [|r rs IH]; intros Hall.
  - reflexivity.
  - inversion Hall as [|? ? Hr Hrs]; subst.
    cbn [map flat_map read_records with_more]. unfold bind at 1.
    rewrite text01_app, read_bits_01_state by lia.
    unfold bind at 1. rewrite next_record_01_at_newline by lia.
    unfold bind. rewrite (IH Hrs). unfold ret.
    rewrite flat_map_text01_nil. reflexivity.
Qed.

(** X12.  Reading a 01 file record by record.  For a stream made of lines
    of '0' and '1', none longer than the record size, each closed by a
    newline, the reader that [make] returns yields, with as many calls of
    [read_bit] as the line has characters and one call of [next_record] for
    each line, the bits of the line; [next_record] returns [true] after
    every line but the last, and [false] after the last. *)
Theorem file_01_round_trip (bits : Z) (records : list (list bool)) :
  0 <= bits <= SSIZE_MAX ->
  Forall (fun r => Z.of_nat (length r) <= bits) records ->
  exists r0 r1,
    make (flat_map text01 records) SAMPLE_FORMAT_01 bits 0 0 = Ret r0 /\
    read_records read_bit next_record (map (@length bool) records) r0
    = (Ret (with_more records), r1).
Proof.
  intros Hb Hall.
  exists (Reader01 (state01 bits 0 (flat_map text01 records))),
    (Reader01 (state01 bits 0 [])).
  split.
  - unfold make. cbn [is_dets negb andb]. change (0 =? 0) with true.
    cbn [negb andb]. rewrite ctor_01_state by lia. reflexivity.
  - rewrite (read_records_dispatch Reader01 Format01.read_bit
               Format01.next_record) by reflexivity.
    unfold dispatch. rewrite read_lines_01 by (lia || assumption).
    reflexivity.
Qed.

Lemma file_01_round_trip_witness :
  exists r0 r1,
    make (stream_of ("011" ++ nl ++ "10" ++ nl)) SAMPLE_FORMAT_01 3 0 0
    = Ret r0 /\
    read_records read_bit next_record [3%nat; 2%nat] r0
    = (Ret [([false; true; true], true); ([true; false], false)], r1).
Proof.
  refine (file_01_round_trip 3 [[false; true; true]; [true; false]] _ _).
  - rewrite SSIZE_MAX_eq. lia.
  - repeat constructor; cbn; lia.
Defined.

(** ** 01 format: [next_record] before the line is read to its end *)

Lemma skip_loop_line (bits : Z) (s : FILE) (cs : list byte) :
  forall p,
    0 <= p < bits -> bits <= SSIZE_MAX ->
    Forall (fun c => byte_val c <> char_nl) cs ->
    let k := Z.to_nat (bits - p) in
    exists pay,
      Format01.skip_loop bits p (fst (getc (cs ++ byte_nl :: s)))
                         (snd (getc (cs ++ byte_nl :: s)))
      = if (length cs <? k)%nat
        then (p + Z.of_nat (length cs), char_nl, s)
        else (bits, pay, skipn k cs ++ byte_nl :: s).
Proof.
  induction cs as [|c cs IH]; intros p Hp Hb Hcs k.
  - exists 0. cbn [app getc fst snd length].
    change (byte_val byte_nl) with char_nl. rewrite skip_loop_at_newline.
    assert (Hk : (0 <? k)%nat = true) by (apply Nat.ltb_lt; lia).
    rewrite Hk, Z.add_0_r. reflexivity.
  - inversion Hcs as [|? ? Hc Hcs']; subst.
    pose proof SSIZE_MAX_eq as HM.
    cbn [app getc fst snd length].
    assert (Hstep : forall f,
               Format01.skip_loop bits p (byte_val c) f
               = if p + 1 <? bits
                 then match f with
                      | [] => (p + 1, EOF, [])
                      | b :: f' => Format01.skip_loop bits (p + 1) (byte_val b) f'
                      end
                 else (p + 1, byte_val c, f)).
    { intros f. destruct f; cbn [Format01.skip_loop];
        rewrite byte_val_not_EOF;
        (assert (Hn : (byte_val c =? char_nl) = false)
           by (apply Z.eqb_neq; exact Hc));
        rewrite Hn; cbn [negb andb];
        rewrite size_add_small by (rewrite SIZE_MODULUS_eq; lia);
        reflexivity. }
    rewrite Hstep.
    destruct (p + 1 <? bits) eqn:Hlt.
    + apply Z.ltb_lt in Hlt.
      destruct (IH (p + 1) ltac:(lia) Hb Hcs') as (pay & Hrun).
      cbv zeta in Hrun.
      assert (Hk : k = S (Z.to_nat (bits - (p + 1)))) by lia.
      exists pay.
      destruct (cs ++ byte_nl :: s) as [|b f'] eqn:Hf;
        [destruct cs; discriminate|].
      cbn [getc fst snd] in Hrun. rewrite Hrun, Hk.
      change (S (length cs) <? S (Z.to_nat (bits - (p + 1))))%nat
        with (length cs <? Z.to_nat (bits - (p + 1)))%nat.
      cbn [skipn].
      destruct (length cs <? Z.to_nat (bits - (p + 1)))%nat;
        [|reflexivity].
      do 2 f_equal. lia.
    + apply Z.ltb_ge in Hlt. exists (byte_val c).
      assert (Hk : k = 1%nat) by lia. rewrite Hk.
      change (S (length cs) <? 1)%nat with (length cs <? 0)%nat.
      rewrite Nat.ltb_irrefl || (destruct (length cs); cbn [Nat.ltb Nat.leb]).
      all: cbn [skipn]; do 2 f_equal; lia.
Qed.

(** X13.  [next_record] of the 01 format, called inside the record with
    [k] bits of it still to read ([k >= 1]), on a line on which [m]
    characters are left before the newline.  If [m < k] it moves to the
    start of the next line and tells whether there is one.  If [m >= k] it
    takes [k] characters and stops there: for [m = k], the case of a line of
    full length that was not read to its end, the reader is left on the
    newline of the same line, returns [true], and the record it announces
    is empty; for [m > k] the rest of the line is taken for the next
    record, and no "Record too long" is raised. *)
Theorem next_record_01_inside_record (bits p : Z) (cs : list byte) (s : FILE) :
  0 <= p < bits -> bits <= SSIZE_MAX ->
  Forall (fun c => byte_val c <> char_nl) cs ->
  let k := Z.to_nat (bits - p) in
  Format01.next_record (state01 bits p (cs ++ byte_nl :: s))
  = if (length cs <? k)%nat
    then (Ret (negb (is_nil s)), state01 bits 0 s)
    else (Ret true, state01 bits 0 (skipn k cs ++ byte_nl :: s)).
Proof.
  intros Hp Hb Hcs k.
  destruct (skip_loop_line bits s cs p Hp Hb Hcs) as (pay & Hrun).
  cbv zeta in Hrun. fold k in Hrun.
  unfold Format01.next_record.
  change (Format01.bits_per_record (state01 bits p (cs ++ byte_nl :: s)))
    with bits.
  change (Format01.position (state01 bits p (cs ++ byte_nl :: s))) with p.
  change (Format01.payload (state01 bits p (cs ++ byte_nl :: s)))
    with (fst (getc (cs ++ byte_nl :: s))).
  change (Format01.in_ (state01 bits p (cs ++ byte_nl :: s)))
    with (snd (getc (cs ++ byte_nl :: s))).
  rewrite Hrun.
  destruct (length cs <? k)%nat eqn:Hm.
  - apply Nat.ltb_lt in Hm.
    assert (Hgt : (p + Z.of_nat (length cs) >? bits) = false)
      by (rewrite Z.gtb_ltb; apply Z.ltb_ge; lia).
    rewrite Hgt. unfold state01. destruct s as [|b s']; [reflexivity|].
    cbn [getc fst snd is_nil negb]. rewrite byte_val_not_EOF. reflexivity.
  - assert (Hgt : (bits >? bits) = false)
      by (rewrite Z.gtb_ltb; apply Z.ltb_irrefl).
    rewrite Hgt. unfold state01.
    destruct (skipn k cs ++ byte_nl :: s) as [|b s'] eqn:Hf;
      [destruct (skipn k cs); discriminate|].
    cbn [getc fst snd]. rewrite byte_val_not_EOF. reflexivity.
Qed.

Lemma next_record_01_inside_record_witness :
  Format01.next_record (state01 3 1 (stream_of ("10" ++ nl ++ "111" ++ nl)))
  = (Ret true, state01 3 0 (stream_of (nl ++ "111" ++ nl))).
Proof.
  refine (next_record_01_inside_record 3 1 [x31; x30]
            (stream_of ("111" ++ nl)) _ _ _).
  - lia.
  - rewrite SSIZE_MAX_eq. lia.
  - repeat constructor; discriminate.
Defined.

(** ** 01 format: [read_bytes] on a line *)

Lemma pending01_state (bits p : Z) (s : FILE) :
  pending01 (state01 bits p s) = line_bits s.
Proof. destruct s; reflexivity. Qed.

Lemma line_bits_line (xs : list bool) (tail : FILE) :
  tail = [] \/ (exists s, tail = byte_nl :: s) ->
  line_bits (map bit_byte xs ++ tail) = xs.
Proof.
  intros Htail. induction xs as [|x xs IH].
  - destruct Htail as [-> | [s ->]]; reflexivity.
  - cbn [map app line_bits]. destruct x; cbn; rewrite IH; reflexivity.
Qed.

Lemma inv01_state (bits p : Z) (xs : list bool) (tail : FILE) :
  0 <= p <= bits -> bits <= SSIZE_MAX ->
  tail = [] \/ (exists s, tail = byte_nl :: s) ->
  inv01 (state01 bits p (map bit_byte xs ++ tail)).
Proof. intros Hp Hb Htail. exists xs, tail. auto. Qed.

Lemma inv01_range (st : Format01.t) :
  inv01 st ->
  0 <= MeasureRecordReader.position (Format01.base st)
    <= MeasureRecordReader.bits_per_record (Format01.base st) /\
  MeasureRecordReader.bits_per_record (Format01.base st) <= SSIZE_MAX.
Proof. intros (xs & tail & _ & Hp & Hb & _). split; assumption. Qed.

Lemma read_bit_01_next (st : Format01.t) (b : bool) (rest : list bool) :
  inv01 st ->
  MeasureRecordReader.position (Format01.base st)
  < MeasureRecordReader.bits_per_record (Format01.base st) ->
  pending01 st = b :: rest ->
  exists st', Format01.read_bit st = (Ret b, st') /\ inv01 st' /\
              pending01 st' = rest /\
              Format01.base st'
              = MeasureRecordReader.mk
                  (MeasureRecordReader.position (Format01.base st) + 1)
                  (MeasureRecordReader.bits_per_record (Format01.base st)).
Proof.
  intros (xs & tail & Hst & Hp & Hb & Htail) Hlt Hpend.
  fold (Format01.position st) (Format01.bits_per_record st) in *.
  set (bits := Format01.bits_per_record st) in *.
  set (p := Format01.position st) in *.
  rewrite Hst, pending01_state, line_bits_line in Hpend by exact Htail.
  subst xs. cbn [map app] in Hst.
  exists (state01 bits (p + 1) (map bit_byte rest ++ tail)).
  rewrite Hst at 1. rewrite read_bit_01_state by lia.
  split; [reflexivity|]. split; [apply inv01_state; (lia || assumption)|].
  split; [rewrite pending01_state; apply line_bits_line; exact Htail|].
  reflexivity.
Qed.

Lemma is_end_of_record_01_spec (st : Format01.t) :
  inv01 st ->
  exists st',
    Format01.is_end_of_record st
    = (Ret ((MeasureRecordReader.position (Format01.base st)
             >=? MeasureRecordReader.bits_per_record (Format01.base st))
            || is_nil (pending01 st)), st') /\
    inv01 st' /\ pending01 st' = pending01 st /\
    Format01.base st' = Format01.base st.
Proof.
  intros Hinv. exists st. split; [|auto].
  destruct Hinv as (xs & tail & Hst & Hp & Hb & Htail).
  unfold Format01.is_end_of_record.
  fold (Format01.position st) (Format01.bits_per_record st).
  f_equal. f_equal. rewrite orb_comm. f_equal.
  rewrite Hst at 1 2 3. rewrite pending01_state, line_bits_line by exact Htail.
  unfold state01. cbn [Format01.payload].
  destruct xs as [|x xs].
  - destruct Htail as [-> | [s ->]]; reflexivity.
  - destruct x; reflexivity.
Qed.

(** X14.  [read_bytes] of a 01 reader made on a line of '0' and '1' that is
    not empty and not longer than the record: it returns the number of
    characters of the line, or the number of bits the buffer holds if that
    is less, and the buffer holds the bits of the line in that number,
    least significant bit first; the bits of the line that did not fit the
    buffer are the ones the reader returns next.  At a newline inside the
    record, however (an empty line, or a line shorter than the record that
    has been read), [read_bytes] on a buffer that is not empty clears the
    first byte and throws the end-of-record exception. *)
Theorem read_bytes_01_line (bits : Z) (xs : list bool) (rest : FILE)
    (data : list Z) :
  bits <= SSIZE_MAX ->
  (xs <> [] -> Z.of_nat (length xs) <= bits ->
   let m := Nat.min (8 * length data) (length xs) in
   exists st0 data' st1,
     Format01.ctor (text01 xs ++ rest) bits = Ret st0 /\
     Format01.read_bytes data st0 = (Ret (Z.of_nat m), data', st1) /\
     length data' = length data /\
     agrees data' xs m /\
     Format01.position st1 = Z.of_nat m /\
     pending01 st1 = skipn m xs) /\
  (forall (p b0 : Z) (d : list Z),
      0 <= p < bits ->
      Format01.read_bytes (b0 :: d) (state01 bits p (byte_nl :: rest))
      = (Throw PastEndOfRecord, 0 :: d, state01 bits p (byte_nl :: rest))).
Proof.
  intros Hb. split.
  - intros Hne Hlen m.
    set (st0 := state01 bits 0 (map bit_byte xs ++ byte_nl :: rest)).
    assert (Hinv : inv01 st0)
      by (apply inv01_state; [lia | exact Hb | right; eauto]).
    assert (Hpend : pending01 st0 = xs)
      by (unfold st0; rewrite pending01_state; apply line_bits_line;
          right; eauto).
    assert (Hpos : 0 < bits) by (destruct xs; [congruence | cbn in Hlen; lia]).
    destruct (generic_loop_spec Format01.base Format01.read_bit
                Format01.is_end_of_record pending01 inv01 inv01_range
                read_bit_01_next is_end_of_record_01_spec data 0 st0 Hinv)
      as (d' & st1 & Hloop & Hlen' & Hag & Hinv1 & Hp1 & Hb1).
    { exact Hpos. }
    { rewrite Hpend. exact Hne. }
    { cbn. lia. }
    assert (Hm : deliverable Format01.base pending01 (8 * length data) st0 = m).
    { unfold deliverable. rewrite Hpend. subst m. cbn. lia. }
    rewrite Hm in *. rewrite Hpend in *.
    exists st0, d', st1.
    split; [rewrite text01_app; apply ctor_01_state; exact Hb|].
    split.
    { unfold Format01.read_bytes, MeasureRecordReader.read_bytes.
      assert (Hg : (MeasureRecordReader.position (Format01.base st0)
                    >=? MeasureRecordReader.bits_per_record (Format01.base st0))
                   = false)
        by (cbn; rewrite Z.geb_leb; apply Z.leb_gt; exact Hpos).
      rewrite Hg. exact Hloop. }
    split; [exact Hlen'|]. split; [exact Hag|].
    split; [unfold Format01.position; rewrite Hb1; reflexivity | exact Hp1].
  - intros p b0 d Hp.
    unfold Format01.read_bytes, MeasureRecordReader.read_bytes.
    assert (Hg : (p >=? bits) = false)
      by (rewrite Z.geb_leb; apply Z.leb_gt; lia).
    cbn [state01 Format01.base MeasureRecordReader.position
         MeasureRecordReader.bits_per_record getc fst snd].
    rewrite Hg. reflexivity.
Qed.

Lemma read_bytes_01_line_witness :
  exists st0 data' st1,
    Format01.ctor (stream_of ("1011" ++ nl ++ "0000" ++ nl)) 4 = Ret st0 /\
    Format01.read_bytes [170] st0 = (Ret 4, data', st1) /\
    length data' = 1%nat /\
    agrees data' [true; false; true; true] 4 /\
    Format01.position st1 = 4 /\
    pending01 st1 = [].
Proof.
  refine (proj1 (read_bytes_01_line 4 [true; false; true; true]
                   (stream_of ("0000" ++ nl)) [170] _) _ _).
  - rewrite SSIZE_MAX_eq. lia.
  - discriminate.
  - cbn. lia.
Defined.

(** ** B8 format: the bits of the bytes *)

(** X15.  A B8 reader returns the bits of the bytes of its stream, each
    byte from its least significant bit upwards: the first [n] calls of
    [read_bit] return the first [n] of these bits, for every [n] up to the
    record size and the number of bits in the stream.  When the stream ends
    inside the record, the call after its last bit throws the end-of-file
    exception. *)
Theorem B8_decodes_bytes (f : FILE) (bits : Z) (n : nat) :
  0 <= bits <= SSIZE_MAX ->
  (n <= Nat.min (Z.to_nat bits) (8 * length f))%nat ->
  exists st0 st1,
    FormatB8.ctor f bits = Ret st0 /\
    read_bits FormatB8.read_bit n st0
    = (Ret (firstn n (stream_bits f)), st1) /\
    FormatB8.position st1 = Z.of_nat n /\
    (n = (8 * length f)%nat -> Z.of_nat n < bits ->
     exists st2, FormatB8.read_bit st1 = (Throw PastEndOfFile, st2)).
Proof.
  intros Hb Hn.
  destruct (ctor_B8_fresh f bits Hb)
    as (st0 & Hctor & Hinv & Hba & Hpos & Hbpr & Hpend).
  destruct (read_bits_pending FormatB8.base FormatB8.read_bit B8_pending
              B8_inv B8_inv_range B8_read_bit_next n st0 Hinv)
    as (st1 & Hrun & Hinv1 & Hp1 & Hb1).
  { fold (FormatB8.position st0) (FormatB8.bits_per_record st0).
    rewrite Hpos, Hbpr, Hpend, length_stream_bits, Z.sub_0_r. exact Hn. }
  fold (FormatB8.position st0) (FormatB8.bits_per_record st0) in Hb1.
  rewrite Hpos, Hbpr in Hb1. rewrite Hpend in Hrun, Hp1.
  exists st0, st1. split; [exact Hctor|]. split; [exact Hrun|].
  split; [unfold FormatB8.position; rewrite Hb1; reflexivity|].
  intros Hall Hlt. apply B8_read_bit_dry; [exact Hinv1| |].
  - unfold FormatB8.position, FormatB8.bits_per_record. rewrite Hb1.
    cbn [MeasureRecordReader.position MeasureRecordReader.bits_per_record].
    lia.
  - rewrite Hp1. apply skipn_all2. rewrite length_stream_bits. lia.
Qed.

Lemma B8_decodes_bytes_witness :
  exists st0 st1,
    FormatB8.ctor [x05; xff] 12 = Ret st0 /\
    read_bits FormatB8.read_bit 10 st0
    = (Ret (firstn 10 (stream_bits [x05; xff])), st1) /\
    FormatB8.position st1 = Z.of_nat 10 /\
    (10%nat = (8 * 2)%nat -> Z.of_nat 10 < 12 ->
     exists st2, FormatB8.read_bit st1 = (Throw PastEndOfFile, st2)).
Proof.
  refine (B8_decodes_bytes [x05; xff] 12 10 _ _).
  - rewrite SSIZE_MAX_eq. lia.
  - cbn. lia.
Defined.

(** ** B8 format: [read_bytes] in any state *)

Lemma stream_bits_skipn (f : FILE) (k : nat) :
  stream_bits (skipn k f) = skipn (8 * k) (stream_bits f).
Proof.
  revert k. induction f as [|b f IH]; intros k.
  - rewrite !skipn_nil. reflexivity.
  - destruct k as [|k]; [reflexivity|].
    replace (8 * S k)%nat with (8 * k + 8)%nat by lia.
    rewrite stream_bits_cons. cbn [skipn]. rewrite IH.
    rewrite <- skipn_skipn.
    replace (skipn 8 (bits_of 8 (byte_val b) ++ stream_bits f))
      with (stream_bits f); [reflexivity|].
    rewrite skipn_app, length_bits_of, Nat.sub_diag.
    rewrite skipn_all2 by (rewrite length_bits_of; lia). reflexivity.
Qed.

(** The state the bulk path leaves. *)
Lemma B8_bulk_state (data : list Z) (st : FormatB8.t) :
  B8_inv st -> FormatB8.bits_available st = 0 ->
  FormatB8.position st < FormatB8.bits_per_record st ->
  8 * Z.of_nat (length data) < SIZE_MODULUS ->
  let m := deliverable FormatB8.base B8_pending (8 * length data) st in
  let st' := snd (FormatB8.read_bytes data st) in
  B8_inv st' /\
  FormatB8.position st' = FormatB8.position st + Z.of_nat m /\
  FormatB8.bits_per_record st' = FormatB8.bits_per_record st /\
  (FormatB8.position st' < FormatB8.bits_per_record st' ->
   B8_pending st' = skipn m (B8_pending st)).
Proof.
  intros (Hpos & Hbits & Hba & Hpay) Hz Hlt Hlen m.
  pose proof SIZE_MODULUS_eq as HM. pose proof SSIZE_MAX_eq as HS.
  assert (Hpend : B8_pending st = stream_bits (FormatB8.in_ st))
    by (unfold B8_pending; rewrite Hz; reflexivity).
  unfold FormatB8.read_bytes.
  assert (H1 : (FormatB8.position st >=? FormatB8.bits_per_record st) = false)
    by (rewrite Z.geb_leb; apply Z.leb_gt; exact Hlt).
  rewrite H1, Hz. change (0 >? 0) with false. cbv iota.
  unfold size_mul, size_sub, size_add.
  rewrite (to_size_t_small (8 * Z.of_nat (length data))) by lia.
  rewrite (to_size_t_small (FormatB8.bits_per_record st - FormatB8.position st))
    by lia.
  set (n_bits := Z.min (8 * Z.of_nat (length data))
                       (FormatB8.bits_per_record st - FormatB8.position st)).
  assert (Hnb : 0 <= n_bits <= 8 * Z.of_nat (length data)) by (subst n_bits; lia).
  rewrite (to_size_t_small (n_bits + 7)) by lia.
  assert (Hceil : 0 <= (n_bits + 7) / 8 <= Z.of_nat (length data) /\
                  n_bits <= 8 * ((n_bits + 7) / 8) <= n_bits + 7).
  { pose proof (Z.div_mod (n_bits + 7) 8) as Hd.
    pose proof (Z.mod_pos_bound (n_bits + 7) 8) as Hb. lia. }
  rewrite fread_spec by lia.
  set (k := Nat.min (Z.to_nat ((n_bits + 7) / 8)) (length (FormatB8.in_ st))).
  rewrite (to_size_t_small (8 * Z.of_nat k)) by (subst k; lia).
  assert (Hm : Z.min (8 * Z.of_nat k) n_bits = Z.of_nat m).
  { subst m k. unfold deliverable. rewrite Hpend, length_stream_bits.
    fold (FormatB8.position st) (FormatB8.bits_per_record st).
    subst n_bits. lia. }
  rewrite Hm. cbn [snd].
  assert (Hmle : FormatB8.position st + Z.of_nat m <= FormatB8.bits_per_record st)
    by (subst n_bits; lia).
  rewrite (to_size_t_small (FormatB8.position st + Z.of_nat m)) by lia.
  unfold B8_inv, B8_pending, FormatB8.position, FormatB8.bits_per_record.
  cbn [FormatB8.base FormatB8.in_ FormatB8.payload FormatB8.bits_available
       MeasureRecordReader.position MeasureRecordReader.bits_per_record].
  fold (FormatB8.position st) (FormatB8.bits_per_record st).
  rewrite Hz. cbn [Z.to_nat bits_of app].
  split; [repeat split; lia|]. split; [reflexivity|]. split; [reflexivity|].
  intros Hinside.
  assert (Hmk : m = (8 * k)%nat).
  { assert (Hcase : n_bits = 8 * Z.of_nat (length data) \/
                    n_bits = FormatB8.bits_per_record st - FormatB8.position st)
      by (subst n_bits; lia).
    destruct Hcase as [Hc | Hc]; [|lia].
    assert (Hdiv : (n_bits + 7) / 8 = Z.of_nat (length data)).
    { rewrite Hc.
      replace (8 * Z.of_nat (length data) + 7)
        with (7 + Z.of_nat (length data) * 8) by lia.
      rewrite Z.div_add by lia. reflexivity. }
    subst k. rewrite Hdiv, Nat2Z.id in *. lia. }
  rewrite Hmk. apply stream_bits_skipn.
Qed.

(** X16.  [read_bytes] of the B8 format in any state that calls of
    [read_bit], [is_end_of_record] and [read_bytes] lead to, whether or not
    the cursor is on a byte boundary: it does not throw, it returns the
    number of bits that the buffer, the rest of the record and the rest of
    the stream all allow, and the buffer holds that many of the bits the
    reader had before it, in their order, least significant bit first.  The
    cursor advances by the count, and while the record has not ended the
    bits after those delivered are the ones a later call returns. *)
Theorem B8_read_bytes_any_state (data : list Z) (st : FormatB8.t) :
  B8_inv st ->
  8 * Z.of_nat (length data) < SIZE_MODULUS ->
  let m := deliverable FormatB8.base B8_pending (8 * length data) st in
  exists data' st',
    FormatB8.read_bytes data st = (Ret (Z.of_nat m), data', st') /\
    length data' = length data /\
    agrees data' (B8_pending st) m /\
    B8_inv st' /\
    FormatB8.position st' = FormatB8.position st + Z.of_nat m /\
    FormatB8.bits_per_record st' = FormatB8.bits_per_record st /\
    (FormatB8.position st' < FormatB8.bits_per_record st' ->
     B8_pending st' = skipn m (B8_pending st)).
Proof.
  intros Hinv Hlen m.
  destruct (B8_inv_range st Hinv) as [Hr Hs].
  fold (FormatB8.position st) (FormatB8.bits_per_record st) in Hr, Hs.
  destruct (Z_lt_ge_dec (FormatB8.position st) (FormatB8.bits_per_record st))
    as [Hlt | Hge].
  - destruct (Z.eq_dec (FormatB8.bits_available st) 0) as [Hz | Hnz].
    + (* the bulk path *)
      destruct (B8_bulk_delivers data st Hinv Hz Hlt Hlen)
        as (d' & st' & Hrun & Hl & Hag).
      pose proof (B8_bulk_state data st Hinv Hz Hlt Hlen) as Hst.
      cbv zeta in Hst. rewrite Hrun in Hst. cbn [snd] in Hst.
      exists d', st'. tauto.
    + (* the generic path *)
      pose proof Hinv as (Hpos & Hbits & Hba & Hpay).
      assert (Hne : B8_pending st <> []).
      { unfold B8_pending.
        destruct (Z.to_nat (FormatB8.bits_available st)) eqn:Hn; [lia|].
        discriminate. }
      destruct (generic_loop_spec FormatB8.base FormatB8.read_bit
                  FormatB8.is_end_of_record B8_pending B8_inv B8_inv_range
                  B8_read_bit_next B8_is_end_of_record_spec data 0 st Hinv
                  Hlt Hne)
        as (d' & st' & Hloop & Hl & Hag & Hinv' & Hp' & Hb').
      { fold (FormatB8.position st). lia. }
      exists d', st'.
      unfold FormatB8.read_bytes, FormatB8.generic_read_bytes,
        MeasureRecordReader.read_bytes.
      fold (FormatB8.position st) (FormatB8.bits_per_record st).
      assert (H1 : (FormatB8.position st >=? FormatB8.bits_per_record st)
                   = false)
        by (rewrite Z.geb_leb; apply Z.leb_gt; exact Hlt).
      assert (H2 : (FormatB8.bits_available st >? 0) = true)
        by (rewrite Z.gtb_ltb; apply Z.ltb_lt; lia).
      rewrite H1, H2. cbn [Z.add] in Hloop. rewrite Hloop.
      fold (FormatB8.position st) (FormatB8.bits_per_record st) in Hb'.
      assert (Hpos' : FormatB8.position st' = FormatB8.position st + Z.of_nat m)
        by (unfold FormatB8.position at 1; rewrite Hb'; reflexivity).
      assert (Hbpr' : FormatB8.bits_per_record st'
                      = FormatB8.bits_per_record st)
        by (unfold FormatB8.bits_per_record at 1; rewrite Hb'; reflexivity).
      split; [reflexivity|]. split; [exact Hl|]. split; [exact Hag|].
      split; [exact Hinv'|]. split; [exact Hpos'|]. split; [exact Hbpr'|].
      intros _. exact Hp'.
  - (* the record has been read *)
    exists data, st. unfold FormatB8.read_bytes.
    assert (H1 : (FormatB8.position st >=? FormatB8.bits_per_record st) = true)
      by (rewrite Z.geb_leb; apply Z.leb_le; lia).
    rewrite H1.
    assert (Hm : m = 0%nat).
    { subst m. unfold deliverable.
      fold (FormatB8.position st) (FormatB8.bits_per_record st). lia. }
    rewrite Hm, Z.add_0_r. cbn [skipn Z.of_nat].
    split; [reflexivity|]. split; [reflexivity|].
    split; [intros i Hi; lia|]. split; [exact Hinv|].
    split; [reflexivity|]. split; [reflexivity|]. intros _. reflexivity.
Qed.

Lemma B8_read_bytes_any_state_witness :
  let st := FormatB8.mk (MeasureRecordReader.mk 3 16) [xff] 1 5 in
  exists data' st',
    FormatB8.read_bytes [0; 0] st = (Ret 13, data', st') /\
    length data' = 2%nat /\
    agrees data' (B8_pending st) 13.
Proof.
  intros st.
  destruct (B8_read_bytes_any_state [0; 0] st) as (d & st' & H1 & H2 & H3 & _).
  - unfold B8_inv, st. cbn. lia.
  - rewrite SIZE_MODULUS_eq. cbn. lia.
  - exists d, st'. auto.
Defined.

(** ** R8 format: [read_bytes] after [is_end_of_record] *)



(** ** What [is_end_of_record] promises *)

(** X18.  The header promises that after [is_end_of_record] returned
    [false] a call of [read_bit] returns a result, and that after it
    returned [true] [read_bit] throws and [read_bytes] returns no data.
    For the B8 and R8 readers this holds in every state the invariant of
    the reader covers: after [false], [read_bit] returns a bit; after
    [true], [read_bit] throws the end-of-record or the end-of-file
    exception and [read_bytes] returns 0.  For the 01 reader, in any state,
    [is_end_of_record] changes nothing; after [false], [read_bit] returns a
    bit unless the character is neither '0' nor '1', where it throws the
    format error; after [true], [read_bit] throws the end-of-file or the
    end-of-record exception. *)
Theorem is_end_of_record_contract :
  (forall st : Format01.t,
      exists e,
        Format01.is_end_of_record st = (Ret e, st) /\
        (e = false ->
         (exists b st', Format01.read_bit st = (Ret b, st')) \/
         Format01.read_bit st = (Throw (runtime_error Expected01), st)) /\
        (e = true ->
         Format01.read_bit st = (Throw PastEndOfFile, st) \/
         Format01.read_bit st = (Throw PastEndOfRecord, st))) /\
  (forall st : FormatB8.t,
      B8_inv st ->
      exists e st1,
        FormatB8.is_end_of_record st = (Ret e, st1) /\ B8_inv st1 /\
        (e = false -> exists b st2, FormatB8.read_bit st1 = (Ret b, st2)) /\
        (e = true ->
         (exists x st2,
             FormatB8.read_bit st1 = (Throw x, st2) /\
             (x = PastEndOfFile \/ x = PastEndOfRecord)) /\
         (forall data,
             8 * Z.of_nat (length data) < SIZE_MODULUS ->
             exists d st2, FormatB8.read_bytes data st1 = (Ret 0, d, st2)))) /\
  (forall st : FormatR8.t,
      R8_inv st ->
      exists e st1,
        FormatR8.is_end_of_record st = (Ret e, st1) /\ R8_inv st1 /\
        (e = false -> exists b st2, FormatR8.read_bit st1 = (Ret b, st2)) /\
        (e = true ->
         (exists x st2,
             FormatR8.read_bit st1 = (Throw x, st2) /\
             (x = PastEndOfFile \/ x = PastEndOfRecord)) /\
         (forall data,
             exists d st2, FormatR8.read_bytes data st1 = (Ret 0, d, st2)))).
Proof.
  split; [|split].
  - intros st. eexists. split; [reflexivity|]. unfold Format01.read_bit.
    destruct (Format01.payload st =? EOF); cbn [orb].
    + split; [discriminate | auto].
    + destruct (Format01.payload st =? char_nl); cbn [orb].
      * split; [discriminate | auto].
      * destruct (Format01.position st >=? Format01.bits_per_record st).
        -- split; [discriminate | auto].
        -- split; [|discriminate]. intros _.
           destruct (negb (Format01.payload st =? char_0)
                     && negb (Format01.payload st =? char_1)); [auto|].
           left. destruct (getc (Format01.in_ st)). eauto.
  - intros st Hinv.
    destruct (B8_is_end_of_record_spec st Hinv)
      as (st1 & Hend & Hinv1 & Hp1 & Hb1).
    exists ((FormatB8.position st >=? FormatB8.bits_per_record st)
            || is_nil (B8_pending st)), st1.
    split; [exact Hend|]. split; [exact Hinv1|].
    assert (Hpos1 : FormatB8.position st1 = FormatB8.position st)
      by (unfold FormatB8.position; rewrite Hb1; reflexivity).
    assert (Hbpr1 : FormatB8.bits_per_record st1 = FormatB8.bits_per_record st)
      by (unfold FormatB8.bits_per_record; rewrite Hb1; reflexivity).
    split.
    + intros He. apply orb_false_iff in He. destruct He as [He1 He2].
      rewrite Z.geb_leb in He1. apply Z.leb_gt in He1.
      destruct (B8_pending st) as [|x tl] eqn:Hp; [discriminate He2|].
      destruct (B8_read_bit_next st1 x tl Hinv1) as (st2 & Hrd & _).
      * lia.
      * rewrite Hp1. reflexivity.
      * eauto.
    + intros He. split.
      * destruct (Z_lt_ge_dec (FormatB8.position st)
                    (FormatB8.bits_per_record st)) as [Hlt | Hge].
        -- assert (Hnil : B8_pending st = []).
           { apply orb_true_iff in He. destruct He as [He | He].
             - rewrite Z.geb_leb in He. apply Z.leb_le in He. lia.
             - destruct (B8_pending st); [reflexivity | discriminate He]. }
           destruct (B8_read_bit_dry st1 Hinv1) as (st2 & Hrd);
             [lia | congruence |]. eauto.
        -- exists PastEndOfRecord, st1. split; [|auto].
           unfold FormatB8.read_bit. rewrite Hpos1, Hbpr1.
           assert (H : (FormatB8.position st >=? FormatB8.bits_per_record st)
                       = true) by (rewrite Z.geb_leb; apply Z.leb_le; lia).
           rewrite H. reflexivity.
      * intros data Hlen.
        destruct (Z_lt_ge_dec (FormatB8.position st)
                    (FormatB8.bits_per_record st)) as [Hlt | Hge].
        -- assert (Hnil : B8_pending st1 = []).
           { rewrite Hp1. apply orb_true_iff in He. destruct He as [He | He].
             - rewrite Z.geb_leb in He. apply Z.leb_le in He. lia.
             - destruct (B8_pending st); [reflexivity | discriminate He]. }
           assert (Hz : FormatB8.bits_available st1 = 0).
           { destruct Hinv1 as (_ & _ & Hba & _).
             unfold B8_pending in Hnil. apply app_eq_nil in Hnil.
             destruct Hnil as [Hnil _].
             destruct (Z.to_nat (FormatB8.bits_available st1)) eqn:Hn;
               [lia | discriminate Hnil]. }
           destruct (B8_bulk_delivers data st1 Hinv1 Hz ltac:(lia) Hlen)
             as (d & st2 & Hrd & _).
           assert (Hm : deliverable FormatB8.base B8_pending
                          (8 * length data) st1 = 0%nat)
             by (unfold deliverable; rewrite Hnil; cbn [length]; lia).
           rewrite Hm in Hrd. eauto.
        -- exists data, st1. unfold FormatB8.read_bytes.
           rewrite Hpos1, Hbpr1.
           assert (H : (FormatB8.position st >=? FormatB8.bits_per_record st)
                       = true) by (rewrite Z.geb_leb; apply Z.leb_le; lia).
           rewrite H. reflexivity.
  - intros st Hinv.
    destruct (R8_is_end_of_record_spec st Hinv)
      as (st1 & Hend & Hinv1 & Hp1 & Hb1).
    exists ((FormatR8.position st >=? FormatR8.bits_per_record st)
            || is_nil (R8_pending st)), st1.
    split; [exact Hend|]. split; [exact Hinv1|].
    assert (Hpos1 : FormatR8.position st1 = FormatR8.position st)
      by (unfold FormatR8.position; rewrite Hb1; reflexivity).
    assert (Hbpr1 : FormatR8.bits_per_record st1 = FormatR8.bits_per_record st)
      by (unfold FormatR8.bits_per_record; rewrite Hb1; reflexivity).
    split.
    + intros He. apply orb_false_iff in He. destruct He as [He1 He2].
      rewrite Z.geb_leb in He1. apply Z.leb_gt in He1.
      destruct (R8_pending st) as [|x tl] eqn:Hp; [discriminate He2|].
      destruct (R8_read_bit_next st1 x tl Hinv1) as (st2 & Hrd & _).
      * lia.
      * rewrite Hp1. reflexivity.
      * eauto.
    + intros He.
      destruct (Z_lt_ge_dec (FormatR8.position st)
                  (FormatR8.bits_per_record st)) as [Hlt | Hge].
      * assert (Hnil : R8_pending st1 = []).
        { rewrite Hp1. apply orb_true_iff in He. destruct He as [He | He].
          - rewrite Z.geb_leb in He. apply Z.leb_le in He. lia.
          - destruct (R8_pending st); [reflexivity | discriminate He]. }
        split.
        -- destruct (R8_read_bit_dry st1 Hinv1) as (st2 & Hrd);
             [lia | exact Hnil |]. eauto.
        -- intros data.
           destruct (R8_pending_nil st1 Hnil) as (Hq & _ & _).
           destruct (R8_bulk_delivers data st1 Hinv1 Hq)
             as (d & st2 & Hrd & _).
           assert (Hm : deliverable FormatR8.base R8_pending
                          (8 * length data) st1 = 0%nat)
             by (unfold deliverable; rewrite Hnil; cbn [length]; lia).
           rewrite Hm in Hrd. eauto.
      * assert (H : (FormatR8.position st1 >=? FormatR8.bits_per_record st1)
                    = true)
          by (rewrite Hpos1, Hbpr1, Z.geb_leb; apply Z.leb_le; lia).
        split.
        -- exists PastEndOfRecord, st1. split; [|auto].
           unfold FormatR8.read_bit. rewrite H. reflexivity.
        -- intros data. exists data, st1. unfold FormatR8.read_bytes.
           rewrite H. reflexivity.
Qed.

(** ** The rare-event iterator *)



(** ** DETS format: the type of the result just read *)

Lemma resolve_tagged (toks : list (byte * list byte)) :
  forall ty prev, resolve ty prev toks = map fst (tagged ty prev toks).
Proof.
  induction toks as [|[tag ds] ts IH]; intros ty prev; [reflexivity|].
  cbn [resolve tagged map fst]. f_equal. apply IH.
Qed.

Lemma ascending_In (hs : list Z) :
  forall lo h, ascending lo hs -> In h hs -> lo <= h.
Proof.
  induction hs as [|x hs IH]; intros lo h Hasc Hin; [contradiction|].
  cbn in Hasc. destruct Hasc as [Hlo Hasc]. destruct Hin as [-> | Hin].
  - exact Hlo.
  - specialize (IH (x + 1) h Hasc Hin). lia.
Qed.

Lemma tagged_unique (l : list (Z * Z)) :
  forall lo i a b,
    ascending lo (map fst l) -> In (i, a) l -> In (i, b) l -> a = b.
Proof.
  induction l as [|[j c] l IH]; intros lo i a b Hasc Ha Hb; [contradiction|].
  cbn [map fst ascending] in Hasc. destruct Hasc as [Hlo Hasc].
  assert (Htail : forall x, In (i, x) l -> j + 1 <= i).
  { intros x Hx. apply (ascending_In (map fst l) (j + 1) i Hasc).
    change i with (fst (i, x)). apply in_map. exact Hx. }
  destruct Ha as [Ha | Ha], Hb as [Hb | Hb].
  - congruence.
  - inversion Ha; subst. specialize (Htail b Hb). lia.
  - inversion Hb; subst. specialize (Htail a Ha). lia.
  - exact (IH (j + 1) i a b Hasc Ha Hb).
Qed.

Lemma nth_hit_bits (n : nat) :
  forall (i : nat) (p : Z) (hs : list Z),
    (i < n)%nat ->
    nth i (hit_bits n p hs) false = existsb (Z.eqb (p + Z.of_nat i)) hs.
Proof.
  induction n as [|n IH]; intros i p hs Hi; [lia|].
  cbn [hit_bits]. destruct i as [|i]; cbn [nth].
  - rewrite Z.add_0_r. reflexivity.
  - rewrite IH by lia. f_equal. f_equal. lia.
Qed.

(** [read_bit] returns 1 only with [next_shot] at the position it read. *)
Lemma read_bit_dets_true (st st' : FormatDets.t) :
  FormatDets.read_bit st = (Ret true, st') ->
  FormatDets.next_shot st' = FormatDets.position st.
Proof.
  assert (Hadv : forall s s',
             FormatDets.compare_and_advance s = (Ret true, s') ->
             FormatDets.next_shot s' = FormatDets.position s).
  { intros s s'. unfold FormatDets.compare_and_advance.
    destruct (_ >? _); [discriminate|].
    intros H.
    assert (Heq : (FormatDets.next_shot s =? FormatDets.position s) = true)
      by congruence.
    apply Z.eqb_eq in Heq.
    replace s' with (snd (@Ret bool true, s')) by reflexivity.
    rewrite <- H. cbn [snd FormatDets.next_shot]. exact Heq. }
  unfold FormatDets.read_bit.
  destruct (_ >=? _); [discriminate|].
  destruct (_ && _); [|apply Hadv].
  unfold bind. pose proof (update_next_shot_frame st) as [_ Hf].
  destruct (FormatDets.update_next_shot st) as [[u|s] st1]; [|discriminate].
  cbn [snd] in Hf. intros H. rewrite <- Hf. exact (Hadv st1 st' H).
Qed.

(** X20.  [current_result_type] of the DETS reader, called after a
    [read_bit] that returned 1, gives the type tag (M, D or L) of the token
    that this 1 comes from. *)
Theorem dets_current_result_type (bits d l : Z)
    (toks : list (byte * list byte)) (rest : FILE) (n : nat) (tag : Z) :
  0 <= bits <= SSIZE_MAX -> dets_record bits toks -> Z.of_nat n < bits ->
  In (Z.of_nat n, tag) (tagged char_M (-1) toks) ->
  exists st0 read st1,
    FormatDets.ctor (dets_line toks ++ rest) bits d l = Ret st0 /\
    read_bits FormatDets.read_bit (S n) st0 = (Ret read, st1) /\
    nth n read false = true /\
    FormatDets.current_result_type st1 = tag.
Proof.
  intros Hb Hrec Hn Hin.
  pose proof Hrec as (_ & _ & Hasc & _).
  unfold dets_indices in Hasc. rewrite resolve_tagged in Hasc.
  destruct (dets_read_record bits 0 toks rest n Hb Hrec ltac:(lia))
    as (ty0 & cur0 & later0 & Hrun0 & _ & _).
  destruct (dets_read_record bits 0 toks rest (S n) Hb Hrec ltac:(lia))
    as (ty & cur & later & Hrun & _ & (pre & Htrace)).
  assert (Hbit : nth n (hit_bits (S n) 0 (dets_indices toks)) false = true).
  { rewrite nth_hit_bits by lia. cbn [Z.add].
    apply existsb_exists. exists (Z.of_nat n). split; [|apply Z.eqb_refl].
    unfold dets_indices. rewrite resolve_tagged.
    change (Z.of_nat n) with (fst (Z.of_nat n, tag)). apply in_map. exact Hin. }
  exists (dets_start bits toks rest 0), (hit_bits (S n) 0 (dets_indices toks)),
    (dets_state bits (Z.of_nat (S n)) ty cur later rest 0).
  split; [apply ctor_dets_start; [lia | exact Hrec]|].
  split; [exact Hrun|]. split; [exact Hbit|].
  (* the last of the calls returned this 1 *)
  assert (Hlast : FormatDets.read_bit (dets_state bits (Z.of_nat n) ty0 cur0
                                                  later0 rest 0)
                  = (Ret true,
                     dets_state bits (Z.of_nat (S n)) ty cur later rest 0)).
  { replace (S n) with (n + 1)%nat in Hrun, Hbit by lia.
    rewrite read_bits_app, Hrun0 in Hrun. cbn [read_bits] in Hrun.
    unfold bind, ret in Hrun.
    destruct (FormatDets.read_bit _) as [[x|s] stx]; [|discriminate].
    inversion Hrun as [[Hbits Hst]].
    rewrite <- Hbits in Hbit.
    rewrite app_nth2 in Hbit
      by (rewrite (read_bits_length _ _ _ _ _ Hrun0); lia).
    rewrite (read_bits_length _ _ _ _ _ Hrun0), Nat.sub_diag in Hbit.
    cbn [nth] in Hbit. subst x. replace (n + 1)%nat with (S n) by lia.
    reflexivity. }
  apply read_bit_dets_true in Hlast.
  cbn [dets_state FormatDets.next_shot FormatDets.position] in Hlast.
  unfold FormatDets.current_result_type. cbn [dets_state FormatDets.result_type].
  apply (tagged_unique (tagged char_M (-1) toks) 0 (Z.of_nat n) ty tag Hasc);
    [|exact Hin].
  rewrite Htrace, Hlast. apply in_or_app. right. left. reflexivity.
Qed.

Lemma dets_current_result_type_witness :
  exists st0 read st1,
    FormatDets.ctor (stream_of ("shot M1 D0 D4 L1" ++ nl)) 8 0 0 = Ret st0 /\
    read_bits FormatDets.read_bit 7 st0 = (Ret read, st1) /\
    nth 6 read false = true /\
    FormatDets.current_result_type st1 = char_L.
Proof.
  refine (dets_current_result_type 8 0 0
            [(byte_M, [x31]); (byte_D, [x30]); (byte_D, [x34]);
             (byte_L, [x31])] [] 6 char_L _ _ _ _).
  - rewrite SSIZE_MAX_eq. lia.
  - split; [discriminate|]. split.
    + repeat constructor; try discriminate; rewrite LONG_MAX_eq; cbn; lia.
    + split; [cbn; lia | repeat constructor; cbn; lia].
  - lia.
  - cbn. auto 6.
Defined.
